(** * Side-by-side replay tool (contrib/sbs/sbs.go): model and properties

    The development embeds [sbs.go]: the query extractor [getReq] with
    the five regular expressions it uses, the JSON comparator
    [areEqualJSON], the backend runner [runQuery], the worker pipeline
    of [processLog] with the [bufio.Scanner] that reads the log, and
    the predicate counts of [getSchema] and [getCounts] with the lines
    they log.  The command line ([init], [main], [run], [check]) is
    left out.

    Go strings are byte sequences; they are modelled as [string] (one
    [ascii] per byte).  Functions of the Go standard library that the
    tool calls (regexp, strconv, unicode/utf8, encoding/json, reflect)
    are modelled after their documented behaviour on the inputs the
    tool gives them. *)

From stdpp Require Import gmap strings list.
From Stdlib Require Import ZArith Ascii String Lia SpecFloat.

Open Scope string_scope.
Open Scope Z_scope.

(** ** Bytes *)

Definition byte_val (c : ascii) : Z := Z.of_N (N_of_ascii c).
Definition byte_chr (z : Z) : ascii := ascii_of_N (Z.to_N (z mod 256)).

Definition LF : ascii := "010"%char.
Definition CR : ascii := "013"%char.
Definition DQUOTE : ascii := "034"%char.
Definition SQUOTE : ascii := "'"%char.
Definition BQUOTE : ascii := "`"%char.
Definition BSLASH : ascii := "\"%char.

(** String literals with double quotes in them: in scope [q] a single
    quote in a literal stands for a double quote, so that
    ["key:'$a'"%q] is the text [key:"$a"]. *)
Definition quoted_parse (l : list Byte.byte) : string :=
  string_of_list_ascii
    (map (λ b, let c := ascii_of_byte b in
               if Ascii.eqb c "'" then DQUOTE else c) l).

Definition quoted_print (s : string) : list Byte.byte :=
  map (λ c, byte_of_ascii (if Ascii.eqb c DQUOTE then "'"%char else c))
      (list_ascii_of_string s).

Declare Scope quoted_scope.
Delimit Scope quoted_scope with q.
String Notation string quoted_parse quoted_print : quoted_scope.

Fixpoint contains (s : string) (c : ascii) : bool :=
  match s with
  | "" => false
  | String c' s' => if Ascii.eqb c' c then true else contains s' c
  end.

Fixpoint has_prefix (p s : string) : bool :=
  match p, s with
  | "", _ => true
  | String a p', String b s' => Ascii.eqb a b && has_prefix p' s'
  | _, _ => false
  end.

Fixpoint drop_str (n : nat) (s : string) : string :=
  match n, s with
  | O, _ => s
  | S n', String _ s' => drop_str n' s'
  | S _, "" => ""
  end.

Fixpoint take_str (n : nat) (s : string) : string :=
  match n, s with
  | O, _ => ""
  | S n', String c s' => String c (take_str n' s')
  | S _, "" => ""
  end.

(** ** unicode/utf8 *)

Module utf8.

Definition RuneError : Z := 65533.
Definition MaxRune : Z := 1114111.
Definition RuneSelf : Z := 128.

Definition between (lo hi x : Z) : bool := (lo <=? x) && (x <=? hi).

Definition cont (c : ascii) : Z := Z.land (byte_val c) 63.

(** [DecodeRuneInString s] is the first rune of [s] and its width in
    bytes; an invalid or short encoding gives [(RuneError, 1)], the
    empty string [(RuneError, 0)]. *)
Definition DecodeRuneInString (s : string) : Z * nat :=
  match s with
  | "" => (RuneError, 0%nat)
  | String c0 s1 =>
    let b0 := byte_val c0 in
    if b0 <? 128 then (b0, 1%nat)
    else if between 194 223 b0 then
      match s1 with
      | String c1 _ =>
        if between 128 191 (byte_val c1)
        then (Z.lor (Z.shiftl (Z.land b0 31) 6) (cont c1), 2%nat)
        else (RuneError, 1%nat)
      | _ => (RuneError, 1%nat)
      end
    else if between 224 239 b0 then
      let lo := if b0 =? 224 then 160 else 128 in
      let hi := if b0 =? 237 then 159 else 191 in
      match s1 with
      | String c1 (String c2 _) =>
        if between lo hi (byte_val c1) && between 128 191 (byte_val c2)
        then (Z.lor (Z.lor (Z.shiftl (Z.land b0 15) 12)
                           (Z.shiftl (cont c1) 6)) (cont c2), 3%nat)
        else (RuneError, 1%nat)
      | _ => (RuneError, 1%nat)
      end
    else if between 240 244 b0 then
      let lo := if b0 =? 240 then 144 else 128 in
      let hi := if b0 =? 244 then 143 else 191 in
      match s1 with
      | String c1 (String c2 (String c3 _)) =>
        if between lo hi (byte_val c1) && between 128 191 (byte_val c2)
           && between 128 191 (byte_val c3)
        then (Z.lor (Z.lor (Z.lor (Z.shiftl (Z.land b0 7) 18)
                                  (Z.shiftl (cont c1) 12))
                           (Z.shiftl (cont c2) 6)) (cont c3), 4%nat)
        else (RuneError, 1%nat)
      | _ => (RuneError, 1%nat)
      end
    else (RuneError, 1%nat)
  end.

Definition ValidRune (r : Z) : bool :=
  between 0 55295 r || between 57344 MaxRune r.

(** [EncodeRune r]: the UTF-8 encoding of [r]; a rune out of range or
    a surrogate half is encoded as [RuneError]. *)
Definition EncodeRune (r : Z) : string :=
  let r := if ValidRune r then r else RuneError in
  if r <=? 127 then String (byte_chr r) ""
  else if r <=? 2047 then
    String (byte_chr (Z.lor 192 (Z.shiftr r 6)))
      (String (byte_chr (Z.lor 128 (Z.land r 63))) "")
  else if r <=? 65535 then
    String (byte_chr (Z.lor 224 (Z.shiftr r 12)))
      (String (byte_chr (Z.lor 128 (Z.land (Z.shiftr r 6) 63)))
        (String (byte_chr (Z.lor 128 (Z.land r 63))) ""))
  else
    String (byte_chr (Z.lor 240 (Z.shiftr r 18)))
      (String (byte_chr (Z.lor 128 (Z.land (Z.shiftr r 12) 63)))
        (String (byte_chr (Z.lor 128 (Z.land (Z.shiftr r 6) 63)))
          (String (byte_chr (Z.lor 128 (Z.land r 63))) ""))).

Fixpoint valid_go (fuel : nat) (s : string) : bool :=
  match s with
  | "" => true
  | _ =>
    match fuel with
    | O => false
    | S fuel' =>
      match DecodeRuneInString s with
      | (r, n) =>
        if (r =? RuneError) && (n =? 1)%nat then false
        else valid_go fuel' (drop_str n s)
      end
    end
  end.

(** [ValidString s]: [s] consists of valid UTF-8 encodings only. *)
Definition ValidString (s : string) : bool := valid_go (String.length s) s.

End utf8.

(** ** strconv.Unquote *)

Module strconv.

Definition unhex (c : ascii) : option Z :=
  let b := byte_val c in
  if utf8.between 48 57 b then Some (b - 48)
  else if utf8.between 97 102 b then Some (b - 97 + 10)
  else if utf8.between 65 70 b then Some (b - 65 + 10)
  else None.

(** A [rune] is an [int32]: arithmetic on it wraps around. *)
Definition int32 (z : Z) : Z := (z + 2147483648) mod 4294967296 - 2147483648.

Fixpoint read_hex (n : nat) (v : Z) (s : string) : option (Z * string) :=
  match n with
  | O => Some (v, s)
  | S n' =>
    match s with
    | "" => None
    | String c s' =>
      match unhex c with
      | None => None
      | Some x => read_hex n' (int32 (Z.lor (Z.shiftl v 4) x)) s'
      end
    end
  end.

Fixpoint read_oct (n : nat) (v : Z) (s : string) : option (Z * string) :=
  match n with
  | O => Some (v, s)
  | S n' =>
    match s with
    | "" => None
    | String c s' =>
      let x := byte_val c - 48 in
      if (x <? 0) || (7 <? x) then None
      else read_oct n' (Z.lor (Z.shiftl v 3) x) s'
    end
  end.

(** [UnquoteChar s quote]: the first character or escaped byte of [s]:
    its value, whether it has to be written as a multi-byte rune, and
    the rest of [s]; [None] is Go's [ErrSyntax]. *)
Definition UnquoteChar (s : string) (quote : ascii)
  : option (Z * bool * string) :=
  match s with
  | "" => None
  | String c s1 =>
    if Ascii.eqb c quote && (Ascii.eqb quote SQUOTE || Ascii.eqb quote DQUOTE)
    then None
    else if utf8.RuneSelf <=? byte_val c then
      match utf8.DecodeRuneInString s with
      | (r, size) => Some (r, true, drop_str size s)
      end
    else if negb (Ascii.eqb c BSLASH) then Some (byte_val c, false, s1)
    else
      match s1 with
      | "" => None
      | String e s2 =>
        match e with
        | "a"%char => Some (7, false, s2)
        | "b"%char => Some (8, false, s2)
        | "f"%char => Some (12, false, s2)
        | "n"%char => Some (10, false, s2)
        | "r"%char => Some (13, false, s2)
        | "t"%char => Some (9, false, s2)
        | "v"%char => Some (11, false, s2)
        | "x"%char =>
          match read_hex 2 0 s2 with
          | Some (v, s3) => Some (v, false, s3)
          | None => None
          end
        | "u"%char =>
          match read_hex 4 0 s2 with
          | Some (v, s3) =>
            if utf8.ValidRune v then Some (v, true, s3) else None
          | None => None
          end
        | "U"%char =>
          match read_hex 8 0 s2 with
          | Some (v, s3) =>
            if utf8.ValidRune v then Some (v, true, s3) else None
          | None => None
          end
        | "\"%char => Some (92, false, s2)
        | _ =>
          if utf8.between 48 55 (byte_val e) then
            match read_oct 2 (byte_val e - 48) s2 with
            | Some (v, s3) => if 255 <? v then None else Some (v, false, s3)
            | None => None
            end
          else if Ascii.eqb e SQUOTE || Ascii.eqb e DQUOTE then
            if Ascii.eqb e quote then Some (byte_val e, false, s2) else None
          else None
        end
      end
  end.

(** [index s c]: byte offset of the first [c] in [s]. *)
Fixpoint index (s : string) (c : ascii) : option nat :=
  match s with
  | "" => None
  | String c' s' => if Ascii.eqb c' c then Some O else S <$> index s' c
  end.

Fixpoint remove_cr (s : string) : string :=
  match s with
  | "" => ""
  | String c s' => if Ascii.eqb c CR then remove_cr s' else String c (remove_cr s')
  end.

(** The loop of [unquote] over a quoted string with escapes: it stops
    in front of the closing quote, or after one character of a
    single-quoted literal. *)
Fixpoint unquote_loop (fuel : nat) (quote : ascii) (s : string)
  : option (string * string) :=
  match s with
  | "" => Some ("", s)
  | String c _ =>
    if Ascii.eqb c quote then Some ("", s)
    else
      match fuel with
      | O => None
      | S fuel' =>
        match UnquoteChar s quote with
        | None => None
        | Some (r, multibyte, rem) =>
          if Ascii.eqb c LF then None
          else
            let out := if (r <? utf8.RuneSelf) || negb multibyte
                       then String (byte_chr r) "" else utf8.EncodeRune r in
            if Ascii.eqb quote SQUOTE then Some (out, rem)
            else
              match unquote_loop fuel' quote rem with
              | None => None
              | Some (o, rem') => Some (out ++ o, rem')
              end
        end
      end
  end.

(** [unquote s]: the unquoted prefix of [s] and what follows it. *)
Definition unquote (s : string) : option (string * string) :=
  match s with
  | String quote s1 =>
    match index s1 quote with
    | None => None
    | Some i =>
      let body := take_str i s1 in
      let rest := drop_str (S i) s1 in
      if Ascii.eqb quote BQUOTE then
        Some (if contains body CR then remove_cr body else body, rest)
      else if Ascii.eqb quote DQUOTE || Ascii.eqb quote SQUOTE then
        let plain := negb (contains body BSLASH) && negb (contains body LF) in
        let valid :=
          if Ascii.eqb quote DQUOTE then utf8.ValidString body
          else
            match utf8.DecodeRuneInString body with
            | (r, n) =>
              (n =? String.length body)%nat
              && negb ((r =? utf8.RuneError) && (n =? 1)%nat)
            end in
        if plain && valid then Some (body, rest)
        else
          match unquote_loop (String.length s1) quote s1 with
          | Some (out, String c rem) =>
            if Ascii.eqb c quote then Some (out, rem) else None
          | _ => None
          end
      else None
    end
  | _ => None
  end.

(** [Unquote s]: the string that the Go literal [s] denotes, or [None]
    ([ErrSyntax]) when [s] is not exactly one quoted literal. *)
Definition Unquote (s : string) : option string :=
  match unquote s with
  | Some (out, "") => Some out
  | _ => None
  end.

End strconv.

(** ** regexp: the fragment the tool's patterns are written in

    All five patterns are sequences of literal bytes and one [.*]
    (greedy) or [.*?] (lazy), possibly captured.  [.] matches every
    character but a line feed.  Every literal is ASCII, so a match can
    only start and end on rune boundaries and matching byte by byte
    gives what Go's rune-wise matcher gives. *)

Module regexp.

Inductive node :=
  | Lit (c : ascii)
  | Star (greedy capture : bool).

Definition Regexp := list node.

Fixpoint lits (s : string) : Regexp :=
  match s with
  | "" => []
  | String c s' => Lit c :: lits s'
  end.

(** An anchored match: the text matched, the captured groups, and the
    rest of the input. *)
Record found := Found { whole : string; groups : list string; rest : string }.

Definition extend (c : ascii) (capture : bool) (f : found) : found :=
  Found (String c (whole f))
        (if capture then
           match groups f with
           | g :: gs => String c g :: gs
           | [] => []
           end
         else groups f)
        (rest f).

Definition open_group (capture : bool) (f : found) : found :=
  if capture then Found (whole f) ("" :: groups f) (rest f) else f.

(** [match_here re s]: the match of [re] at the start of [s] that a
    backtracking (leftmost-first) matcher prefers: a lazy star tries
    the shorter repetition first, a greedy star the longer. *)
Fixpoint match_here (re : Regexp) : string → option found :=
  match re with
  | [] => λ s, Some (Found "" [] s)
  | Lit c :: re' => λ s,
    match s with
    | String c' s' =>
      if Ascii.eqb c c' then
        (λ f, Found (String c (whole f)) (groups f) (rest f)) <$> match_here re' s'
      else None
    | "" => None
    end
  | Star greedy capture :: re' =>
    fix star (s : string) : option found :=
      let stop := open_group capture <$> match_here re' s in
      let more :=
        match s with
        | String c s' =>
          if Ascii.eqb c LF then None else extend c capture <$> star s'
        | "" => None
        end in
      if greedy
      then match more with Some f => Some f | None => stop end
      else match stop with Some f => Some f | None => more end
  end.

(** The leftmost match of [re] in [s]. *)
Fixpoint search (re : Regexp) (s : string) : option found :=
  match match_here re s with
  | Some f => Some f
  | None =>
    match s with
    | "" => None
    | String _ s' => search re s'
    end
  end.

(** [FindStringSubmatch re s]: the leftmost match and its groups, or
    the nil slice. *)
Definition FindStringSubmatch (re : Regexp) (s : string) : list string :=
  match search re s with
  | Some f => whole f :: groups f
  | None => []
  end.

Fixpoint find_all (fuel : nat) (re : Regexp) (s : string) : list (list string) :=
  match fuel with
  | O => []
  | S fuel' =>
    match search re s with
    | None => []
    | Some f =>
      (whole f :: groups f) ::
      match whole f, rest f with
      | "", "" => []
      | "", String _ r => find_all fuel' re r
      | _, r => find_all fuel' re r
      end
    end
  end.

(** [FindAllStringSubmatch re s (-1)]: all successive non-overlapping
    matches.  The patterns of the tool never match the empty string. *)
Definition FindAllStringSubmatch (re : Regexp) (s : string) : list (list string) :=
  find_all (S (String.length s)) re s.

End regexp.

(** ** The extractor *)

Import regexp.

(** The five patterns of the tool. *)

(** [isQuery]: the marker phrase, then the rest of the line, captured
    by a greedy star. *)
Definition isQuery : Regexp :=
  (lits "Got a query: query:" ++ [Star true true])%list.

(** [queryRe]: ".*?" *)
Definition queryRe : Regexp :=
  (lits "'"%q ++ [Star false false] ++ lits "'"%q)%list.

(** [varRe]: vars:<.*?> *)
Definition varRe : Regexp :=
  (lits "vars:<" ++ [Star false false] ++ lits ">")%list.

(** [keyRe]: key:"(.*?)" *)
Definition keyRe : Regexp :=
  (lits "key:'"%q ++ [Star false true] ++ lits "'"%q)%list.

(** [valRe]: value:"(.*?)" *)
Definition valRe : Regexp :=
  (lits "value:'"%q ++ [Star false true] ++ lits "'"%q)%list.

(** [api.Request], with the two fields the tool sets. *)
Record Request := mkRequest { Query : string; Vars : gmap string string }.

(** What a Go call with results [(T, error)] can do: return a value,
    return an error, or panic. *)
Inductive result (A : Type) :=
  | Ok (a : A)
  | Err (msg : string)
  | Panic (msg : string).
Arguments Ok {A} a.
Arguments Err {A} msg.
Arguments Panic {A} msg.

(** The loop of [getReq] over the [vars:<...>] fragments: indexing the
    nil slice of a failed submatch panics. *)
Fixpoint bind_vars (varStr : list (list string)) (mp : gmap string string)
  : result (gmap string string) :=
  match varStr with
  | [] => Ok mp
  | v :: varStr' =>
    match v !! 0%nat with
    | None => Panic "index out of range [0] with length 0"
    | Some v0 =>
      let keys := FindStringSubmatch keyRe v0 in
      let vals := FindStringSubmatch valRe v0 in
      match keys !! 1%nat with
      | None => Panic "index out of range [1] with length 0"
      | Some k =>
        match vals !! 1%nat with
        | None => Panic "index out of range [1] with length 0"
        | Some x => bind_vars varStr' (<[k := x]> mp)
        end
      end
    end
  end.

Definition getReq (s : string) : result Request :=
  let m := FindStringSubmatch isQuery s in
  match m !! 1%nat with
  | Some m1 =>
    let qm := FindStringSubmatch queryRe m1 in
    match qm !! 0%nat with
    | None => Err "Not a valid query found in the string"
    | Some qm0 =>
      match strconv.Unquote qm0 with
      | None => Err "while unquoting: invalid syntax"
      | Some query =>
        let varStr := FindAllStringSubmatch varRe m1 in
        match bind_vars varStr ∅ with
        | Ok mp => Ok (mkRequest query mp)
        | Err e => Err e
        | Panic p => Panic p
        end
      end
    end
  | None => Err "Not a valid query found in the string"
  end.

(** ** encoding/json: decoding a text into an [interface{}] *)

Module json.

(** The dynamic values [json.Unmarshal] stores into an [interface{}]:
    [nil], [bool], [float64], [string], [[]interface{}] and
    [map[string]interface{}].  A map is kept as an association list
    with one entry per key. *)
#[local] Unset Elimination Schemes.
Inductive value :=
  | VNil
  | VBool (b : bool)
  | VFloat64 (f : spec_float)
  | VString (s : string)
  | VSlice (l : list value)
  | VMap (m : list (string * value)).
#[local] Set Elimination Schemes.

Fixpoint map_get {A} (k : string) (m : list (string * A)) : option A :=
  match m with
  | [] => None
  | (k', x) :: m' => if String.eqb k k' then Some x else map_get k m'
  end.

(** [m[k] = x] *)
Fixpoint map_set {A} (k : string) (x : A) (m : list (string * A))
  : list (string * A) :=
  match m with
  | [] => [(k, x)]
  | (k', y) :: m' =>
    if String.eqb k k' then (k, x) :: m' else (k', y) :: map_set k x m'
  end.

(** *** Numbers: [strconv.ParseFloat(s, 64)] on a decimal literal *)

Definition is_digit (c : ascii) : bool := utf8.between 48 57 (byte_val c).

Fixpoint span_digits (s : string) : string * string :=
  match s with
  | String c s' =>
    if is_digit c then let '(d, r) := span_digits s' in (String c d, r)
    else ("", s)
  | "" => ("", "")
  end.

Fixpoint digits_value (acc : Z) (s : string) : Z :=
  match s with
  | "" => acc
  | String c s' => digits_value (10 * acc + (byte_val c - 48)) s'
  end.

(** The binary64 number nearest to [(-1)^neg * n * 10^k] (ties to
    even); [None] when it is out of range ([ErrRange]). *)
Definition decimal_to_float64 (neg : bool) (n k : Z) : option spec_float :=
  let num := if 0 <=? k then n * 10 ^ k else n in
  let den := if 0 <=? k then 1 else 10 ^ (- k) in
  let '(q, e, loc) := SFdiv_core_binary 53 1024 num 0 den 0 in
  match binary_round_aux 53 1024 neg q e loc with
  | S754_infinity _ | S754_nan => None
  | f => Some f
  end.

Definition ParseFloat (s : string) : option spec_float :=
  let '(neg, s) :=
    match s with
    | String "-" s' => (true, s')
    | String "+" s' => (false, s')
    | _ => (false, s)
    end in
  let '(ip, s) := span_digits s in
  let '(fp, s) :=
    match s with
    | String "." s' => span_digits s'
    | _ => ("", s)
    end in
  let '(ex, s) :=
    match s with
    | String c s' =>
      if Ascii.eqb c "e" || Ascii.eqb c "E" then
        let '(eneg, s'') :=
          match s' with
          | String "-" t => (true, t)
          | String "+" t => (false, t)
          | _ => (false, s')
          end in
        let '(ed, r) := span_digits s'' in
        match ed with
        | "" => (None, r)
        | _ => (Some (if eneg then - digits_value 0 ed else digits_value 0 ed), r)
        end
      else (Some 0, s)
    | "" => (Some 0, s)
    end in
  match ex, s, ip ++ fp with
  | None, _, _ => None
  | _, String _ _, _ => None
  | _, _, "" => None
  | Some e, "", ds =>
    decimal_to_float64 neg (digits_value 0 ds) (e - Z.of_nat (String.length fp))
  end.

(** *** The scanner *)

Inductive token :=
  | TBeginObject | TEndObject | TBeginArray | TEndArray | TColon | TComma
  | TString (s : string)
  | TNumber (lit : string)
  | TTrue | TFalse | TNull.

Definition isSpace (c : ascii) : bool :=
  Ascii.eqb c " " || Ascii.eqb c "009" || Ascii.eqb c CR || Ascii.eqb c LF.

Definition hex4 (s : string) : option Z :=
  match s with
  | String a (String b (String c (String d _))) =>
    match strconv.unhex a, strconv.unhex b, strconv.unhex c, strconv.unhex d with
    | Some x, Some y, Some z, Some w => Some (((x * 16 + y) * 16 + z) * 16 + w)
    | _, _, _, _ => None
    end
  | _ => None
  end.

(** [getu4 s]: the code unit of an escape [\uXXXX] at the start of [s]. *)
Definition getu4 (s : string) : option Z :=
  match s with
  | String "\" (String "u" s') => hex4 s'
  | _ => None
  end.

Definition IsSurrogate (r : Z) : bool := utf8.between 55296 57343 r.

(** [utf16.DecodeRune] *)
Definition utf16_DecodeRune (r1 r2 : Z) : Z :=
  if utf8.between 55296 56319 r1 && utf8.between 56320 57343 r2
  then Z.lor (Z.shiftl (r1 - 55296) 10) (r2 - 56320) + 65536
  else utf8.RuneError.

(** [escape s]: the bytes an escape sequence denotes and its length,
    [s] being the text after the backslash. *)
Definition escape (s : string) : option (string * nat) :=
  match s with
  | String c s' =>
    match c with
    | "034"%char | "\"%char | "/"%char => Some (String c "", 1%nat)
    | "b"%char => Some (String (byte_chr 8) "", 1%nat)
    | "f"%char => Some (String (byte_chr 12) "", 1%nat)
    | "n"%char => Some (String LF "", 1%nat)
    | "r"%char => Some (String CR "", 1%nat)
    | "t"%char => Some (String (byte_chr 9) "", 1%nat)
    | "u"%char =>
      match hex4 s' with
      | None => None
      | Some rr =>
        if IsSurrogate rr then
          let dec :=
            match getu4 (drop_str 4 s') with
            | Some rr1 => utf16_DecodeRune rr rr1
            | None => utf8.RuneError
            end in
          if dec =? utf8.RuneError
          then Some (utf8.EncodeRune utf8.RuneError, 5%nat)
          else Some (utf8.EncodeRune dec, 11%nat)
        else Some (utf8.EncodeRune rr, 5%nat)
      end
    | _ => None
    end
  | "" => None
  end.

Definition emit (out : string) : option (string * nat) → option (string * nat) :=
  fmap (λ '(o, n), (out ++ o, S n)).

(** [scan_string skip s]: the string literal whose text after the
    opening quote is [s]: the decoded string and the number of bytes up
    to and including the closing quote.  [skip] counts the bytes ahead
    that belong to the character just decoded. *)
Fixpoint scan_string (skip : nat) (s : string) : option (string * nat) :=
  match s with
  | "" => None
  | String c s' =>
    match skip with
    | S k => emit "" (scan_string k s')
    | O =>
      if Ascii.eqb c DQUOTE then Some ("", 1%nat)
      else if Ascii.eqb c BSLASH then
        match escape s' with
        | None => None
        | Some (out, n) => emit out (scan_string n s')
        end
      else if byte_val c <? 32 then None
      else if byte_val c <? utf8.RuneSelf then
        emit (String c "") (scan_string 0 s')
      else
        match utf8.DecodeRuneInString s with
        | (r, size) => emit (utf8.EncodeRune r) (scan_string (size - 1) s')
        end
    end
  end.

(** [scan_number s]: the length of the number literal at the start of
    [s]: an optional minus sign; a zero, or a non-zero digit and more
    digits; optionally a point and one or more digits; optionally an
    exponent: e or E, an optional sign, one or more digits. *)
Definition scan_number (s : string) : option nat :=
  let '(sign, s1) :=
    match s with
    | String "-" s' => (1%nat, s')
    | _ => (0%nat, s)
    end in
  let int :=
    match s1 with
    | String "0" s' => Some (1%nat, s')
    | String c _ =>
      if is_digit c then
        let '(d, r) := span_digits s1 in Some (String.length d, r)
      else None
    | "" => None
    end in
  match int with
  | None => None
  | Some (ni, s2) =>
    let frac :=
      match s2 with
      | String "." s' =>
        match span_digits s' with
        | ("", _) => None
        | (d, r) => Some (S (String.length d), r)
        end
      | _ => Some (0%nat, s2)
      end in
    match frac with
    | None => None
    | Some (nf, s3) =>
      match s3 with
      | String c s' =>
        if Ascii.eqb c "e" || Ascii.eqb c "E" then
          let '(ns, s'') :=
            match s' with
            | String "-" t | String "+" t => (1%nat, t)
            | _ => (0%nat, s')
            end in
          match span_digits s'' with
          | ("", _) => None
          | (d, _) => Some (sign + ni + nf + 1 + ns + String.length d)%nat
          end
        else Some (sign + ni + nf)%nat
      | "" => Some (sign + ni + nf)%nat
      end
    end
  end.

(** The token at the start of [s] and its length in bytes. *)
Definition next_token (s : string) : option (token * nat) :=
  match s with
  | "" => None
  | String c s' =>
    match c with
    | "{"%char => Some (TBeginObject, 1%nat)
    | "}"%char => Some (TEndObject, 1%nat)
    | "["%char => Some (TBeginArray, 1%nat)
    | "]"%char => Some (TEndArray, 1%nat)
    | ":"%char => Some (TColon, 1%nat)
    | ","%char => Some (TComma, 1%nat)
    | "034"%char => (λ '(o, n), (TString o, S n)) <$> scan_string 0 s'
    | "t"%char => if has_prefix "true" s then Some (TTrue, 4%nat) else None
    | "f"%char => if has_prefix "false" s then Some (TFalse, 5%nat) else None
    | "n"%char => if has_prefix "null" s then Some (TNull, 4%nat) else None
    | _ => (λ n, (TNumber (take_str n s), n)) <$> scan_number s
    end
  end.

(** The tokens of [s]; white space separates them.  [skip] counts the
    bytes ahead that belong to the token just read. *)
Fixpoint tokens (skip : nat) (s : string) : option (list token) :=
  match s with
  | "" => Some []
  | String c s' =>
    match skip with
    | S k => tokens k s'
    | O =>
      if isSpace c then tokens 0 s'
      else
        match next_token s with
        | None => None
        | Some (t, n) => cons t <$> tokens (n - 1) s'
        end
    end
  end.

(** *** The decoder *)

(** An open container: an array with the elements read so far, or an
    object with its members so far and the key whose value is being
    read. *)
Inductive frame :=
  | FSlice (acc : list value)
  | FMap (m : list (string * value)) (key : string).

Inductive state :=
  | PValue (stk : list frame)
  | PArrayStart (stk : list frame)
  | PArrayNext (acc : list value) (stk : list frame)
  | PObjectStart (stk : list frame)
  | PObjectKey (m : list (string * value)) (stk : list frame)
  | PObjectColon (m : list (string * value)) (key : string) (stk : list frame)
  | PObjectNext (m : list (string * value)) (stk : list frame)
  | PEnd (v : value).

Definition maxNestingDepth : Z := 10000.

(** A value is complete: it is the result, the next element of the
    enclosing array, or the value of the pending key of the enclosing
    object (a repeated key overwrites). *)
Definition complete (v : value) (stk : list frame) : state :=
  match stk with
  | [] => PEnd v
  | FSlice acc :: stk' => PArrayNext (acc ++ [v])%list stk'
  | FMap m k :: stk' => PObjectNext (map_set k v m) stk'
  end.

Definition begin_value (t : token) (stk : list frame) : option state :=
  match t with
  | TNull => Some (complete VNil stk)
  | TTrue => Some (complete (VBool true) stk)
  | TFalse => Some (complete (VBool false) stk)
  | TString s => Some (complete (VString s) stk)
  | TNumber lit => (λ f, complete (VFloat64 f) stk) <$> ParseFloat lit
  | TBeginArray =>
    if Z.of_nat (List.length stk) <? maxNestingDepth then Some (PArrayStart stk) else None
  | TBeginObject =>
    if Z.of_nat (List.length stk) <? maxNestingDepth then Some (PObjectStart stk) else None
  | _ => None
  end.

Definition feed (st : state) (t : token) : option state :=
  match st with
  | PValue stk => begin_value t stk
  | PArrayStart stk =>
    match t with
    | TEndArray => Some (complete (VSlice []) stk)
    | _ => begin_value t (FSlice [] :: stk)
    end
  | PArrayNext acc stk =>
    match t with
    | TComma => Some (PValue (FSlice acc :: stk))
    | TEndArray => Some (complete (VSlice acc) stk)
    | _ => None
    end
  | PObjectStart stk =>
    match t with
    | TEndObject => Some (complete (VMap []) stk)
    | TString k => Some (PObjectColon [] k stk)
    | _ => None
    end
  | PObjectKey m stk =>
    match t with
    | TString k => Some (PObjectColon m k stk)
    | _ => None
    end
  | PObjectColon m k stk =>
    match t with
    | TColon => Some (PValue (FMap m k :: stk))
    | _ => None
    end
  | PObjectNext m stk =>
    match t with
    | TComma => Some (PObjectKey m stk)
    | TEndObject => Some (complete (VMap m) stk)
    | _ => None
    end
  | PEnd _ => None
  end.

Fixpoint run (st : state) (ts : list token) : option state :=
  match ts with
  | [] => Some st
  | t :: ts' =>
    match feed st t with
    | None => None
    | Some st' => run st' ts'
    end
  end.

(** [Unmarshal s]: the value of the JSON text [s], or [None] when
    [json.Unmarshal] returns an error. *)
Definition Unmarshal (s : string) : option value :=
  match tokens 0 s with
  | None => None
  | Some ts =>
    match run (PValue []) ts with
    | Some (PEnd v) => Some v
    | _ => None
    end
  end.

End json.

(** ** reflect.DeepEqual on decoded values *)

Import json.

Fixpoint DeepEqual (x y : value) : bool :=
  match x, y with
  | VNil, VNil => true
  | VBool a, VBool b => Bool.eqb a b
  | VFloat64 f, VFloat64 g => SFeqb f g
  | VString s, VString t => String.eqb s t
  | VSlice l1, VSlice l2 =>
    (fix each (l1 l2 : list value) : bool :=
       match l1, l2 with
       | [], [] => true
       | a :: l1', b :: l2' => DeepEqual a b && each l1' l2'
       | _, _ => false
       end) l1 l2
  | VMap m1, VMap m2 =>
    (List.length m1 =? List.length m2)%nat &&
    (fix each (m : list (string * value)) : bool :=
       match m with
       | [] => true
       | (k, a) :: m' =>
         match map_get k m2 with
         | Some b => DeepEqual a b
         | None => false
         end && each m'
       end) m1
  | _, _ => false
  end.

(** ** The comparator *)

Definition areEqualJSON (s1 s2 : string) : bool :=
  match Unmarshal s1 with
  | None => false
  | Some o1 =>
    match Unmarshal s2 with
    | None => false
    | Some o2 => DeepEqual o1 o2
    end
  end.

(** ** The backend runner *)

(** What [txn.QueryWithVars] gives back: the JSON payload of the
    response, or an error. *)
Inductive response :=
  | Resp (json : string)
  | RespErr (cause : string).

(** A backend handle [*dgo.Dgraph], seen through the one call the tool
    makes on it. *)
Definition Dgraph := Request → response.

(** The error [runQuery] builds with [errors.Errorf]. *)
Record QueryError := mkQueryError {
  err_query : string;
  err_vars : gmap string string;
  err_cause : string
}.

Definition runQuery (r : Request) (client : Dgraph) : string * option QueryError :=
  match client r with
  | RespErr cause => ("", Some (mkQueryError (Query r) (Vars r) cause))
  | Resp json => (json, None)
  end.

(** ** The replay pipeline of [processLog] *)

(** [atomic.AddUint64]: the counters are [uint64] and wrap around. *)
Definition AddUint64 (x delta : Z) : Z := (x + delta) mod 2 ^ 64.

(** [bufio.MaxScanTokenSize]: the size to which the buffer of a
    [bufio.Scanner] grows. *)
Definition MaxScanTokenSize : Z := 64 * 1024.

(** The log is read by [bufio.NewScanner(f)], which splits it into
    lines.  It is given as its lines: the bytes between the line
    feeds.  A line of [MaxScanTokenSize] bytes or more does not fit
    the buffer of the scanner: on it [scan.Scan()] returns [false],
    with the error [bufio.ErrTooLong]. *)
Definition too_long (line : string) : bool :=
  MaxScanTokenSize <=? Z.of_nat (String.length line).

(** [dropCR] of [bufio]: [scan.Text()] is the line without a carriage
    return at its end. *)
Fixpoint dropCR (line : string) : string :=
  match line with
  | "" => ""
  | String c line' =>
    match line' with
    | "" => if Ascii.eqb c CR then "" else line
    | _ => String c (dropCR line')
    end
  end.

(** The goroutine that reads the log: between two lines, holding a
    request for the channel, after [close(reqCh)], or stopped by a
    panic of [getReq] (which ends the process). *)
Inductive producer :=
  | Scanning (lines : list string)
  | Sending (r : Request) (lines : list string)
  | Closed
  | Crashed.

(** A worker goroutine, by program point, with its live locals. *)
Inductive worker :=
  | WIdle
  | WLeft (r : Request)
  | WRight (r : Request) (respL : string)
  | WCompare (r : Request) (respL respR : string)
  | WAddFailed (r : Request) (respL respR : string)
  | WAddTotal (r : Request) (respL respR : string)
  | WDone.

(** The shared state: the channel [reqCh] (its buffer, oldest request
    first), the two counters, and the threads.  [sent] is a history
    variable: the number of requests put on the channel so far.  The
    reporter goroutine only loads the counters and is left out. *)
Record system := mkSystem {
  prod : producer;
  reqCh : list Request;
  workers : list worker;
  failed : Z;
  total : Z;
  sent : nat
}.

Inductive thread :=
  | Producer
  | Worker (i : nat).

Section processLog.

Variable numGo : nat.
Variables dcLeft dcRight : Dgraph.

(** [make(chan *api.Request, opts.numGo*5)] *)
Definition capacity : nat := (numGo * 5)%nat.

Definition init (lines : list string) : system :=
  mkSystem (Scanning lines) [] (replicate numGo WIdle) 0 0 0.

Definition set_prod (p : producer) (s : system) : system :=
  mkSystem p (reqCh s) (workers s) (failed s) (total s) (sent s).

Definition set_worker (i : nat) (w : worker) (s : system) : system :=
  mkSystem (prod s) (reqCh s) (<[i := w]> (workers s)) (failed s) (total s) (sent s).

(** One step of the producer.  [scan.Scan()] returns [false] at the
    end of the log and at a line that is too long for the scanner;
    [scan.Err()] is not called, so in both cases the loop ends and
    the channel is closed, and the lines after a line that is too
    long are not read.  Otherwise [getReq] is called on the text of
    the line, and its request is sent; a send waits for room. *)
Definition producer_step (s : system) : option system :=
  match prod s with
  | Scanning [] => Some (set_prod Closed s)
  | Scanning (line :: lines) =>
    if too_long line then Some (set_prod Closed s)
    else
      match getReq (dropCR line) with
      | Ok r => Some (set_prod (Sending r lines) s)
      | Err _ => Some (set_prod (Scanning lines) s)
      | Panic _ => Some (set_prod Crashed s)
      end
  | Sending r lines =>
    if (List.length (reqCh s) <? capacity)%nat then
      Some (mkSystem (Scanning lines) (reqCh s ++ [r])%list (workers s)
                     (failed s) (total s) (S (sent s)))
    else None
  | Closed | Crashed => None
  end.

(** One step of worker [i]: receive, run left, run right, compare,
    count. *)
Definition worker_step (i : nat) (s : system) : option system :=
  match workers s !! i with
  | None => None
  | Some WIdle =>
    match reqCh s with
    | r :: q =>
      Some (mkSystem (prod s) q (<[i := WLeft r]> (workers s))
                     (failed s) (total s) (sent s))
    | [] =>
      match prod s with
      | Closed => Some (set_worker i WDone s)
      | _ => None
      end
    end
  | Some (WLeft r) =>
    Some (set_worker i (WRight r (runQuery r dcLeft).1) s)
  | Some (WRight r respL) =>
    Some (set_worker i (WCompare r respL (runQuery r dcRight).1) s)
  | Some (WCompare r respL respR) =>
    Some (set_worker i (if negb (areEqualJSON respL respR)
                        then WAddFailed r respL respR
                        else WAddTotal r respL respR) s)
  | Some (WAddFailed r respL respR) =>
    Some (mkSystem (prod s) (reqCh s) (<[i := WAddTotal r respL respR]> (workers s))
                   (AddUint64 (failed s) 1) (total s) (sent s))
  | Some (WAddTotal r respL respR) =>
    Some (mkSystem (prod s) (reqCh s) (<[i := WIdle]> (workers s))
                   (failed s) (AddUint64 (total s) 1) (sent s))
  | Some WDone => None
  end.

(** A step of the whole program: after a panic nothing runs. *)
Definition step (t : thread) (s : system) : option system :=
  match prod s with
  | Crashed => None
  | _ =>
    match t with
    | Producer => producer_step s
    | Worker i => worker_step i s
    end
  end.

(** Running a schedule: the threads in the order in which they take
    their steps. *)
Fixpoint exec (sched : list thread) (s : system) : option system :=
  match sched with
  | [] => Some s
  | t :: sched' =>
    match step t s with
    | None => None
    | Some s' => exec sched' s'
    end
  end.

Definition reachable (lines : list string) (s : system) : Prop :=
  ∃ sched, exec sched (init lines) = Some s.

Definition is_done (w : worker) : bool :=
  match w with WDone => true | _ => false end.

(** [wg.Wait()] returns: every worker has returned. *)
Definition finished (s : system) : bool := forallb is_done (workers s).

End processLog.

(** ** encoding/json: decoding a text into the [Schema] struct *)

Module jsonstruct.

(** A JSON text as the scanner reads it: the members of an object in
    the order of the text, repeated keys included, and a number as its
    literal. *)
#[local] Unset Elimination Schemes.
Inductive raw :=
  | RNull
  | RBool (b : bool)
  | RNumber (lit : string)
  | RString (s : string)
  | RArray (l : list raw)
  | RObject (m : list (string * raw)).
#[local] Set Elimination Schemes.

(** The scanner between two tokens: the containers that are open,
    with what has been read of them. *)
Inductive level :=
  | FArray (acc : list raw)
  | FObject (m : list (string * raw)) (key : string).

Inductive scanner :=
  | SValue (stk : list level)
  | SArrayStart (stk : list level)
  | SArrayNext (acc : list raw) (stk : list level)
  | SObjectStart (stk : list level)
  | SObjectKey (m : list (string * raw)) (stk : list level)
  | SObjectColon (m : list (string * raw)) (key : string) (stk : list level)
  | SObjectNext (m : list (string * raw)) (stk : list level)
  | SEnd (v : raw).

Definition close_value (v : raw) (stk : list level) : scanner :=
  match stk with
  | [] => SEnd v
  | FArray acc :: stk' => SArrayNext (acc ++ [v])%list stk'
  | FObject m k :: stk' => SObjectNext (m ++ [(k, v)])%list stk'
  end.

Definition open_value (t : token) (stk : list level) : option scanner :=
  match t with
  | TNull => Some (close_value RNull stk)
  | TTrue => Some (close_value (RBool true) stk)
  | TFalse => Some (close_value (RBool false) stk)
  | TString s => Some (close_value (RString s) stk)
  | TNumber lit => Some (close_value (RNumber lit) stk)
  | TBeginArray =>
    if Z.of_nat (List.length stk) <? maxNestingDepth then Some (SArrayStart stk) else None
  | TBeginObject =>
    if Z.of_nat (List.length stk) <? maxNestingDepth then Some (SObjectStart stk) else None
  | _ => None
  end.

Definition scan_token (st : scanner) (t : token) : option scanner :=
  match st with
  | SValue stk => open_value t stk
  | SArrayStart stk =>
    match t with
    | TEndArray => Some (close_value (RArray []) stk)
    | _ => open_value t (FArray [] :: stk)
    end
  | SArrayNext acc stk =>
    match t with
    | TComma => Some (SValue (FArray acc :: stk))
    | TEndArray => Some (close_value (RArray acc) stk)
    | _ => None
    end
  | SObjectStart stk =>
    match t with
    | TEndObject => Some (close_value (RObject []) stk)
    | TString k => Some (SObjectColon [] k stk)
    | _ => None
    end
  | SObjectKey m stk =>
    match t with
    | TString k => Some (SObjectColon m k stk)
    | _ => None
    end
  | SObjectColon m k stk =>
    match t with
    | TColon => Some (SValue (FObject m k :: stk))
    | _ => None
    end
  | SObjectNext m stk =>
    match t with
    | TComma => Some (SObjectKey m stk)
    | TEndObject => Some (close_value (RObject m) stk)
    | _ => None
    end
  | SEnd _ => None
  end.

Fixpoint scan_tokens (st : scanner) (ts : list token) : option scanner :=
  match ts with
  | [] => Some st
  | t :: ts' =>
    match scan_token st t with
    | None => None
    | Some st' => scan_tokens st' ts'
    end
  end.

(** [checkValid]: the text is one JSON value; [None] is a syntax
    error. *)
Definition scan (s : string) : option raw :=
  match tokens 0 s with
  | None => None
  | Some ts =>
    match scan_tokens (SValue []) ts with
    | Some (SEnd v) => Some v
    | _ => None
    end
  end.

(** The matching of an object key against the name of a struct field
    when they are not the same text: letters match in either case, and
    the long s (U+017F) and the Kelvin sign (U+212A) match the letters
    s and k. *)
Definition caseMask (c : ascii) : Z := Z.land (byte_val c) 223.

Fixpoint equalFold (name key : string) : bool :=
  match name with
  | "" => match key with "" => true | _ => false end
  | String sb name' =>
    match key with
    | "" => false
    | String tb key' =>
      if byte_val tb <? utf8.RuneSelf then
        (Ascii.eqb sb tb
         || (utf8.between 65 90 (caseMask sb) && (caseMask sb =? caseMask tb)))
        && equalFold name' key'
      else
        match utf8.DecodeRuneInString key with
        | (tr, size) =>
          (if caseMask sb =? 83 then tr =? 383
           else if caseMask sb =? 75 then tr =? 8490
           else false)
          && equalFold name' (drop_str size key)
        end
    end
  end.

(** The field a key stands for: the field of that name, or else the
    first field whose name matches the key. *)
Fixpoint exact_field (names : list string) (key : string) : option nat :=
  match names with
  | [] => None
  | n :: names' => if String.eqb n key then Some O else S <$> exact_field names' key
  end.

Fixpoint folded_field (names : list string) (key : string) : option nat :=
  match names with
  | [] => None
  | n :: names' => if equalFold n key then Some O else S <$> folded_field names' key
  end.

Definition find_field (names : list string) (key : string) : option nat :=
  match exact_field names key with
  | Some i => Some i
  | None => folded_field names key
  end.

End jsonstruct.

(** ** The predicate counts *)

Import jsonstruct.

(** The struct tags of the two fields are not of the form [json:"..."]
    and are ignored: the fields go by their names, [Predicate] and
    [Type]. *)
Record SchemaEntry := mkSchemaEntry { Predicate : string; Type_ : string }.

(** The field [Schema] of the struct [Schema], a [[]*SchemaEntry]: the
    elements of its backing array that have been written, and its
    length.  A [nil] pointer is [None]. *)
Record Schema := mkSchema { backing : list (option SchemaEntry); len : nat }.

(** A string field: a string is stored, [null] leaves the field as it
    is, anything else is a type error. *)
Definition decode_string (cur : string) (r : raw) : option string :=
  match r with
  | RString s => Some s
  | RNull => Some cur
  | _ => None
  end.

(** The members of an object into a [SchemaEntry]: members that match
    no field are skipped. *)
Fixpoint decode_entry_fields (e : SchemaEntry) (m : list (string * raw))
  : option SchemaEntry :=
  match m with
  | [] => Some e
  | (k, r) :: m' =>
    match find_field ["Predicate"; "Type"] k with
    | Some O =>
      match decode_string (Predicate e) r with
      | Some s => decode_entry_fields (mkSchemaEntry s (Type_ e)) m'
      | None => None
      end
    | Some _ =>
      match decode_string (Type_ e) r with
      | Some s => decode_entry_fields (mkSchemaEntry (Predicate e) s) m'
      | None => None
      end
    | None => decode_entry_fields e m'
    end
  end.

(** An element of the slice, a [*SchemaEntry]: [null] stores [nil]; an
    object is decoded into the entry the pointer holds, or into a new
    one; anything else is a type error. *)
Definition decode_entry (cur : option SchemaEntry) (r : raw)
  : option (option SchemaEntry) :=
  match r with
  | RNull => Some None
  | RObject m => Some <$> decode_entry_fields (default (mkSchemaEntry "" "") cur) m
  | _ => None
  end.

(** The elements of an array, one after the other, into the elements
    of the backing array at the same index. *)
Fixpoint decode_entries (l : list raw) (b : list (option SchemaEntry))
  : option (list (option SchemaEntry)) :=
  match l with
  | [] => Some b
  | r :: l' =>
    match decode_entry (mjoin (head b)) r with
    | None => None
    | Some e => cons e <$> decode_entries l' (tail b)
    end
  end.

(** The slice: [null] stores [nil], an empty array a new empty slice,
    an array its elements, with the length of the array. *)
Definition decode_slice (s : Schema) (r : raw) : option Schema :=
  match r with
  | RNull => Some (mkSchema [] 0)
  | RArray [] => Some (mkSchema [] 0)
  | RArray l => (λ b, mkSchema b (List.length l)) <$> decode_entries l (backing s)
  | _ => None
  end.

Fixpoint decode_schema_fields (s : Schema) (m : list (string * raw))
  : option Schema :=
  match m with
  | [] => Some s
  | (k, r) :: m' =>
    match find_field ["Schema"] k with
    | Some _ =>
      match decode_slice s r with
      | Some s' => decode_schema_fields s' m'
      | None => None
      end
    | None => decode_schema_fields s m'
    end
  end.

(** [json.Unmarshal([]byte(s), &sch)] on the zero [Schema]: the
    entries of [sch.Schema], or [None] for an error. *)
Definition UnmarshalSchema (s : string) : option (list (option SchemaEntry)) :=
  match scan s with
  | None => None
  | Some RNull => Some []
  | Some (RObject m) =>
    (λ sch, take (len sch) (backing sch)) <$> decode_schema_fields (mkSchema [] 0) m
  | Some _ => None
  end.

(** [json.Unmarshal([]byte(r), &cnt)] on a nil [map[string]interface{}]:
    the map, [nil] for the text [null], or [None] for an error. *)
Definition UnmarshalMap (r : string) : option (option (list (string * value))) :=
  match Unmarshal r with
  | Some (VMap m) => Some (Some m)
  | Some VNil => Some None
  | _ => None
  end.

(** The lines [getSchema] and [getCounts] write to the log: the error
    of the schema query, written with [klog.Errorf], and the count of
    a predicate, written with [klog.Infof] as an integer. *)
Inductive log_line :=
  | LogSchemaError (cause : string)
  | LogCount (predicate : string) (c : spec_float).

(** [getSchema]: what it logs and the text it returns.  The error of
    the schema query is logged and the text of the empty object is
    returned in place of the response. *)
Definition getSchema (client : Dgraph) : list log_line * string :=
  match client (mkRequest "schema{}" ∅) with
  | RespErr cause => ([LogSchemaError cause], "{}")
  | Resp json => ([], json)
  end.

(** The errors [getCounts] returns. *)
Inductive CountsError :=
  | ErrUnmarshalSchema
  | ErrRunQuery (e : QueryError)
  | ErrUnmarshalCount.

(** How [getCounts] ends: it returns [nil] or an error, or it
    panics. *)
Inductive ending :=
  | Return (err : option CountsError)
  | Panics (msg : string).

(** The dynamic type in the message of a failed type assertion. *)
Definition type_name (v : option value) : string :=
  match v with
  | None | Some VNil => "nil"
  | Some (VBool _) => "bool"
  | Some (VFloat64 _) => "float64"
  | Some (VString _) => "string"
  | Some (VSlice _) => "[]interface {}"
  | Some (VMap _) => "map[string]interface {}"
  end.

Definition conversion (v : option value) (want : string) : string :=
  "interface conversion: interface {} is " ++ type_name v ++ ", not " ++ want.

(** [cnt["f"].([]interface{})[0].(map[string]interface{})["count"].(float64)]:
    the count, or the message of the panic. *)
Definition count_of (cnt : option (list (string * value))) : string + spec_float :=
  match cnt ≫= map_get "f" with
  | Some (VSlice l) =>
    match l with
    | [] => inl "index out of range [0] with length 0"
    | VMap m :: _ =>
      match map_get "count" m with
      | Some (VFloat64 c) => inr c
      | v => inl (conversion v "float64")
      end
    | v :: _ => inl (conversion (Some v) "map[string]interface {}")
    end
  | v => inl (conversion v "[]interface {}")
  end.

Definition count_query (predicate : string) : string :=
  "query { f(func: has(" ++ predicate ++ ")) { count(uid) } }".

(** The loop of [getCounts] over the entries of the schema: the lines
    it logs, one per entry that is counted, and how it ends. *)
Fixpoint count_entries (client : Dgraph) (entries : list (option SchemaEntry))
  : list log_line * ending :=
  match entries with
  | [] => ([], Return None)
  | None :: _ => ([], Panics "invalid memory address or nil pointer dereference")
  | Some s :: entries' =>
    match runQuery (mkRequest (count_query (Predicate s)) ∅) client with
    | (_, Some e) => ([], Return (Some (ErrRunQuery e)))
    | (r, None) =>
      match UnmarshalMap r with
      | None => ([], Return (Some ErrUnmarshalCount))
      | Some cnt =>
        match count_of cnt with
        | inl msg => ([], Panics msg)
        | inr c =>
          let '(log, e) := count_entries client entries' in
          (LogCount (Predicate s) c :: log, e)
        end
      end
    end
  end.

(** [getCounts]: the lines that are logged, those of [getSchema]
    first, and how it ends. *)
Definition getCounts (client : Dgraph) : list log_line * ending :=
  let '(log, s) := getSchema client in
  match UnmarshalSchema s with
  | None => (log, Return (Some ErrUnmarshalSchema))
  | Some entries =>
    let '(counts, e) := count_entries client entries in
    ((log ++ counts)%list, e)
  end.

(** ** Notions the properties are stated with *)

(** The marker phrase occurs in the line. *)
Definition marker : string := "Got a query: query:".

Definition has_marker (line : string) : Prop :=
  ∃ pre post, line = pre ++ marker ++ post.

(** The text up to the first line feed, and [split_at c s]: the text
    before the first [c] and the text after it, when no line feed
    comes before that [c]. *)
Fixpoint line_of (s : string) : string :=
  match s with
  | "" => ""
  | String c s' => if Ascii.eqb c LF then "" else String c (line_of s')
  end.

Fixpoint after_line (s : string) : string :=
  match s with
  | "" => ""
  | String c s' => if Ascii.eqb c LF then s else after_line s'
  end.

Fixpoint split_at (c : ascii) (s : string) : option (string * string) :=
  match s with
  | "" => None
  | String c' s' =>
    if Ascii.eqb c c' then Some ("", s')
    else if Ascii.eqb c' LF then None
    else (λ '(a, b), (String c' a, b)) <$> split_at c s'
  end.

Definition prepend (p : string) (f : found) : found :=
  Found (p ++ whole f) (groups f) (rest f).

(** The number of occurrences of a byte. *)
Fixpoint count_char (c : ascii) (s : string) : nat :=
  match s with
  | "" => O
  | String c' s' => if Ascii.eqb c' c then S (count_char c s') else count_char c s'
  end.

(** The key and the value of a [vars:<...>] fragment that has both
    portions. *)
Definition binding_of (v : list string) : option (string * string) :=
  match v !! 0%nat with
  | None => None
  | Some v0 =>
    match FindStringSubmatch keyRe v0 !! 1%nat,
          FindStringSubmatch valRe v0 !! 1%nat with
    | Some k, Some x => Some (k, x)
    | _, _ => None
    end
  end.

(** The value of the last binding of [k] in a list of bindings. *)
Fixpoint last_binding (k : string) (l : list (string * string)) : option string :=
  match l with
  | [] => None
  | (k', x) :: l' =>
    match last_binding k l' with
    | Some y => Some y
    | None => if String.eqb k k' then Some x else None
    end
  end.

(** The log line in the assumed shape.  The code that writes the log
    is not part of the tool, so the shape is taken from the spec: the
    marker phrase, the double-quoted query string and one fragment
    with a quoted key and a quoted value per binding, as in the line
    [Got a query: query:{query:"..." vars:<key:"$a" value:"1">}]. *)

(** Modelled from the spec: the text of a double-quoted string; the
    double quote, the backslash and the line feed are escaped (the
    extractor unquotes the query string). *)
Fixpoint escape_text (s : string) : string :=
  match s with
  | "" => ""
  | String c s' =>
    (if Ascii.eqb c DQUOTE then "\'"%q
     else if Ascii.eqb c BSLASH then "\\"
     else if Ascii.eqb c LF then "\n"
     else String c "") ++ escape_text s'
  end.

(** Modelled from the spec: a double-quoted string. *)
Definition quote (s : string) : string := "'"%q ++ escape_text s ++ "'"%q.

(** Modelled from the spec: a variable-binding fragment, with a quoted
    key and a quoted value. *)
Definition fragment (kv : string * string) : string :=
  "vars:<key:" ++ quote kv.1 ++ " value:" ++ quote kv.2 ++ ">".

(** Modelled from the spec: a fragment in a line, after a blank. *)
Definition encode_binding (kv : string * string) : string :=
  " " ++ fragment kv.

(** Modelled from the spec: the fragments of a line, in the order of
    the bindings. *)
Fixpoint encode_bindings (l : list (string * string)) : string :=
  match l with
  | [] => ""
  | kv :: l' => encode_binding kv ++ encode_bindings l'
  end.

(** Modelled from the spec: the log line of a request: the marker
    phrase, the quoted query string and the fragments. *)
Definition encode_line (query : string) (bindings : list (string * string)) : string :=
  marker ++ "{query:" ++ quote query ++ encode_bindings bindings ++ "}".

(** [occurs p s]: the text [p] occurs in [s]; [has_suffix p s]: [s]
    ends with [p]. *)
Fixpoint occurs (p s : string) : bool :=
  has_prefix p s
  || match s with
     | "" => false
     | String _ s' => occurs p s'
     end.

Fixpoint has_suffix (p s : string) : bool :=
  String.eqb p s
  || match s with
     | "" => false
     | String _ s' => has_suffix p s'
     end.

(** Texts that the extractor gives back from a line of the assumed
    shape.  A query text is unquoted, so it may hold backslashes and
    line feeds; it has to be valid UTF-8 without a double quote, and
    the opening [vars:<] of a fragment must not occur in it.  Keys and
    values are taken as they stand between their quotes, so they hold
    no double quote, backslash or line feed, and no [>], which closes
    the fragment; a key does not end with [value:], which with the
    closing quote of the key would open the value portion. *)
Definition plain_query (q : string) : bool :=
  negb (contains q DQUOTE) && negb (occurs "vars:<" q) && utf8.ValidString q.

Definition plain_key (k : string) : bool :=
  negb (contains k DQUOTE) && negb (contains k BSLASH) && negb (contains k LF)
  && negb (contains k ">") && negb (has_suffix "value:" k).

Definition plain_value (v : string) : bool :=
  negb (contains v DQUOTE) && negb (contains v BSLASH) && negb (contains v LF)
  && negb (contains v ">").

(** Deep equality of decoded values as the comparator's contract words
    it: scalars are equal, arrays are equal element by element in
    order, objects have the same members up to their order. *)
#[local] Unset Elimination Schemes.
Inductive same_value : value → value → Prop :=
  | same_nil : same_value VNil VNil
  | same_bool b : same_value (VBool b) (VBool b)
  | same_number f g : SFeqb f g = true → same_value (VFloat64 f) (VFloat64 g)
  | same_string s : same_value (VString s) (VString s)
  | same_array l1 l2 :
      Forall2 same_value l1 l2 → same_value (VSlice l1) (VSlice l2)
  | same_object m1 m2 m2' :
      m2 ≡ₚ m2' →
      Forall2 (λ p1 p2, p1.1 = p2.1 ∧ same_value p1.2 p2.2) m1 m2' →
      same_value (VMap m1) (VMap m2).
#[local] Set Elimination Schemes.

(** The workers that are past the comparison of a mismatching pair and
    have not yet counted the query in [total]. *)
Definition counted_failed (w : worker) : nat :=
  match w with
  | WAddTotal _ respL respR => if areEqualJSON respL respR then 0 else 1
  | _ => 0
  end.

Definition in_flight (s : system) : nat :=
  sum_list_with counted_failed (workers s).

(** A worker that holds a request it has not yet counted in [total]. *)
Definition busy (w : worker) : nat :=
  match w with
  | WIdle | WDone => 0
  | _ => 1
  end.

(** The lines the producer has still to handle. *)
Definition remaining (p : producer) : nat :=
  match p with
  | Scanning lines => List.length lines
  | Sending _ lines => S (List.length lines)
  | Closed | Crashed => 0
  end.

(** The number of lines from which [getReq] extracts a request. *)
Definition is_ok {A} (r : result A) : bool :=
  match r with Ok _ => true | _ => false end.

Definition count_ok (lines : list string) : nat :=
  List.length (filter (λ line, is_ok (getReq line) = true) lines).

(** The texts the scanner gives for a log: those of the lines in
    front of the first line that is too long for it. *)
Fixpoint scanned (lines : list string) : list string :=
  match lines with
  | [] => []
  | line :: lines' =>
    if too_long line then [] else dropCR line :: scanned lines'
  end.

(** A line of [MaxScanTokenSize] bytes. *)
Definition long_line : string :=
  string_of_list_ascii (replicate (Z.to_nat MaxScanTokenSize) "x"%char).

(** The number of requests the producer has still to send. *)
Definition pending (p : producer) : nat :=
  match p with
  | Scanning lines => count_ok (scanned lines)
  | Sending _ lines => S (count_ok (scanned lines))
  | Closed | Crashed => 0
  end.

(** A worker is about to count a failure only after a comparison that
    found a mismatch. *)
Definition wf_worker (w : worker) : Prop :=
  match w with
  | WAddFailed _ respL respR => areEqualJSON respL respR = false
  | _ => True
  end.


(** What holds of the counters in every state of a run over [lines]
    with [numGo] workers: [c] queries are counted in [total], [f] of
    them in [failed]. *)
Definition counters_inv (numGo : nat) (lines : list string) (s : system) : Prop :=
  ∃ c f : nat,
    total s = Z.of_nat c
    ∧ failed s = Z.of_nat (f + in_flight s)
    ∧ (f ≤ c)%nat
    ∧ sent s = (c + sum_list_with busy (workers s) + List.length (reqCh s))%nat
    ∧ (sent s + remaining (prod s) ≤ List.length lines)%nat
    ∧ (prod s ≠ Crashed →
       (sent s + pending (prod s))%nat = count_ok (scanned lines))
    ∧ Forall wf_worker (workers s)
    ∧ (WDone ∈ workers s → prod s = Closed ∧ reqCh s = [])
    ∧ (List.length (reqCh s) ≤ capacity numGo)%nat
    ∧ List.length (workers s) = numGo.

(** Decoded values in which every object has one member per key. *)
#[local] Unset Elimination Schemes.
Inductive unique_keys : value → Prop :=
  | uk_nil : unique_keys VNil
  | uk_bool b : unique_keys (VBool b)
  | uk_float64 f : unique_keys (VFloat64 f)
  | uk_string s : unique_keys (VString s)
  | uk_slice l : Forall unique_keys l → unique_keys (VSlice l)
  | uk_map m :
      NoDup m.*1 → Forall (λ p, unique_keys p.2) m → unique_keys (VMap m).
#[local] Set Elimination Schemes.

Definition wf_frame (fr : frame) : Prop :=
  match fr with
  | FSlice acc => Forall unique_keys acc
  | FMap m _ => unique_keys (VMap m)
  end.

Definition wf_state (st : state) : Prop :=
  match st with
  | PValue stk | PArrayStart stk | PObjectStart stk => Forall wf_frame stk
  | PArrayNext acc stk => Forall unique_keys acc ∧ Forall wf_frame stk
  | PObjectKey m stk | PObjectColon m _ stk | PObjectNext m stk =>
    unique_keys (VMap m) ∧ Forall wf_frame stk
  | PEnd v => unique_keys v
  end.

(** A binding with a plain key and a plain value. *)
Definition plain_binding (kv : string * string) : Prop :=
  plain_key kv.1 = true ∧ plain_value kv.2 = true.

(** *** Notions of the further properties *)

(** The patterns [queryRe], [varRe], [keyRe] and [valRe]: a literal
    text, a lazy star and a closing byte. *)
Definition lazy_pattern (p : string) (capture : bool) (c : ascii) : Regexp :=
  (lits p ++ [Star false capture] ++ lits (String c ""))%list.

(** A match with a carriage return after the text that follows it. *)
Definition add_cr (f : found) : found :=
  Found (whole f) (groups f) (rest f ++ String CR "").

(** A text of bytes from 128 on: bytes of multi-byte encodings. *)
Fixpoint high (w : string) : bool :=
  match w with
  | "" => true
  | String c w' => (128 <=? byte_val c) && high w'
  end.

(** The requests of a log: what [getReq] extracts from its lines, in
    order. *)
Definition request_of (line : string) : option Request :=
  match getReq line with
  | Ok r => Some r
  | _ => None
  end.

Definition requests (lines : list string) : list Request :=
  omap request_of lines.

(** The comparator finds the two responses to [r] unequal. *)
Definition mismatch (dcLeft dcRight : Dgraph) (r : Request) : bool :=
  negb (areEqualJSON (runQuery r dcLeft).1 (runQuery r dcRight).1).

Definition count_mismatch (dcLeft dcRight : Dgraph) (rs : list Request) : nat :=
  sum_list_with (λ r, if mismatch dcLeft dcRight r then 1 else 0)%nat rs.

(** The mismatch a worker holds and has not yet added to [failed]. *)
Definition owed (dcLeft dcRight : Dgraph) (w : worker) : nat :=
  match w with
  | WLeft r => if mismatch dcLeft dcRight r then 1 else 0
  | WRight r respL =>
    if areEqualJSON respL (runQuery r dcRight).1 then 0 else 1
  | WCompare _ respL respR => if areEqualJSON respL respR then 0 else 1
  | WAddFailed _ _ _ => 1
  | _ => 0
  end.

(** The requests the producer has still to put on the channel. *)
Definition to_send (p : producer) : list Request :=
  match p with
  | Scanning lines => requests (scanned lines)
  | Sending r lines => r :: requests (scanned lines)
  | Closed | Crashed => []
  end.

(** Every mismatch among the requests of the lines that are read is
    counted in [failed], held by a worker, waiting in the channel or
    still to be sent. *)
Definition failed_inv (dcLeft dcRight : Dgraph) (lines : list string)
    (s : system) : Prop :=
  ∃ f : nat,
    failed s = Z.of_nat f
    ∧ (prod s ≠ Crashed →
       (f + sum_list_with (owed dcLeft dcRight) (workers s)
        + count_mismatch dcLeft dcRight (reqCh s)
        + count_mismatch dcLeft dcRight (to_send (prod s)))%nat
       = count_mismatch dcLeft dcRight (requests (scanned lines))).

(** The shape of the threads in every state of a run: the number of
    workers is fixed, and a worker returns only from a closed and
    empty channel. *)
Definition shape_inv (numGo : nat) (s : system) : Prop :=
  List.length (workers s) = numGo
  ∧ (List.length (reqCh s) ≤ capacity numGo)%nat
  ∧ (WDone ∈ workers s → prod s = Closed ∧ reqCh s = []).

(** An upper bound of the number of steps a thread has still to take:
    two steps of the producer and six of a worker for a line, one
    step to close the channel, one for a worker to return. *)
Definition producer_steps (p : producer) : nat :=
  match p with
  | Scanning lines => 8 * List.length lines + 1
  | Sending _ lines => 8 * List.length lines + 8
  | Closed | Crashed => 0
  end.

Definition worker_steps (w : worker) : nat :=
  match w with
  | WIdle => 1
  | WLeft _ => 6
  | WRight _ _ => 5
  | WCompare _ _ _ => 4
  | WAddFailed _ _ _ => 3
  | WAddTotal _ _ _ => 2
  | WDone => 0
  end.

Definition steps_left (s : system) : nat :=
  producer_steps (prod s) + 6 * List.length (reqCh s)
  + sum_list_with worker_steps (workers s).


(** The steps of the program as a relation: one rule per statement of
    the producer and of the worker loop. *)
Inductive transition (numGo : nat) (dcLeft dcRight : Dgraph)
  : system → system → Prop :=
  | t_close s :
      prod s = Scanning [] →
      transition numGo dcLeft dcRight s (set_prod Closed s)
  | t_too_long s line lines :
      prod s = Scanning (line :: lines) → too_long line = true →
      transition numGo dcLeft dcRight s (set_prod Closed s)
  | t_extract s line lines r :
      prod s = Scanning (line :: lines) → too_long line = false →
      getReq (dropCR line) = Ok r →
      transition numGo dcLeft dcRight s (set_prod (Sending r lines) s)
  | t_skip s line lines msg :
      prod s = Scanning (line :: lines) → too_long line = false →
      getReq (dropCR line) = Err msg →
      transition numGo dcLeft dcRight s (set_prod (Scanning lines) s)
  | t_crash s line lines msg :
      prod s = Scanning (line :: lines) → too_long line = false →
      getReq (dropCR line) = Panic msg →
      transition numGo dcLeft dcRight s (set_prod Crashed s)
  | t_send s r lines :
      prod s = Sending r lines →
      (List.length (reqCh s) < capacity numGo)%nat →
      transition numGo dcLeft dcRight s
        (mkSystem (Scanning lines) (reqCh s ++ [r])%list (workers s)
                  (failed s) (total s) (S (sent s)))
  | t_receive s i r q :
      prod s ≠ Crashed → workers s !! i = Some WIdle → reqCh s = r :: q →
      transition numGo dcLeft dcRight s
        (mkSystem (prod s) q (<[i := WLeft r]> (workers s))
                  (failed s) (total s) (sent s))
  | t_return s i :
      prod s = Closed → workers s !! i = Some WIdle → reqCh s = [] →
      transition numGo dcLeft dcRight s (set_worker i WDone s)
  | t_left s i r :
      prod s ≠ Crashed → workers s !! i = Some (WLeft r) →
      transition numGo dcLeft dcRight s
        (set_worker i (WRight r (runQuery r dcLeft).1) s)
  | t_right s i r respL :
      prod s ≠ Crashed → workers s !! i = Some (WRight r respL) →
      transition numGo dcLeft dcRight s
        (set_worker i (WCompare r respL (runQuery r dcRight).1) s)
  | t_unequal s i r respL respR :
      prod s ≠ Crashed → workers s !! i = Some (WCompare r respL respR) →
      areEqualJSON respL respR = false →
      transition numGo dcLeft dcRight s
        (set_worker i (WAddFailed r respL respR) s)
  | t_equal s i r respL respR :
      prod s ≠ Crashed → workers s !! i = Some (WCompare r respL respR) →
      areEqualJSON respL respR = true →
      transition numGo dcLeft dcRight s
        (set_worker i (WAddTotal r respL respR) s)
  | t_add_failed s i r respL respR :
      prod s ≠ Crashed → workers s !! i = Some (WAddFailed r respL respR) →
      transition numGo dcLeft dcRight s
        (mkSystem (prod s) (reqCh s) (<[i := WAddTotal r respL respR]> (workers s))
                  (AddUint64 (failed s) 1) (total s) (sent s))
  | t_add_total s i r respL respR :
      prod s ≠ Crashed → workers s !! i = Some (WAddTotal r respL respR) →
      transition numGo dcLeft dcRight s
        (mkSystem (prod s) (reqCh s) (<[i := WIdle]> (workers s))
                  (failed s) (AddUint64 (total s) 1) (sent s)).

(** No line of the log makes [getReq] panic. *)
Definition no_panic (lines : list string) : Prop :=
  Forall (λ line, ∀ msg, getReq line ≠ Panic msg) lines.

Definition producer_safe (p : producer) : Prop :=
  match p with
  | Scanning lines | Sending _ lines => no_panic lines
  | Closed => True
  | Crashed => False
  end.

(** The request a step takes from the channel, and the requests the
    steps of a schedule take from it, in the order of the steps. *)
Definition received_at (t : thread) (s : system) : list Request :=
  match t with
  | Worker i =>
    match workers s !! i, reqCh s with
    | Some WIdle, r :: _ => [r]
    | _, _ => []
    end
  | Producer => []
  end.

Fixpoint received (numGo : nat) (dcLeft dcRight : Dgraph)
    (sched : list thread) (s : system) : list Request :=
  match sched with
  | [] => []
  | t :: sched' =>
    match step numGo dcLeft dcRight t s with
    | None => []
    | Some s' => (received_at t s ++ received numGo dcLeft dcRight sched' s')%list
    end
  end.

(** Where the producer is in the log: the lines it has passed held no
    line on which [getReq] panics, the requests of these lines were
    sent, and after a panic the line of the panic is the first of its
    kind. *)
Definition producer_at (lines : list string) (s : system) : Prop :=
  match prod s with
  | Scanning rest =>
    ∃ passed, lines = (passed ++ rest)%list ∧ no_panic passed
              ∧ sent s = count_ok passed
  | Sending r rest =>
    ∃ passed line, lines = (passed ++ line :: rest)%list ∧ no_panic passed
                   ∧ getReq line = Ok r ∧ sent s = count_ok passed
  | Closed =>
    ∃ passed rest, lines = (passed ++ rest)%list ∧ no_panic passed
                   ∧ sent s = count_ok passed
  | Crashed =>
    ∃ passed line rest msg,
      lines = (passed ++ line :: rest)%list ∧ no_panic passed
      ∧ getReq line = Panic msg ∧ sent s = count_ok passed
  end.

(** A property of values that holds of all the values a decoder state
    holds. *)
Definition frame_all (P : value → Prop) (fr : frame) : Prop :=
  match fr with
  | FSlice acc => Forall P acc
  | FMap m _ => P (VMap m)
  end.

Definition state_all (P : value → Prop) (st : state) : Prop :=
  match st with
  | PValue stk | PArrayStart stk | PObjectStart stk => Forall (frame_all P) stk
  | PArrayNext acc stk => Forall P acc ∧ Forall (frame_all P) stk
  | PObjectKey m stk | PObjectColon m _ stk | PObjectNext m stk =>
    P (VMap m) ∧ Forall (frame_all P) stk
  | PEnd v => P v
  end.

(** A value with one member per key in every object that is deeply
    equal to itself: there is no NaN in it. *)
Definition sound_value (v : value) : Prop :=
  unique_keys v ∧ DeepEqual v v = true.

(** A count response in the shape [getCounts] reads: an object whose
    member [f] is an array that starts with an object whose member
    [count] is the number [c]. *)
Definition count_response (r : string) (c : spec_float) : Prop :=
  ∃ m l m', Unmarshal r = Some (VMap m)
            ∧ map_get "f" m = Some (VSlice (VMap m' :: l))
            ∧ map_get "count" m' = Some (VFloat64 c).

(** The entry [e] is not [nil], and the backend answers the count
    query of its predicate with the count of the logged line. *)
Definition counted (client : Dgraph) (e : option SchemaEntry)
    (line : log_line) : Prop :=
  ∃ s r c, e = Some s ∧ line = LogCount (Predicate s) c
           ∧ client (mkRequest (count_query (Predicate s)) ∅) = Resp r
           ∧ count_response r c.

(** An entry of a schema response: an object with a member for the
    predicate, a member for the type, and other members. *)
Definition entry_object (kp kt : string) (e : SchemaEntry)
    (others : list (string * raw)) : raw :=
  RObject ((kp, RString (Predicate e)) :: (kt, RString (Type_ e)) :: others).

(** Members that stand for no field of a [SchemaEntry]. *)
Definition no_entry_field (m : list (string * raw)) : Prop :=
  Forall (λ kv, find_field ["Predicate"; "Type"] kv.1 = None) m.

(** A field name without the letters s and k: only ASCII keys match
    it. *)
Definition plain_name (name : string) : bool :=
  forallb (λ c, negb (caseMask c =? 83) && negb (caseMask c =? 75))
          (list_ascii_of_string name).

(** ** Tactics of the proofs *)

(** One more byte of a literal prefix against a text: the bytes differ,
    or the comparison goes on. *)
Ltac next_char :=
  match goal with
  | |- Ascii.eqb ?a ?c && _ = false =>
    destruct (Ascii.eqb_spec a c) as [<-|]; [simpl|done]
  end.

(** The routine parts of the invariant of the counters. *)
Ltac inv_finish Hdone :=
  try done; try lia; try (by apply Forall_insert);
  try (let Hx := fresh in intros Hx; by destruct (Hdone Hx)).

Ltac inv_finish_at Hdone Hmem :=
  try done; try lia; try (by apply Forall_insert);
  try (let Hx := fresh in
       intros Hx; apply Hmem in Hx; [by destruct (Hdone Hx) | done]).

(** * Strings *)

#[local] Arguments String.append !_ _ / : simpl nomatch.
#[local] Arguments Ascii.eqb : simpl never.
#[local] Arguments count_ok : simpl never.

Lemma append_assoc (a b c : string) : (a ++ b) ++ c = a ++ b ++ c.
Proof. induction a as [|x a IH]; simpl; [done | by f_equal]. Qed.

Lemma append_nil_r (a : string) : a ++ "" = a.
Proof. induction a as [|x a IH]; simpl; [done | by f_equal]. Qed.

Lemma length_append (a b : string) :
  String.length (a ++ b) = (String.length a + String.length b)%nat.
Proof. induction a as [|x a IH]; simpl; [done | by f_equal]. Qed.

Lemma has_prefix_app (p s : string) : has_prefix p (p ++ s) = true.
Proof. induction p as [|x p IH]; simpl; [done | by rewrite Ascii.eqb_refl]. Qed.

Lemma drop_str_app (p s : string) : drop_str (String.length p) (p ++ s) = s.
Proof. induction p as [|x p IH]; simpl; done. Qed.

Lemma has_prefix_split (p s : string) :
  has_prefix p s = true → s = p ++ drop_str (String.length p) s.
Proof.
  revert s; induction p as [|x p IH]; intros [|y s]; simpl; try done.
  destruct (Ascii.eqb_spec x y) as [->|]; [|done].
  intros H. by rewrite <- (IH s H).
Qed.

(** * The matcher *)

Lemma match_here_lits (p : string) (re : Regexp) (s : string) :
  match_here (lits p ++ re)%list s =
  if has_prefix p s then prepend p <$> match_here re (drop_str (String.length p) s)
  else None.
Proof.
  revert s; induction p as [|x p IH]; intros s; simpl.
  - destruct (match_here re s) as [[w g r]|]; done.
  - destruct s as [|y s]; [done|].
    destruct (Ascii.eqb x y); simpl; [|done].
    rewrite IH. destruct (has_prefix p s); [|done].
    destruct (match_here re _) as [[w g r]|]; done.
Qed.

Lemma match_here_greedy (s : string) :
  match_here [Star true true] s = Some (Found (line_of s) [line_of s] (after_line s)).
Proof.
  induction s as [|c s IH]; [done|].
  simpl in *. destruct (Ascii.eqb c LF); [done|]. by rewrite IH.
Qed.

Lemma match_here_lazy (capture : bool) (c : ascii) (s : string) :
  match_here [Star false capture; Lit c] s =
  (λ '(a, b), Found (a ++ String c "") (if capture then [a] else []) b) <$> split_at c s.
Proof.
  induction s as [|c' s IH]; [done|].
  simpl in *. destruct (Ascii.eqb c c'); simpl.
  - by destruct capture.
  - destruct (Ascii.eqb c' LF); [done|]. rewrite IH.
    destruct (split_at c s) as [[a b]|]; [|done]. by destruct capture.
Qed.

Lemma lazy_match_here (p : string) (capture : bool) (c : ascii) (s : string) :
  match_here (lits p ++ [Star false capture] ++ lits (String c ""))%list s =
  if has_prefix p s then
    (λ '(a, b), Found (p ++ a ++ String c "") (if capture then [a] else []) b)
      <$> split_at c (drop_str (String.length p) s)
  else None.
Proof.
  rewrite match_here_lits. destruct (has_prefix p s); [|done].
  change ([Star false capture] ++ lits (String c ""))%list
    with [Star false capture; Lit c].
  rewrite match_here_lazy.
  by destruct (split_at c _) as [[a b]|].
Qed.

Lemma has_prefix_true (p s : string) :
  has_prefix p s = true ↔ ∃ post, s = p ++ post.
Proof.
  split.
  - intros H. eexists. by apply has_prefix_split.
  - intros [post ->]. apply has_prefix_app.
Qed.

Lemma search_None (re : Regexp) (s : string) :
  search re s = None ↔ ∀ a b, s = a ++ b → match_here re b = None.
Proof.
  induction s as [|c s IH]; simpl.
  - split.
    + intros H a b Hab. destruct a; [|done]. simpl in Hab. subst b.
      by destruct (match_here re "").
    + intros H. by rewrite (H "" "").
  - split.
    + intros H a b Hab.
      destruct (match_here re (String c s)) eqn:Hm; [done|].
      destruct a as [|c' a]; simpl in Hab.
      * by subst b.
      * inversion Hab; subst. by apply (proj1 IH H a b).
    + intros H. rewrite (H "" (String c s) eq_refl).
      apply IH. intros a b ->. by apply (H (String c a) b).
Qed.

Lemma isQuery_match_here (s : string) :
  match_here isQuery s =
  if has_prefix marker s
  then Some (prepend marker (let r := drop_str (String.length marker) s in
                             Found (line_of r) [line_of r] (after_line r)))
  else None.
Proof.
  unfold isQuery. change (lits "Got a query: query:") with (lits marker).
  rewrite match_here_lits. destruct (has_prefix marker s); [|done].
  by rewrite match_here_greedy.
Qed.

Lemma search_unfold (re : Regexp) (s : string) :
  search re s =
  match match_here re s with
  | Some f => Some f
  | None => match s with "" => None | String _ s' => search re s' end
  end.
Proof. by destruct s. Qed.

Lemma search_Some (re : Regexp) (s : string) (f : found) :
  search re s = Some f → ∃ a b, s = a ++ b ∧ match_here re b = Some f.
Proof.
  induction s as [|c s IH]; rewrite search_unfold;
    destruct (match_here re _) eqn:Hm; try done.
  - intros [= ->]. by exists "", "".
  - intros [= ->]. by exists "", (String c s).
  - intros H. destruct (IH H) as (a & b & -> & Hb). by exists (String c a), b.
Qed.

Lemma isQuery_None (line : string) :
  FindStringSubmatch isQuery line !! 1%nat = None ↔ ¬ has_marker line.
Proof.
  unfold FindStringSubmatch.
  destruct (search isQuery line) as [f|] eqn:Hs.
  - apply search_Some in Hs as (a & b & -> & Hb).
    rewrite isQuery_match_here in Hb.
    destruct (has_prefix marker b) eqn:Hp; [|done].
    injection Hb as <-. simpl. split; [done|]. intros Hn. exfalso. apply Hn.
    apply has_prefix_true in Hp as [post ->]. by exists a, post.
  - split; [|done]. intros _ (pre & post & ->).
    pose proof (proj1 (search_None _ _) Hs pre (marker ++ post) eq_refl) as H.
    rewrite isQuery_match_here, has_prefix_app in H. done.
Qed.

Lemma line_of_no_LF (s : string) : contains (line_of s) LF = false.
Proof.
  induction s as [|c s IH]; [done|]. simpl.
  destruct (Ascii.eqb c LF) eqn:E; [done|]. simpl. by rewrite E.
Qed.

Lemma isQuery_Some (line m1 : string) :
  FindStringSubmatch isQuery line !! 1%nat = Some m1 →
  has_marker line ∧ contains m1 LF = false.
Proof.
  intros H. split.
  - destruct (decide (FindStringSubmatch isQuery line !! 1%nat = None)) as [E|E];
      [congruence|].
    unfold FindStringSubmatch in H.
    destruct (search isQuery line) as [f|] eqn:Hs; [|done].
    apply search_Some in Hs as (a & b & -> & Hb).
    rewrite isQuery_match_here in Hb.
    destruct (has_prefix marker b) eqn:Hp; [|done].
    apply has_prefix_true in Hp as [post ->]. by exists a, post.
  - revert H. unfold FindStringSubmatch.
    destruct (search isQuery line) as [f|] eqn:Hs; [|done].
    apply search_Some in Hs as (a & b & -> & Hb).
    rewrite isQuery_match_here in Hb.
    destruct (has_prefix marker b); [|done]. injection Hb as <-. simpl.
    intros [= <-]. apply line_of_no_LF.
Qed.

(** * The quoted query substring *)

Lemma split_at_None (c : ascii) (s : string) :
  contains s LF = false →
  (split_at c s = None ↔ count_char c s = 0%nat).
Proof.
  induction s as [|c' s IH]; simpl; [done|].
  rewrite (Ascii.eqb_sym c c').
  destruct (Ascii.eqb c' c); [done|].
  destruct (Ascii.eqb c' LF); [done|]. intros H.
  destruct (split_at c s) as [[a b]|]; simpl.
  - split; [done|]. intros E. by apply (IH H) in E.
  - split; [|done]. intros _. by apply IH.
Qed.

Lemma queryRe_match_here (s : string) :
  match_here queryRe s =
  match s with
  | String c s' =>
    if Ascii.eqb DQUOTE c then
      (λ '(a, b), Found (String DQUOTE (a ++ String DQUOTE "")) [] b) <$> split_at DQUOTE s'
    else None
  | "" => None
  end.
Proof.
  unfold queryRe. change (lits "'"%q) with [Lit DQUOTE].
  destruct s as [|c s]; [done|].
  change (match_here ([Lit DQUOTE] ++ [Star false false] ++ [Lit DQUOTE])%list (String c s))
    with (if Ascii.eqb DQUOTE c
          then (λ f, Found (String DQUOTE (whole f)) (groups f) (rest f))
                 <$> match_here [Star false false; Lit DQUOTE] s
          else None).
  destruct (Ascii.eqb DQUOTE c); [|done].
  rewrite match_here_lazy. by destruct (split_at DQUOTE s) as [[a b]|].
Qed.

Lemma queryRe_None (m1 : string) :
  contains m1 LF = false →
  (FindStringSubmatch queryRe m1 !! 0%nat = None ↔ (count_char DQUOTE m1 < 2)%nat).
Proof.
  unfold FindStringSubmatch. induction m1 as [|c s IH]; intros HLF.
  - rewrite search_unfold, queryRe_match_here. simpl. split; [lia|done].
  - rewrite search_unfold, queryRe_match_here.
    simpl in HLF. destruct (Ascii.eqb c LF) eqn:ELF; [done|].
    simpl. rewrite (Ascii.eqb_sym DQUOTE c).
    destruct (Ascii.eqb c DQUOTE) eqn:E.
    + pose proof (split_at_None DQUOTE s HLF) as Hsp.
      destruct (split_at DQUOTE s) as [[a b]|]; simpl.
      * split; [done|]. intros Hc.
        assert (count_char DQUOTE s = 0%nat) as Hz by lia.
        by apply Hsp in Hz.
      * rewrite (proj1 Hsp eq_refl). split; [lia|]. intros _.
        apply IH; [done|]. rewrite (proj1 Hsp eq_refl). lia.
    + by apply IH.
Qed.

(** * The loops of the model end before their fuel does *)

Lemma match_here_split (re : Regexp) (s : string) (f : found) :
  match_here re s = Some f → s = whole f ++ rest f.
Proof.
  revert s f; induction re as [|[c|greedy capture] re IH]; intros s f.
  - simpl. by intros [= <-].
  - destruct s as [|c' s]; simpl; [done|].
    destruct (Ascii.eqb_spec c c') as [->|]; [|done].
    destruct (match_here re s) as [f'|] eqn:Hf; [|done].
    simpl. intros [= <-]. simpl. by rewrite <- (IH s f' Hf).
  - cbn [match_here]. revert f. induction s as [|c s IHs]; intros f.
    + destruct (match_here re "") as [f'|] eqn:Hf; destruct greedy; simpl;
        try done; intros [= <-]; apply IH in Hf;
        destruct capture; simpl; done.
    + set (star := fix star (s0 : string) : option found := _) in *.
      assert (∀ f', match_here re (String c s) = Some f' →
                    String c s = whole (open_group capture f') ++ rest (open_group capture f'))
        as Hstop.
      { intros f' Hf. apply IH in Hf. by destruct capture. }
      assert (∀ f', star s = Some f' →
                    String c s = whole (extend c capture f') ++ rest (extend c capture f'))
        as Hmore.
      { intros f' Hf. apply IHs in Hf. simpl. by rewrite <- Hf. }
      change (star (String c s)) with
        (let stop := open_group capture <$> match_here re (String c s) in
         let more := if Ascii.eqb c LF then None else extend c capture <$> star s in
         if greedy then match more with Some f => Some f | None => stop end
         else match stop with Some f => Some f | None => more end).
      cbv zeta.
      destruct (match_here re (String c s)) as [f1|] eqn:H1;
        destruct (Ascii.eqb c LF); destruct (star s) as [f2|] eqn:H2;
        destruct greedy; simpl; try done; intros [= <-];
        first [ by apply Hstop | by apply Hmore ].
Qed.

Lemma search_split (re : Regexp) (s : string) (f : found) :
  search re s = Some f → ∃ a, s = a ++ whole f ++ rest f.
Proof.
  intros (a & b & -> & Hb)%search_Some. exists a.
  by rewrite <- (match_here_split re b f Hb).
Qed.

Lemma find_all_fuel (re : Regexp) (n m : nat) (s : string) :
  (String.length s < n)%nat → (String.length s < m)%nat →
  find_all n re s = find_all m re s.
Proof.
  revert m s; induction n as [|n IH]; intros [|m] s Hn Hm; try lia.
  simpl. destruct (search re s) as [f|] eqn:Hs; [|done].
  destruct (search_split _ _ _ Hs) as [a Ha].
  assert (String.length s =
          String.length a + String.length (whole f) + String.length (rest f))%nat as Hl.
  { rewrite Ha at 1. rewrite !length_append. lia. }
  f_equal. destruct (whole f) as [|c w]; destruct (rest f) as [|c' r]; simpl in *;
    try done; apply IH; simpl; lia.
Qed.

(** [FindAllStringSubmatch] finds the same matches with any larger
    bound on the number of matches. *)
Lemma FindAllStringSubmatch_fuel (re : Regexp) (s : string) (n : nat) :
  (String.length s < n)%nat → FindAllStringSubmatch re s = find_all n re s.
Proof. intros H. apply find_all_fuel; [lia | done]. Qed.

Lemma drop_str_length (n : nat) (s : string) :
  String.length (drop_str n s) = (String.length s - n)%nat.
Proof. revert s; induction n as [|n IH]; intros [|c s]; simpl; done || lia. Qed.

Lemma DecodeRuneInString_size (c : ascii) (s : string) (r : Z) (n : nat) :
  utf8.DecodeRuneInString (String c s) = (r, n) →
  (1 ≤ n ≤ String.length (String c s))%nat.
Proof.
  unfold utf8.DecodeRuneInString.
  repeat match goal with
         | |- context [if ?b then _ else _] => destruct b
         | |- context [match ?x with "" => _ | String _ _ => _ end] => destruct x
         end;
    intros [= <- <-]; simpl; lia.
Qed.

Lemma valid_go_fuel (n m : nat) (s : string) :
  (String.length s ≤ n)%nat → (String.length s ≤ m)%nat →
  utf8.valid_go n s = utf8.valid_go m s.
Proof.
  revert m s; induction n as [|n IH]; intros m [|c s] Hn Hm;
    try (by destruct m); try (simpl in *; lia).
  destruct m as [|m]; [simpl in *; lia|].
  cbn [utf8.valid_go].
  destruct (utf8.DecodeRuneInString (String c s)) as [r k] eqn:Hd.
  apply DecodeRuneInString_size in Hd.
  destruct (_ && _); [done|].
  apply IH; rewrite drop_str_length; simpl in *; lia.
Qed.

(** [ValidString] examines the whole text. *)
Lemma ValidString_fuel (s : string) (n : nat) :
  (String.length s ≤ n)%nat → utf8.ValidString s = utf8.valid_go n s.
Proof. intros H. apply valid_go_fuel; [lia | done]. Qed.

Lemma read_hex_length (n : nat) (v : Z) (s : string) (v' : Z) (s' : string) :
  strconv.read_hex n v s = Some (v', s') → (String.length s' ≤ String.length s)%nat.
Proof.
  revert v s; induction n as [|n IH]; intros v s; simpl.
  - by intros [= _ <-].
  - destruct s as [|c s]; [done|]. destruct (strconv.unhex c); [|done].
    intros H. apply IH in H. simpl. lia.
Qed.

Lemma read_oct_length (n : nat) (v : Z) (s : string) (v' : Z) (s' : string) :
  strconv.read_oct n v s = Some (v', s') → (String.length s' ≤ String.length s)%nat.
Proof.
  revert v s; induction n as [|n IH]; intros v s; simpl.
  - by intros [= _ <-].
  - destruct s as [|c s]; [done|]. destruct (_ || _); [done|].
    intros H. apply IH in H. simpl. lia.
Qed.

Lemma UnquoteChar_shorter (s : string) (quote : ascii) (r : Z) (mb : bool) (rem : string) :
  strconv.UnquoteChar s quote = Some (r, mb, rem) →
  (String.length rem < String.length s)%nat.
Proof.
  unfold strconv.UnquoteChar. destruct s as [|c s1]; [done|].
  destruct (_ && _); [done|].
  destruct (_ <=? _).
  { destruct (utf8.DecodeRuneInString (String c s1)) as [r' k] eqn:Hd.
    apply DecodeRuneInString_size in Hd. intros [= _ _ <-].
    rewrite drop_str_length. simpl in *. lia. }
  destruct (negb _); [intros [= _ _ <-]; simpl; lia|].
  destruct s1 as [|e s2]; [done|].
  destruct e as [[] [] [] [] [] [] [] []];
    try (intros [= _ _ <-]; simpl; lia); try done; cbv beta iota;
    repeat match goal with
           | |- context [if ?b then _ else _] =>
             lazymatch b with
             | context [strconv.read_oct] => fail
             | context [strconv.read_hex] => fail
             | _ => destruct b eqn:?
             end
           end;
    try done; try (intros [= _ _ <-]; simpl; lia);
    intros H;
    first [ destruct (strconv.read_hex _ _ s2) as [[v' s3]|] eqn:Hr;
            [apply read_hex_length in Hr|done]
          | destruct (strconv.read_oct _ _ s2) as [[v' s3]|] eqn:Hr;
            [apply read_oct_length in Hr|done] ];
    repeat match type of H with
           | context [if ?b then _ else _] => destruct b
           end;
    try done; injection H as <- <- <-; simpl; lia.
Qed.

Lemma unquote_loop_fuel (n m : nat) (quote : ascii) (s : string) :
  (String.length s ≤ n)%nat → (String.length s ≤ m)%nat →
  strconv.unquote_loop n quote s = strconv.unquote_loop m quote s.
Proof.
  revert m s; induction n as [|n IH]; intros m [|c s] Hn Hm;
    try (by destruct m); try (simpl in *; lia).
  destruct m as [|m]; [simpl in *; lia|].
  cbn [strconv.unquote_loop]. destruct (Ascii.eqb c quote); [done|].
  destruct (strconv.UnquoteChar (String c s) quote) as [[[r mb] rem]|] eqn:Hu; [|done].
  apply UnquoteChar_shorter in Hu.
  destruct (Ascii.eqb c LF); [done|]. destruct (Ascii.eqb quote SQUOTE); [done|].
  rewrite (IH m rem); [done| |]; simpl in *; lia.
Qed.

(** * A carriage return at the end of a line *)

(** The text the scanner gives for a line is the line, or the line
    without the carriage return at its end. *)
Lemma dropCR_spec (line : string) :
  dropCR line = line ∨ line = dropCR line ++ String CR "".
Proof.
  induction line as [|c line IH]; [by left|].
  destruct line as [|c' line].
  - simpl. destruct (Ascii.eqb_spec c CR) as [->|]; [by right | by left].
  - change (dropCR (String c (String c' line)))
      with (String c (dropCR (String c' line))).
    destruct IH as [->|IH]; [by left|]. right.
    change (String c (dropCR (String c' line)) ++ String CR "")
      with (String c (dropCR (String c' line) ++ String CR "")).
    by rewrite <- IH.
Qed.

Lemma has_prefix_snoc (p s : string) (c : ascii) :
  contains p c = false → has_prefix p (s ++ String c "") = has_prefix p s.
Proof.
  revert s; induction p as [|a p IH]; intros s H; [done|].
  simpl in H. destruct (Ascii.eqb a c) eqn:E; [done|].
  destruct s as [|b s]; simpl.
  - by rewrite E.
  - by rewrite IH.
Qed.

Lemma drop_str_snoc (p s t : string) :
  has_prefix p s = true →
  drop_str (String.length p) (s ++ t) = drop_str (String.length p) s ++ t.
Proof.
  revert s; induction p as [|a p IH]; intros s; [done|].
  destruct s as [|b s]; simpl; [done|].
  intros [_ H]%andb_true_iff. by apply IH.
Qed.

Lemma split_at_snoc (c : ascii) (s : string) :
  c ≠ CR →
  split_at c (s ++ String CR "") =
  (λ '(a, b), (a, b ++ String CR "")) <$> split_at c s.
Proof.
  intros Hc. induction s as [|x s IH]; simpl.
  - destruct (Ascii.eqb_spec c CR); [done|]. done.
  - destruct (Ascii.eqb c x); [done|]. destruct (Ascii.eqb x LF); [done|].
    rewrite IH. by destruct (split_at c s) as [[a b]|].
Qed.

Lemma line_of_snoc (s : string) :
  line_of (s ++ String CR "") = line_of s
  ∨ line_of (s ++ String CR "") = line_of s ++ String CR "".
Proof.
  induction s as [|x s IH]; simpl; [by right|].
  destruct (Ascii.eqb x LF); [by left|].
  destruct IH as [->| ->]; [by left | by right].
Qed.

Section lazy_pattern.

Variables (p : string) (capture : bool) (c : ascii).
Hypothesis literal : p ≠ "".
Hypothesis no_cr : contains p CR = false.
Hypothesis closing : c ≠ CR.

Lemma match_here_cr (s : string) :
  match_here (lazy_pattern p capture c) (s ++ String CR "")
  = add_cr <$> match_here (lazy_pattern p capture c) s.
Proof.
  unfold lazy_pattern. rewrite !lazy_match_here, has_prefix_snoc by done.
  destruct (has_prefix p s) eqn:Hp; [|done].
  rewrite drop_str_snoc, split_at_snoc by done.
  by destruct (split_at c _) as [[a b]|].
Qed.

Lemma match_here_whole (s : string) (f : found) :
  match_here (lazy_pattern p capture c) s = Some f → whole f ≠ "".
Proof.
  unfold lazy_pattern. rewrite lazy_match_here. destruct (has_prefix p s); [|done].
  destruct (split_at c _) as [[a b]|]; [|done]. intros [= <-]. simpl.
  by destruct p.
Qed.

Lemma match_here_empty : match_here (lazy_pattern p capture c) "" = None.
Proof. unfold lazy_pattern. rewrite lazy_match_here. by destruct p. Qed.

Lemma search_cr (s : string) :
  search (lazy_pattern p capture c) (s ++ String CR "")
  = add_cr <$> search (lazy_pattern p capture c) s.
Proof.
  induction s as [|x s IH].
  - rewrite (search_unfold _ ("" ++ _)), match_here_cr, match_here_empty.
    simpl. by rewrite match_here_empty.
  - rewrite (search_unfold _ (String x s ++ _)), match_here_cr.
    rewrite (search_unfold _ (String x s)).
    destruct (match_here _ (String x s)); [done|]. exact IH.
Qed.

Lemma FindStringSubmatch_cr (s : string) :
  FindStringSubmatch (lazy_pattern p capture c) (s ++ String CR "")
  = FindStringSubmatch (lazy_pattern p capture c) s.
Proof.
  unfold FindStringSubmatch. rewrite search_cr. by destruct (search _ s).
Qed.

Lemma find_all_cr (fuel : nat) (s : string) :
  find_all fuel (lazy_pattern p capture c) (s ++ String CR "")
  = find_all fuel (lazy_pattern p capture c) s.
Proof.
  revert s; induction fuel as [|fuel IH]; intros s; [done|].
  simpl. rewrite search_cr.
  destruct (search _ s) as [f|] eqn:Hs; [|done].
  apply search_Some in Hs as (a & b & _ & Hb). apply match_here_whole in Hb.
  simpl. f_equal. destruct (whole f) as [|w0 w]; [done|]. apply IH.
Qed.

Lemma FindAllStringSubmatch_cr (s : string) :
  FindAllStringSubmatch (lazy_pattern p capture c) (s ++ String CR "")
  = FindAllStringSubmatch (lazy_pattern p capture c) s.
Proof.
  rewrite (FindAllStringSubmatch_fuel _ s (S (String.length (s ++ String CR "")))).
  - apply find_all_cr.
  - rewrite length_append. simpl. lia.
Qed.

End lazy_pattern.

Lemma isQuery_cr (s : string) :
  FindStringSubmatch isQuery (s ++ String CR "") !! 1%nat = None
  ∧ FindStringSubmatch isQuery s !! 1%nat = None
  ∨ ∃ m1, FindStringSubmatch isQuery s !! 1%nat = Some m1
          ∧ (FindStringSubmatch isQuery (s ++ String CR "") !! 1%nat = Some m1
             ∨ FindStringSubmatch isQuery (s ++ String CR "") !! 1%nat
               = Some (m1 ++ String CR "")).
Proof.
  unfold FindStringSubmatch. induction s as [|x s IH].
  - by left.
  - rewrite (search_unfold isQuery (String x s ++ _)), (search_unfold isQuery (String x s)).
    rewrite !isQuery_match_here, has_prefix_snoc by done.
    destruct (has_prefix marker (String x s)) eqn:Hp; [|exact IH].
    right. rewrite drop_str_snoc by done.
    remember (drop_str (String.length marker) (String x s)) as r eqn:Hr. clear Hr.
    exists (line_of r). split; [done|]. cbn.
    destruct (line_of_snoc r) as [-> | ->]; [by left | by right].
Qed.

(** [getReq] does not see a carriage return at the end of its line. *)
Lemma getReq_cr (s : string) : getReq (s ++ String CR "") = getReq s.
Proof.
  unfold getReq.
  destruct (isQuery_cr s) as [[-> ->]|(m1 & -> & [-> | ->])]; [done|done|].
  change queryRe with (lazy_pattern "'"%q false DQUOTE).
  change varRe with (lazy_pattern "vars:<" false ">").
  rewrite FindStringSubmatch_cr, FindAllStringSubmatch_cr by done.
  done.
Qed.

(** [getReq] extracts from the text of a line what it extracts from
    the line. *)
Lemma getReq_dropCR (line : string) : getReq (dropCR line) = getReq line.
Proof.
  destruct (dropCR_spec line) as [->|H]; [done|].
  rewrite H at 2. by rewrite getReq_cr.
Qed.

Lemma scanned_cons (line : string) (lines : list string) :
  scanned (line :: lines) =
  if too_long line then [] else dropCR line :: scanned lines.
Proof. done. Qed.

(** * Errors of the extractor *)

Lemma bind_vars_not_Err (varStr : list (list string)) (mp : gmap string string) (msg : string) :
  bind_vars varStr mp ≠ Err msg.
Proof.
  revert mp; induction varStr as [|v l IH]; intros mp; simpl; [done|].
  destruct (v !! 0%nat); [|done].
  destruct (_ !! 1%nat); [|done]. destruct (_ !! 1%nat); [|done]. apply IH.
Qed.

(** C7: [getReq] returns an error exactly when the marker phrase is
    absent, or the text after the marker has no quoted substring (fewer
    than two double quotes), or unquoting the quoted substring fails;
    and then it returns no request. *)
Theorem getReq_error_iff (line : string) :
  ((∃ msg, getReq line = Err msg) ↔
   ¬ has_marker line
   ∨ ∃ m1, FindStringSubmatch isQuery line !! 1%nat = Some m1 ∧
       ((count_char DQUOTE m1 < 2)%nat
        ∨ ∃ q, FindStringSubmatch queryRe m1 !! 0%nat = Some q
               ∧ strconv.Unquote q = None))
  ∧ ((∃ msg, getReq line = Err msg) → ∀ req, getReq line ≠ Ok req).
Proof.
  split; [|intros [msg ->]; done].
  unfold getReq.
  destruct (FindStringSubmatch isQuery line !! 1%nat) as [m1|] eqn:Hm.
  - destruct (isQuery_Some _ _ Hm) as [Hmk HLF].
    pose proof (queryRe_None m1 HLF) as Hq.
    destruct (FindStringSubmatch queryRe m1 !! 0%nat) as [q|] eqn:Hqm.
    + destruct (strconv.Unquote q) as [query|] eqn:Hu.
      * split.
        -- intros [msg H].
           destruct (bind_vars _ ∅) eqn:Hb; try done.
           by apply bind_vars_not_Err in Hb.
        -- intros [Hn | (m & [= <-] & [Hc | (q' & Hq' & Hu')])].
           ++ done.
           ++ apply Hq in Hc. done.
           ++ rewrite Hqm in Hq'. congruence.
      * split; [|by eauto]. intros _. right. exists m1. split; [done|].
        right. by exists q.
    + split; [|by eauto]. intros _. right. exists m1. split; [done|].
      left. by apply Hq.
  - split; [|by eauto]. intros _. left. by apply isQuery_None.
Qed.

(** * The comparator on texts that do not parse *)

Lemma Unmarshal_empty : Unmarshal "" = None.
Proof. reflexivity. Qed.



(** C3: when either text fails to parse the comparator answers "not
    equal"; the text [{] does not parse, so comparing it with any text
    gives "not equal". *)
Theorem areEqualJSON_parse_failure :
  (∀ s1 s2, Unmarshal s1 = None ∨ Unmarshal s2 = None → areEqualJSON s1 s2 = false)
  ∧ Unmarshal "{" = None
  ∧ (∀ s, areEqualJSON "{" s = false ∧ areEqualJSON s "{" = false).
Proof.
  assert (∀ s1 s2, Unmarshal s1 = None ∨ Unmarshal s2 = None →
                   areEqualJSON s1 s2 = false) as H.
  { intros s1 s2 [H|H]; unfold areEqualJSON; rewrite H; [done|].
    by destruct (Unmarshal s1). }
  split; [done|]. split; [reflexivity|].
  intros s. split; apply H; [left|right]; reflexivity.
Qed.

Lemma areEqualJSON_parse_failure_witness :
  areEqualJSON "{" "{'f':[{'count':3}]}"%q = false.
Proof.
  apply (proj1 areEqualJSON_parse_failure). left. reflexivity.
Defined.

(** * One query in a worker *)

Section worker_iteration.

Variable numGo : nat.
Variables dcLeft dcRight : Dgraph.


Lemma step_worker (s : system) (i : nat) :
  prod s ≠ Crashed →
  step numGo dcLeft dcRight (Worker i) s = worker_step dcLeft dcRight i s.
Proof. intros H. unfold step. by destruct (prod s). Qed.

Lemma worker_at (s : system) (i : nat) (w w' : worker) :
  workers s !! i = Some w →
  workers (set_worker i w' s) !! i = Some w'
  ∧ prod (set_worker i w' s) = prod s.
Proof.
  intros H. split; [|done]. simpl.
  apply list_lookup_insert_eq. by eapply lookup_lt_Some.
Qed.




End worker_iteration.

(** * The counters in every state of a run *)

Lemma sum_list_with_insert {A} (g : A → nat) (l : list A) (i : nat) (x y : A) :
  l !! i = Some x →
  (sum_list_with g (<[i:=y]> l) + g x = sum_list_with g l + g y)%nat.
Proof.
  revert i; induction l as [|a l IH]; intros [|i] H; simplify_eq/=; [lia|].
  specialize (IH _ H). lia.
Qed.

Lemma sum_list_with_le {A} (g h : A → nat) (l : list A) :
  (∀ x, g x ≤ h x)%nat → (sum_list_with g l ≤ sum_list_with h l)%nat.
Proof.
  intros H. induction l as [|a l IH]; simpl; [lia|]. specialize (H a). lia.
Qed.

Lemma counted_failed_le_busy (w : worker) : (counted_failed w ≤ busy w)%nat.
Proof. destruct w; simpl; try lia. destruct (areEqualJSON _ _); lia. Qed.

Lemma elem_of_insert_inv {A} (l : list A) (i : nat) (x y : A) :
  y ∈ <[i:=x]> l → y = x ∨ y ∈ l.
Proof.
  intros H. apply list_elem_of_lookup in H as [j Hj].
  apply list_lookup_insert_Some in Hj as [(-> & -> & _)|[_ Hj]]; [by left|].
  right. by eapply list_elem_of_lookup_2.
Qed.

Lemma count_ok_cons (line : string) (lines : list string) :
  count_ok (line :: lines) =
  ((if is_ok (getReq line) then 1 else 0) + count_ok lines)%nat.
Proof.
  unfold count_ok. rewrite filter_cons.
  destruct (decide _) as [E|E]; [by rewrite E|].
  by destruct (is_ok (getReq line)).
Qed.

Section invariant.

Variable numGo : nat.
Variables dcLeft dcRight : Dgraph.
Variable lines : list string.
Hypothesis lines_bound : Z.of_nat (List.length lines) < 2 ^ 64.

Lemma counters_inv_init : counters_inv numGo lines (init numGo lines).
Proof.
  exists 0%nat, 0%nat. unfold init, in_flight; simpl.
  assert (∀ g : worker → nat, g WIdle = 0%nat →
            sum_list_with g (replicate numGo WIdle) = 0%nat) as Hz.
  { intros g Hg. induction numGo as [|n IH]; simpl; [done|]. by rewrite Hg, IH. }
  rewrite !Hz by done.
  split_and!; try done; try lia.
  - by apply Forall_replicate.
  - intros Hx. apply elem_of_replicate in Hx as [? _]. done.
  - by rewrite length_replicate.
Qed.

Lemma AddUint64_small (x : nat) :
  (x < List.length lines)%nat → AddUint64 (Z.of_nat x) 1 = Z.of_nat (S x).
Proof.
  intros H. unfold AddUint64. rewrite Z.mod_small; lia.
Qed.

Lemma counters_inv_step (t : thread) (s s' : system) :
  counters_inv numGo lines s →
  step numGo dcLeft dcRight t s = Some s' →
  counters_inv numGo lines s' ∧ total s ≤ total s' ∧ failed s ≤ failed s'.
Proof.
  intros (c & f & Ht & Hf & Hfc & Hsent & Hrem & Hpend & Hwf & Hdone & Hcap & Hlen) Hstep.
  pose proof (sum_list_with_le counted_failed busy (workers s) counted_failed_le_busy) as Hcb.
  unfold step in Hstep.
  destruct s as [p q ws fl tt n]; unfold in_flight in *; simpl in *.
  destruct t as [|i].
  - (* the producer *)
    unfold producer_step in Hstep; simpl in Hstep.
    destruct p as [[|line ls]|r ls| |]; try done;
      specialize (Hpend ltac:(done)); simpl in Hpend.
    + injection Hstep as <-; simpl. split; [|lia].
      exists c, f. unfold in_flight; simpl.
      split_and!; inv_finish Hdone.
    + destruct (too_long line) eqn:Hlong.
      * injection Hstep as <-; simpl. split; [|lia].
        exists c, f. unfold in_flight; simpl in *.
        split_and!; inv_finish Hdone.
      * rewrite count_ok_cons in Hpend.
        destruct (getReq (dropCR line)) as [r|msg|msg] eqn:Hg;
          injection Hstep as <-; simpl;
          (split; [|lia]); exists c, f; unfold in_flight; simpl in *;
          split_and!; inv_finish Hdone.
    + destruct (List.length q <? capacity numGo)%nat eqn:Hlt; [|done].
      apply Nat.ltb_lt in Hlt. injection Hstep as <-; simpl. split; [|lia].
      exists c, f. unfold in_flight; simpl in *.
      rewrite length_app; simpl.
      split_and!; inv_finish Hdone.
  - (* worker [i] *)
    assert (p ≠ Crashed) as Hp by (by destruct p).
    assert (worker_step dcLeft dcRight i (mkSystem p q ws fl tt n) = Some s') as Hw
      by (by destruct p).
    specialize (Hpend Hp).
    clear Hstep. unfold worker_step in Hw; simpl in Hw.
    destruct (ws !! i) as [w|] eqn:Hi; [|done].
    pose proof (sum_list_with_insert busy ws i w) as Hb.
    pose proof (sum_list_with_insert counted_failed ws i w) as Hc.
    assert (wf_worker w) as Hwfw.
    { eapply Forall_forall; [exact Hwf|]. by eapply list_elem_of_lookup_2. }
    assert (∀ w', w' ≠ WDone → WDone ∈ <[i:=w']> ws → WDone ∈ ws) as Hmem.
    { intros w' Hw' H. apply elem_of_insert_inv in H as [H|H]; [congruence|done]. }
    destruct w as [|r|r l|r l rr|r l rr|r l rr|]; try done.
    + (* receive, or return at the end of the channel *)
      destruct q as [|r q'].
      * destruct p; try done. injection Hw as <-; simpl. split; [|lia].
        specialize (Hb WDone Hi). specialize (Hc WDone Hi).
        exists c, f. unfold in_flight, set_worker; simpl in *.
        rewrite length_insert.
        split_and!; inv_finish_at Hdone Hmem.
      * injection Hw as <-; simpl. split; [|lia].
        specialize (Hb (WLeft r) Hi). specialize (Hc (WLeft r) Hi).
        exists c, f. unfold in_flight; simpl in *. rewrite length_insert.
        split_and!; inv_finish_at Hdone Hmem.
    + injection Hw as <-; simpl. split; [|lia].
      specialize (Hb (WRight r (runQuery r dcLeft).1) Hi).
      specialize (Hc (WRight r (runQuery r dcLeft).1) Hi).
      exists c, f. unfold in_flight, set_worker; simpl in *. rewrite length_insert.
      split_and!; inv_finish_at Hdone Hmem.
    + injection Hw as <-; simpl. split; [|lia].
      specialize (Hb (WCompare r l (runQuery r dcRight).1) Hi).
      specialize (Hc (WCompare r l (runQuery r dcRight).1) Hi).
      exists c, f. unfold in_flight, set_worker; simpl in *. rewrite length_insert.
      split_and!; inv_finish_at Hdone Hmem.
    + injection Hw as <-; simpl. split; [|lia].
      destruct (areEqualJSON l rr) eqn:Heq; simpl.
      * specialize (Hb (WAddTotal r l rr) Hi).
        specialize (Hc (WAddTotal r l rr) Hi).
        exists c, f. unfold in_flight, set_worker; simpl in *.
        rewrite Heq in Hc. rewrite length_insert.
        split_and!; inv_finish_at Hdone Hmem.
      * specialize (Hb (WAddFailed r l rr) Hi).
        specialize (Hc (WAddFailed r l rr) Hi).
        exists c, f. unfold in_flight, set_worker; simpl in *. rewrite length_insert.
        split_and!; inv_finish_at Hdone Hmem.
    + (* atomic.AddUint64(&failed, 1) *)
      injection Hw as <-; simpl.
      specialize (Hb (WAddTotal r l rr) Hi).
      specialize (Hc (WAddTotal r l rr) Hi).
      simpl in Hwfw, Hb, Hc. rewrite Hwfw in Hc. unfold in_flight in *; simpl in *.
      pose proof (sum_list_with_le counted_failed busy (<[i:=WAddTotal r l rr]> ws)
                    counted_failed_le_busy) as Hcb'.
      assert (AddUint64 fl 1 = fl + 1) as Hadd.
      { rewrite Hf. replace (Z.of_nat (f + sum_list_with counted_failed ws) + 1)
          with (Z.of_nat (S (f + sum_list_with counted_failed ws))) by lia.
        apply AddUint64_small. lia. }
      rewrite Hadd. split; [|lia].
      exists c, f. unfold in_flight; simpl. rewrite length_insert.
      split_and!; inv_finish_at Hdone Hmem.
    + (* atomic.AddUint64(&total, 1) *)
      injection Hw as <-; simpl.
      specialize (Hb WIdle Hi). specialize (Hc WIdle Hi).
      simpl in Hb, Hc. unfold in_flight in *; simpl in *.
      assert (AddUint64 tt 1 = tt + 1) as Hadd.
      { rewrite Ht. replace (Z.of_nat c + 1) with (Z.of_nat (S c)) by lia.
        apply AddUint64_small. lia. }
      rewrite Hadd. split; [|lia].
      exists (S c), (f + (if areEqualJSON l rr then 0 else 1))%nat.
      unfold in_flight; simpl. rewrite length_insert.
      split_and!; inv_finish_at Hdone Hmem; destruct (areEqualJSON l rr); lia.
Qed.

End invariant.

Section run.

Variable numGo : nat.
Variables dcLeft dcRight : Dgraph.

Lemma exec_inv (lines : list string) (sched : list thread) (s s' : system) :
  Z.of_nat (List.length lines) < 2 ^ 64 →
  counters_inv numGo lines s →
  exec numGo dcLeft dcRight sched s = Some s' →
  counters_inv numGo lines s'.
Proof.
  intros Hb. revert s; induction sched as [|t sched IH]; intros s Hinv; simpl.
  - by intros [= <-].
  - destruct (step numGo dcLeft dcRight t s) as [s1|] eqn:Hs; [|done].
    apply IH. by eapply counters_inv_step.
Qed.

Lemma reachable_inv (lines : list string) (s : system) :
  Z.of_nat (List.length lines) < 2 ^ 64 →
  reachable numGo dcLeft dcRight lines s →
  counters_inv numGo lines s.
Proof.
  intros Hb [sched Hs]. eapply exec_inv; [done| |done]. apply counters_inv_init.
Qed.

Lemma finished_idle (ws : list worker) :
  forallb is_done ws = true →
  sum_list_with busy ws = 0%nat ∧ sum_list_with counted_failed ws = 0%nat
  ∧ (ws ≠ [] → WDone ∈ ws).
Proof.
  induction ws as [|w ws IH]; simpl; [done|].
  destruct w; try done. simpl. intros H. destruct (IH H) as (-> & -> & _).
  split_and!; try done. intros _. apply list_elem_of_here.
Qed.

Lemma busy_le_length (ws : list worker) :
  (sum_list_with busy ws ≤ List.length ws)%nat.
Proof. induction ws as [|w ws IH]; simpl; [lia|]. destruct w; simpl; lia. Qed.

(** In a finished run the channel is empty and every request that was
    sent is counted. *)
Lemma finished_counts (lines : list string) (s : system) :
  counters_inv numGo lines s →
  finished s = true →
  total s = Z.of_nat (sent s) ∧ 0 ≤ failed s ≤ total s
  ∧ ((0 < numGo)%nat → sent s = count_ok (scanned lines)).
Proof.
  intros (c & f & Ht & Hf & Hfc & Hsent & Hrem & Hpend & Hwf & Hdone & Hcap & Hlen) Hfin.
  unfold finished in Hfin. apply finished_idle in Hfin as (Hb & Hc & Hin).
  unfold in_flight in Hf. rewrite Hc in Hf. rewrite Hb in Hsent.
  assert (reqCh s = [] ∧ ((0 < numGo)%nat → prod s = Closed)) as [Hq Hcl].
  { destruct (workers s) as [|w ws] eqn:Hws.
    - simpl in Hlen. subst numGo. unfold capacity in Hcap. simpl in Hcap.
      split; [|lia]. destruct (reqCh s); [done|simpl in Hcap; lia].
    - destruct (Hdone (Hin ltac:(done))) as [? ?]. done. }
  rewrite Hq in Hsent. simpl in Hsent.
  split_and!; try lia.
  intros Hn. specialize (Hcl Hn). rewrite Hcl in Hpend. simpl in Hpend.
  rewrite <- Hpend by done. lia.
Qed.

(** C5 (amended): in a run over a log of fewer than [2^64] lines, with
    any number of workers and under any interleaving, when the
    coordinator returns [total] is the number of requests that were
    enqueued and [0 <= failed <= total]; during the run no step
    decreases a counter, and [failed <= total + k] in every state,
    where [k], at most the number of workers, counts the workers that
    have counted a mismatch in [failed] and not yet the query in
    [total]. *)
Theorem counters_of_run (lines : list string) (s : system) :
  Z.of_nat (List.length lines) < 2 ^ 64 →
  reachable numGo dcLeft dcRight lines s →
  (finished s = true → total s = Z.of_nat (sent s) ∧ 0 ≤ failed s ≤ total s)
  ∧ (0 ≤ failed s ≤ total s + Z.of_nat (in_flight s) ∧ (in_flight s ≤ numGo)%nat)
  ∧ (∀ t s', step numGo dcLeft dcRight t s = Some s' →
             total s ≤ total s' ∧ failed s ≤ failed s').
Proof.
  intros Hb Hr. pose proof (reachable_inv _ _ Hb Hr) as Hinv.
  split_and!.
  - intros Hfin. destruct (finished_counts _ _ Hinv Hfin) as (? & ? & _). done.
  - destruct Hinv as (c & f & Ht & Hf & Hfc & _). lia.
  - destruct Hinv as (c & f & Ht & Hf & Hfc & _). lia.
  - destruct Hinv as (c & f & _ & _ & _ & _ & _ & _ & _ & _ & _ & Hlen).
    pose proof (sum_list_with_le counted_failed busy (workers s) counted_failed_le_busy).
    pose proof (busy_le_length (workers s)). unfold in_flight. lia.
  - intros t s' Hs. by destruct (counters_inv_step numGo dcLeft dcRight lines Hb t s s' Hinv Hs).
Qed.


End run.

(** * Repeated bindings *)

Lemma bind_vars_last (varStr : list (list string)) (mp : gmap string string) :
  Forall (λ v, is_Some (binding_of v)) varStr →
  ∃ mp', bind_vars varStr mp = Ok mp'
         ∧ ∀ k, mp' !! k =
                match last_binding k (omap binding_of varStr) with
                | Some x => Some x
                | None => mp !! k
                end.
Proof.
  revert mp; induction varStr as [|v l IH]; intros mp Hwf.
  - by exists mp.
  - apply Forall_cons in Hwf as [[[k0 x0] Hv] Hl].
    simpl. rewrite Hv. simpl. unfold binding_of in Hv.
    destruct (v !! 0%nat) as [v0|]; [|done].
    destruct (FindStringSubmatch keyRe v0 !! 1%nat) as [k1|]; [|done].
    destruct (FindStringSubmatch valRe v0 !! 1%nat) as [x1|]; [|done].
    injection Hv as -> ->.
    destruct (IH (<[k0:=x0]> mp) Hl) as (mp' & -> & Hmp'). exists mp'.
    split; [done|]. intros k. rewrite Hmp'.
    change (list_omap _ _ binding_of l) with (omap binding_of l).
    destruct (last_binding k (omap binding_of l)); [done|].
    destruct (String.eqb_spec k k0) as [->|Hne].
    + by rewrite lookup_insert_eq.
    + by rewrite lookup_insert_ne.
Qed.

(** C10: on a line with the marker phrase, a quoted query that unquotes
    and fragments that all have a key and a value, [getReq] succeeds
    and maps every key to the value of the last fragment with that key:
    a later binding of a key silently replaces an earlier one. *)
Theorem getReq_last_binding_wins (line m1 q query : string) :
  FindStringSubmatch isQuery line !! 1%nat = Some m1 →
  FindStringSubmatch queryRe m1 !! 0%nat = Some q →
  strconv.Unquote q = Some query →
  Forall (λ v, is_Some (binding_of v)) (FindAllStringSubmatch varRe m1) →
  ∃ req, getReq line = Ok req ∧ Query req = query
         ∧ ∀ k, Vars req !! k =
                last_binding k (omap binding_of (FindAllStringSubmatch varRe m1)).
Proof.
  intros Hm Hq Hu Hwf. unfold getReq. rewrite Hm, Hq, Hu.
  destruct (bind_vars_last _ ∅ Hwf) as (mp & -> & Hmp).
  eexists. split; [reflexivity|]. split; [reflexivity|]. intros k. simpl. rewrite Hmp.
  by destruct (last_binding k _).
Qed.

Lemma getReq_last_binding_wins_witness :
  ∃ req,
    getReq "Got a query: query:{query:'q' vars:<key:'$a' value:'1'> vars:<key:'$b' value:'7'> vars:<key:'$a' value:'2'>}"%q
    = Ok req
    ∧ Vars req !! "$a" = Some "2".
Proof.
  destruct (getReq_last_binding_wins
    "Got a query: query:{query:'q' vars:<key:'$a' value:'1'> vars:<key:'$b' value:'7'> vars:<key:'$a' value:'2'>}"%q
    "{query:'q' vars:<key:'$a' value:'1'> vars:<key:'$b' value:'7'> vars:<key:'$a' value:'2'>}"%q
    "'q'"%q "q") as (req & Hreq & _ & Hvars).
  - reflexivity.
  - reflexivity.
  - reflexivity.
  - vm_compute. repeat constructor; eexists; reflexivity.
  - exists req. split; [exact Hreq|]. rewrite Hvars. reflexivity.
Defined.

(** C10 fails as stated: a line with two well-formed fragments of the
    key [$a] on which [getReq] does not succeed.  Without the marker
    phrase in front of them [getReq] returns an error; and after the
    marker phrase and a quoted query, a further fragment without a
    value portion makes it panic. *)
Lemma getReq_last_binding_wins_counterexample :
  omap binding_of
    (FindAllStringSubmatch varRe "vars:<key:'$a' value:'1'> vars:<key:'$a' value:'2'>"%q)
  = [("$a", "1"); ("$a", "2")]
  ∧ getReq "vars:<key:'$a' value:'1'> vars:<key:'$a' value:'2'>"%q
    = Err "Not a valid query found in the string"
  ∧ binding_of <$>
      FindAllStringSubmatch varRe
        "{query:'q' vars:<key:'$a' value:'1'> vars:<key:'$a' value:'2'> vars:<key:'$b'>}"%q
    = [Some ("$a", "1"); Some ("$a", "2"); None]
  ∧ getReq "Got a query: query:{query:'q' vars:<key:'$a' value:'1'> vars:<key:'$a' value:'2'> vars:<key:'$b'>}"%q
    = Panic "index out of range [1] with length 0".
Proof. repeat split; reflexivity. Qed.

(** * A fragment without a key or without a value *)

(** C8: on a line whose fragment lacks its value portion, and on a line
    whose fragment lacks its key portion, [getReq] neither skips the
    fragment nor returns an error: indexing the empty submatch
    panics. *)
Theorem getReq_panics_on_partial_fragment :
  getReq "Got a query: query:{query:'q' vars:<key:'$a'>}"%q
  = Panic "index out of range [1] with length 0"
  ∧ getReq "Got a query: query:{query:'q' vars:<value:'1'>}"%q
    = Panic "index out of range [1] with length 0".
Proof. split; reflexivity. Qed.

(** * Decoded values *)

Lemma value_ind' (P : value → Prop) :
  P VNil → (∀ b, P (VBool b)) → (∀ f, P (VFloat64 f)) → (∀ s, P (VString s)) →
  (∀ l, Forall P l → P (VSlice l)) →
  (∀ m, Forall (λ p, P p.2) m → P (VMap m)) →
  ∀ v, P v.
Proof.
  intros Hnil Hbool Hfloat Hstr Hslice Hmap.
  fix IH 1. intros [ | b | f | s | l | m ].
  - exact Hnil.
  - apply Hbool.
  - apply Hfloat.
  - apply Hstr.
  - apply Hslice. induction l as [|v l IHl]; constructor; [apply IH | exact IHl].
  - apply Hmap. induction m as [|[k v] m IHm]; constructor; [apply IH | exact IHm].
Qed.

Lemma map_get_Some {A} (k : string) (x : A) (m : list (string * A)) :
  map_get k m = Some x → (k, x) ∈ m.
Proof.
  induction m as [|[k' y] m IH]; simpl; [done|].
  destruct (String.eqb_spec k k') as [->|Hne].
  - intros [= ->]. apply list_elem_of_here.
  - intros H. apply list_elem_of_further. by apply IH.
Qed.

Lemma map_get_elem {A} (k : string) (x : A) (m : list (string * A)) :
  NoDup m.*1 → (k, x) ∈ m → map_get k m = Some x.
Proof.
  induction m as [|[k' y] m IH]; simpl; intros Hnd Hin.
  - by apply elem_of_nil in Hin.
  - apply NoDup_cons in Hnd as [Hk' Hnd]. apply elem_of_cons in Hin as [[= -> ->]|Hin].
    + by rewrite String.eqb_refl.
    + destruct (String.eqb_spec k k') as [->|Hne]; [|by apply IH].
      exfalso. apply Hk'. apply list_elem_of_fmap. by exists (k', x).
Qed.

Lemma map_set_keys {A} (k : string) (x : A) (m : list (string * A)) :
  (map_set k x m).*1 = if decide (k ∈ m.*1) then m.*1 else (m.*1 ++ [k])%list.
Proof.
  induction m as [|[k' y] m IH].
  - destruct (decide (k ∈ ([] : list (string * A)).*1)) as [H|H]; [|done].
    by apply elem_of_nil in H.
  - cbn [map_set]. destruct (String.eqb_spec k k') as [->|Hne].
    + rewrite !fmap_cons. cbn [fst].
      destruct (decide (k' ∈ k' :: m.*1)) as [H|H]; [done|].
      exfalso. apply H. apply list_elem_of_here.
    + rewrite !fmap_cons, IH. cbn [fst].
      destruct (decide (k ∈ m.*1)) as [Hin|Hin];
        destruct (decide (k ∈ k' :: m.*1)) as [Hin'|Hin']; try done.
      * exfalso. apply Hin'. by apply list_elem_of_further.
      * apply elem_of_cons in Hin' as [?|?]; done.
Qed.

Lemma map_set_NoDup {A} (k : string) (x : A) (m : list (string * A)) :
  NoDup m.*1 → NoDup (map_set k x m).*1.
Proof.
  intros H. rewrite map_set_keys. destruct (decide _) as [Hin|Hin]; [done|].
  apply NoDup_app. split_and!; [done| |apply NoDup_singleton].
  intros y Hy ->%list_elem_of_singleton. done.
Qed.

Lemma map_set_Forall {A} (P : string * A → Prop) (k : string) (x : A)
    (m : list (string * A)) :
  Forall P m → P (k, x) → Forall P (map_set k x m).
Proof.
  intros Hm Hx. induction Hm as [|[k' y] m Hy Hm IH]; simpl.
  - by constructor.
  - destruct (String.eqb k k'); constructor; done.
Qed.

Lemma complete_wf (v : value) (stk : list frame) :
  unique_keys v → Forall wf_frame stk → wf_state (complete v stk).
Proof.
  intros Hv Hstk. destruct stk as [|[acc|m k] stk]; simpl; [done| |];
    apply Forall_cons in Hstk as [Hfr Hstk]; simpl in Hfr.
  - split; [|done]. apply Forall_app. split; [done|]. by constructor.
  - split; [|done]. inversion Hfr as [| | | | |m' Hnd Hall]; subst.
    constructor; [by apply map_set_NoDup | by apply map_set_Forall].
Qed.

Lemma begin_value_wf (t : token) (stk : list frame) (st : state) :
  Forall wf_frame stk → begin_value t stk = Some st → wf_state st.
Proof.
  intros Hstk. destruct t; simpl; try done;
    try (intros [= <-]; apply complete_wf; [constructor | done]).
  - destruct (_ <? _); [|done]. by intros [= <-].
  - destruct (_ <? _); [|done]. by intros [= <-].
  - destruct (ParseFloat lit); [|done]. simpl. intros [= <-].
    apply complete_wf; [constructor | done].
Qed.

Lemma feed_wf (st st' : state) (t : token) :
  wf_state st → feed st t = Some st' → wf_state st'.
Proof.
  destruct st as [stk|stk|acc stk|stk|m stk|m k stk|m stk|v]; simpl; intros Hst.
  - apply begin_value_wf. done.
  - destruct t; try (apply begin_value_wf; constructor; [by constructor | done]).
    intros [= <-]. apply complete_wf; [by repeat constructor | done].
  - destruct Hst as [Hacc Hstk]. destruct t; try done; intros [= <-].
    + apply complete_wf; [by constructor | done].
    + simpl. by constructor.
  - destruct t; try done; intros [= <-].
    + apply complete_wf; [|done]. constructor; [apply NoDup_nil_2 | constructor].
    + simpl. split; [|done]. constructor; [apply NoDup_nil_2 | constructor].
  - destruct t; try done; by intros [= <-].
  - destruct Hst as [Hm Hstk]. destruct t; try done; intros [= <-].
    simpl. by constructor.
  - destruct Hst as [Hm Hstk]. destruct t; try done; intros [= <-]; [|done].
    by apply complete_wf.
  - done.
Qed.

Lemma run_wf (ts : list token) (st st' : state) :
  wf_state st → run st ts = Some st' → wf_state st'.
Proof.
  revert st; induction ts as [|t ts IH]; intros st Hst; simpl.
  - by intros [= <-].
  - destruct (feed st t) as [st1|] eqn:Hf; [|done].
    apply IH. by eapply feed_wf.
Qed.

(** Every object of a decoded value has one member per key. *)
Lemma Unmarshal_unique_keys (s : string) (v : value) :
  Unmarshal s = Some v → unique_keys v.
Proof.
  unfold Unmarshal. destruct (tokens 0 s) as [ts|]; [|done].
  destruct (run (PValue []) ts) as [st|] eqn:Hr; [|done].
  destruct st; try done. intros [= <-].
  apply (run_wf ts (PValue []) (PEnd v0)); [constructor | done].
Qed.

(** * [DeepEqual] and the contract of the comparator *)

Lemma DeepEqual_slice (l1 l2 : list value) :
  DeepEqual (VSlice l1) (VSlice l2) = true ↔
  Forall2 (λ a b, DeepEqual a b = true) l1 l2.
Proof.
  simpl. revert l2; induction l1 as [|a l1 IH]; intros [|b l2]; simpl.
  - split; [constructor|done].
  - split; [done|]. intros H. inversion H.
  - split; [done|]. intros H. inversion H.
  - rewrite andb_true_iff, IH. split.
    + intros [? ?]. by constructor.
    + intros H. inversion H; subst. done.
Qed.

Lemma DeepEqual_map (m1 m2 : list (string * value)) :
  DeepEqual (VMap m1) (VMap m2) = true ↔
  List.length m1 = List.length m2
  ∧ Forall (λ p, ∃ b, map_get p.1 m2 = Some b ∧ DeepEqual p.2 b = true) m1.
Proof.
  simpl. rewrite andb_true_iff, Nat.eqb_eq.
  apply and_iff_compat_l.
  induction m1 as [|[k a] m1 IH]; simpl.
  - split; [constructor|done].
  - rewrite andb_true_iff, IH. split.
    + intros [Ha Hm]. constructor; [|done]. simpl.
      destruct (map_get k m2) as [b|]; [|done]. by exists b.
    + intros H. inversion H as [|? ? (b & Hb & Hab) Hm]; subst. simpl in *.
      rewrite Hb. done.
Qed.

Lemma unique_keys_slice (l : list value) :
  unique_keys (VSlice l) → Forall unique_keys l.
Proof. intros H. by inversion H. Qed.

Lemma unique_keys_map (m : list (string * value)) :
  unique_keys (VMap m) → NoDup m.*1 ∧ Forall (λ p, unique_keys p.2) m.
Proof. intros H. by inversion H. Qed.

(** The members of [m2] that [DeepEqual] pairs with the members of
    [m1], in the order of [m1]. *)
Lemma paired_members (R : value → value → Prop) (m1 m2 : list (string * value)) :
  Forall (λ p, ∃ b, map_get p.1 m2 = Some b ∧ R p.2 b) m1 →
  ∃ m2', Forall2 (λ p1 p2, p1.1 = p2.1 ∧ R p1.2 p2.2) m1 m2'
         ∧ Forall (λ p, p ∈ m2) m2'.
Proof.
  induction 1 as [|[k a] m1 (b & Hb & Hab) Hm1 (m2' & HF & Hin)].
  - exists []. split; constructor.
  - exists ((k, b) :: m2'). split; constructor; try done.
    by apply map_get_Some.
Qed.

Lemma Forall2_keys (R : value → value → Prop) (m1 m2 : list (string * value)) :
  Forall2 (λ p1 p2, p1.1 = p2.1 ∧ R p1.2 p2.2) m1 m2 → m1.*1 = m2.*1.
Proof.
  induction 1 as [|[k a] [k' b] m1 m2 [Hk _] _ IH]; [done|].
  rewrite !fmap_cons. simpl in *. congruence.
Qed.

Lemma Forall2_exists_r {A B} (R : A → B → Prop) (l1 : list A) (l2 : list B) :
  Forall2 R l1 l2 → Forall (λ x, ∃ y, y ∈ l2 ∧ R x y) l1.
Proof.
  induction 1 as [|x y l1 l2 Hxy _ IH]; constructor.
  - exists y. split; [apply list_elem_of_here | done].
  - eapply Forall_impl; [exact IH|]. intros x' (y' & Hy' & HR).
    exists y'. split; [by apply list_elem_of_further | done].
Qed.

Lemma DeepEqual_same_value (v1 : value) :
  ∀ v2, unique_keys v1 → unique_keys v2 →
        (DeepEqual v1 v2 = true ↔ same_value v1 v2).
Proof.
  induction v1 as [ | a | f | s | l1 IH | m1 IH ] using value_ind';
    intros v2 Hu1 Hu2.
  - destruct v2; simpl; split; try done; try constructor; intros H; inversion H.
  - destruct v2 as [ | b | | | | ]; simpl; split; try done;
      try (intros H; inversion H; fail).
    + intros ->%Bool.eqb_prop. constructor.
    + intros H. inversion H; subst. apply Bool.eqb_reflx.
  - destruct v2 as [ | | g | | | ]; simpl; split; try done;
      try (intros H; inversion H; fail).
    + by constructor.
    + intros H. by inversion H.
  - destruct v2 as [ | | | t | | ]; simpl; split; try done;
      try (intros H; inversion H; fail).
    + intros ->%String.eqb_eq. constructor.
    + intros H. inversion H; subst. apply String.eqb_refl.
  - destruct v2 as [ | | | | l2 | ];
      try (split; [done | intros H; inversion H]).
    rewrite DeepEqual_slice.
    apply unique_keys_slice in Hu1, Hu2.
    assert (Forall2 (λ a b, DeepEqual a b = true) l1 l2 ↔ Forall2 same_value l1 l2)
      as Hiff.
    { clear -IH Hu1 Hu2. revert l2 Hu2.
      induction l1 as [|a l1 IHl]; intros l2 Hu2.
      - split; intros H; inversion H; constructor.
      - apply Forall_cons in IH as [Ha IH]. apply Forall_cons in Hu1 as [Hua Hu1].
        split; intros H; inversion H as [|? b ? l2' Hab Hl]; subst;
          apply Forall_cons in Hu2 as [Hub Hu2]; constructor;
          try (by apply (Ha b)); by apply (IHl IH Hu1 l2'). }
    rewrite Hiff. split; [by constructor|]. intros H. by inversion H.
  - destruct v2 as [ | | | | | m2 ];
      try (split; [done | intros H; inversion H]).
    rewrite DeepEqual_map.
    apply unique_keys_map in Hu1 as [Hnd1 Hu1], Hu2 as [Hnd2 Hu2].
    split.
    + intros [Hlen Hall].
      assert (Forall (λ p, ∃ b, map_get p.1 m2 = Some b ∧ same_value p.2 b) m1) as Hall'.
      { clear -IH Hu1 Hu2 Hall. induction m1 as [|[k a] m1 IHm]; [constructor|].
        apply Forall_cons in IH as [Ha IH]. apply Forall_cons in Hu1 as [Hua Hu1].
        apply Forall_cons in Hall as [(b & Hb & Hab) Hall].
        constructor; [|by apply IHm]. exists b. split; [done|].
        simpl in *. apply Ha; try done.
        apply map_get_Some in Hb.
        by apply (proj1 (Forall_forall _ _) Hu2 (k, b)). }
      destruct (paired_members _ _ _ Hall') as (m2' & HF & Hin).
      apply (same_object m1 m2 m2'); [|done].
      symmetry. apply submseteq_length_Permutation.
      * apply NoDup_submseteq.
        -- apply (NoDup_fmap_1 fst). rewrite <- (Forall2_keys _ _ _ HF). done.
        -- intros p Hp. by apply (proj1 (Forall_forall _ _) Hin).
      * rewrite <- (Forall2_length _ _ _ HF). lia.
    + intros H. inversion H as [| | | | |? ? m2' Hperm HF]; subst.
      split.
      * rewrite (Forall2_length _ _ _ HF). by rewrite Hperm.
      * apply Forall2_exists_r in HF.
        apply Forall_forall. intros [k a] Hin1.
        destruct (proj1 (Forall_forall _ _) HF _ Hin1) as ([k' b] & Hin2 & Hk & Hab).
        simpl in *. subst k'. rewrite <- Hperm in Hin2.
        exists b. split; [by apply map_get_elem|].
        apply (proj1 (Forall_forall _ _) IH _ Hin1); simpl; try done.
        -- by apply (proj1 (Forall_forall _ _) Hu1 (k, a)).
        -- by apply (proj1 (Forall_forall _ _) Hu2 (k, b)).
Qed.


(** C2: on two texts that both parse, the comparator answers "equal"
    exactly when the decoded values are deeply equal: the same scalars,
    arrays equal element by element in order, objects with the same
    members in any order.  So [{"a":1,"b":2}] equals [{"b":2,"a":1}]
    and [[1,2]] does not equal [[2,1]]. *)
Theorem areEqualJSON_same_value :
  (∀ s1 s2 v1 v2,
     Unmarshal s1 = Some v1 → Unmarshal s2 = Some v2 →
     (areEqualJSON s1 s2 = true ↔ same_value v1 v2))
  ∧ areEqualJSON "{'a':1,'b':2}"%q "{'b':2,'a':1}"%q = true
  ∧ areEqualJSON "[1,2]" "[2,1]" = false.
Proof.
  split; [|split; reflexivity].
  intros s1 s2 v1 v2 H1 H2. unfold areEqualJSON. rewrite H1, H2.
  apply DeepEqual_same_value; by eapply Unmarshal_unique_keys.
Qed.

Lemma areEqualJSON_same_value_witness :
  same_value
    (VMap [("a", VFloat64 (S754_finite false 4503599627370496 (-52)));
           ("b", VFloat64 (S754_finite false 4503599627370496 (-51)))])
    (VMap [("b", VFloat64 (S754_finite false 4503599627370496 (-51)));
           ("a", VFloat64 (S754_finite false 4503599627370496 (-52)))]).
Proof.
  refine (proj1 (proj1 areEqualJSON_same_value
                   "{'a':1,'b':2}"%q "{'b':2,'a':1}"%q _ _ _ _) _);
    reflexivity.
Defined.

(** * Extraction from a line in the assumed shape *)

Lemma contains_app (a b : string) (c : ascii) :
  contains (a ++ b) c = contains a c || contains b c.
Proof.
  induction a as [|x a IH]; simpl; [done|]. by destruct (Ascii.eqb x c).
Qed.

Lemma contains_cons (x : ascii) (a : string) (c : ascii) :
  contains (String x a) c = Ascii.eqb x c || contains a c.
Proof. simpl. by destruct (Ascii.eqb x c). Qed.

Lemma line_of_id (s : string) : contains s LF = false → line_of s = s.
Proof.
  induction s as [|c s IH]; simpl; [done|].
  destruct (Ascii.eqb c LF); [done|]. intros H. by rewrite IH.
Qed.

Lemma split_at_app (c : ascii) (a b : string) :
  contains a c = false → contains a LF = false →
  split_at c (a ++ String c b) = Some (a, b).
Proof.
  induction a as [|x a IH]; simpl.
  - by rewrite Ascii.eqb_refl.
  - rewrite (Ascii.eqb_sym c x).
    destruct (Ascii.eqb x c); [done|]. destruct (Ascii.eqb x LF); [done|].
    intros H1 H2. by rewrite IH.
Qed.

Lemma escape_plain (s : string) :
  contains s DQUOTE = false → contains s BSLASH = false → contains s LF = false →
  escape_text s = s.
Proof.
  induction s as [|c s IH]; simpl; [done|].
  destruct (Ascii.eqb c DQUOTE); [done|]. destruct (Ascii.eqb c BSLASH); [done|].
  destruct (Ascii.eqb c LF); [done|]. intros H1 H2 H3. simpl. by rewrite IH.
Qed.

Lemma search_skip (re : Regexp) (p s : string) :
  (∀ a b, p = a ++ b → b ≠ "" → match_here re (b ++ s) = None) →
  search re (p ++ s) = search re s.
Proof.
  induction p as [|c p IH]; intros H; [done|].
  change (String c p ++ s) with (String c (p ++ s)). rewrite search_unfold.
  pose proof (H "" (String c p) eq_refl ltac:(done)) as H0.
  change (String c p ++ s) with (String c (p ++ s)) in H0.
  rewrite H0. apply IH. intros a b -> Hb. by apply (H (String c a) b).
Qed.

Lemma find_all_ext (fuel : nat) (re : Regexp) (s s' : string) :
  search re s = search re s' → find_all fuel re s = find_all fuel re s'.
Proof. intros H. destruct fuel; simpl; [done|]. by rewrite H. Qed.

Lemma has_prefix_cons (a : ascii) (p : string) (c : ascii) (s : string) :
  has_prefix (String a p) (String c s) = Ascii.eqb a c && has_prefix p s.
Proof. done. Qed.

Lemma search_cons_skip (p : string) (capture : bool) (c x : ascii) (s : string) :
  has_prefix p (String x s) = false →
  search (lits p ++ [Star false capture] ++ lits (String c ""))%list (String x s) =
  search (lits p ++ [Star false capture] ++ lits (String c ""))%list s.
Proof. intros H. by rewrite search_unfold, lazy_match_here, H. Qed.

Lemma search_here (p : string) (capture : bool) (c : ascii) (a b : string) :
  contains a c = false → contains a LF = false →
  search (lits p ++ [Star false capture] ++ lits (String c ""))%list
         (p ++ a ++ String c b) =
  Some (Found (p ++ a ++ String c "") (if capture then [a] else []) b).
Proof.
  intros H1 H2. rewrite search_unfold, lazy_match_here, has_prefix_app, drop_str_app.
  by rewrite split_at_app.
Qed.

(** ** A rune that is decoded is encoded to the bytes it was decoded from *)

Lemma byte_val_range (c : ascii) : 0 ≤ byte_val c < 256.
Proof.
  unfold byte_val. pose proof (N_ascii_bounded c). lia.
Qed.

Lemma byte_chr_val (c : ascii) : byte_chr (byte_val c) = c.
Proof.
  unfold byte_chr, byte_val. pose proof (N_ascii_bounded c).
  rewrite Z.mod_small by lia. rewrite N2Z.id. apply ascii_N_embedding.
Qed.

(** Bit operations on fields that do not overlap are arithmetic. *)
Lemma small_bits (b n i : Z) : 0 ≤ b < 2 ^ n → n ≤ i → Z.testbit b i = false.
Proof.
  intros Hb Hi. destruct (Z.eq_dec b 0) as [->|Hne]; [apply Z.bits_0|].
  apply Z.bits_above_log2; [lia|].
  assert (0 ≤ n).
  { destruct (Z.lt_ge_cases n 0) as [Hn|Hn]; [|done].
    rewrite Z.pow_neg_r in Hb by done. lia. }
  assert (Z.log2 b < n); [|lia].
  apply Z.log2_lt_pow2; lia.
Qed.

Lemma lor_shiftl (a b n : Z) :
  0 ≤ b < 2 ^ n → Z.lor (Z.shiftl a n) b = a * 2 ^ n + b.
Proof.
  intros Hb.
  assert (0 ≤ n).
  { destruct (Z.lt_ge_cases n 0) as [Hn|Hn]; [|done].
    rewrite Z.pow_neg_r in Hb by done. lia. }
  assert (Z.land (Z.shiftl a n) b = 0) as Hland.
  { apply Z.bits_inj'. intros i Hi. rewrite Z.land_spec, Z.bits_0.
    destruct (Z.lt_ge_cases i n) as [Hlt|Hge].
    - by rewrite Z.shiftl_spec_low.
    - by rewrite (small_bits b n i), andb_false_r. }
  pose proof (Z.add_lor_land (Z.shiftl a n) b) as H1.
  rewrite Hland in H1. rewrite Z.shiftl_mul_pow2 in * by done. lia.
Qed.

Lemma lor_high (h n x : Z) :
  0 ≤ x < 2 ^ n → Z.lor (h * 2 ^ n) x = h * 2 ^ n + x.
Proof.
  intros Hx.
  assert (0 ≤ n).
  { destruct (Z.lt_ge_cases n 0) as [Hn|Hn]; [|done].
    rewrite Z.pow_neg_r in Hx by done. lia. }
  rewrite <- (lor_shiftl h x n Hx). by rewrite Z.shiftl_mul_pow2.
Qed.

Lemma land_low (b n : Z) : 0 ≤ n → Z.land b (2 ^ n - 1) = b mod 2 ^ n.
Proof.
  intros Hn. rewrite <- Z.land_ones by done. f_equal.
  rewrite Z.ones_equiv. lia.
Qed.

Lemma between_true (lo hi x : Z) : utf8.between lo hi x = true ↔ lo ≤ x ≤ hi.
Proof. unfold utf8.between. rewrite andb_true_iff, !Z.leb_le. done. Qed.

Lemma cont_eq (c : ascii) :
  128 ≤ byte_val c ≤ 191 → utf8.cont c = byte_val c - 128 ∧ 0 ≤ utf8.cont c < 64.
Proof.
  intros H. unfold utf8.cont. rewrite (land_low _ 6) by done.
  change (2 ^ 6) with 64. Z.div_mod_to_equations. lia.
Qed.

Lemma ValidRune_true (r : Z) :
  0 ≤ r ≤ 55295 ∨ 57344 ≤ r ≤ 1114111 → utf8.ValidRune r = true.
Proof.
  intros H. unfold utf8.ValidRune, utf8.between, utf8.MaxRune.
  apply orb_true_iff. rewrite !andb_true_iff, !Z.leb_le. lia.
Qed.

(** The rune of a two-byte, a three-byte and a four-byte encoding is
    encoded to the same bytes. *)
Lemma encode2 (c0 c1 : ascii) :
  194 ≤ byte_val c0 ≤ 223 → 128 ≤ byte_val c1 ≤ 191 →
  let r := Z.lor (Z.shiftl (Z.land (byte_val c0) 31) 6) (utf8.cont c1) in
  128 ≤ r ∧ utf8.EncodeRune r = String c0 (String c1 "").
Proof.
  intros H0 H1 r.
  destruct (cont_eq c1 H1) as [E1 R1].
  assert (r = (byte_val c0 - 192) * 64 + (byte_val c1 - 128)) as Hr.
  { unfold r. rewrite lor_shiftl by (change (2 ^ 6) with 64; lia).
    rewrite (land_low _ 5), E1 by done. change (2 ^ 5) with 32. change (2 ^ 6) with 64.
    Z.div_mod_to_equations. lia. }
  clearbody r. split; [lia|].
  unfold utf8.EncodeRune. rewrite ValidRune_true by lia.
  destruct (Z.leb_spec r 127); [lia|]. destruct (Z.leb_spec r 2047); [|lia].
  rewrite <- (byte_chr_val c0), <- (byte_chr_val c1) at 1.
  rewrite (land_low _ 6), Z.shiftr_div_pow2 by done.
  change (2 ^ 6) with 64.
  change 192 with (3 * 2 ^ 6). change 128 with (2 * 2 ^ 6) at 1.
  rewrite !lor_high by (change (2 ^ 6) with 64; Z.div_mod_to_equations; lia).
  change (2 ^ 6) with 64.
  repeat f_equal; Z.div_mod_to_equations; lia.
Qed.

Lemma encode3 (c0 c1 c2 : ascii) :
  224 ≤ byte_val c0 ≤ 239 →
  (if byte_val c0 =? 224 then 160 else 128) ≤ byte_val c1
    ≤ (if byte_val c0 =? 237 then 159 else 191) →
  128 ≤ byte_val c2 ≤ 191 →
  let r := Z.lor (Z.lor (Z.shiftl (Z.land (byte_val c0) 15) 12)
                        (Z.shiftl (utf8.cont c1) 6)) (utf8.cont c2) in
  128 ≤ r ∧ utf8.EncodeRune r = String c0 (String c1 (String c2 "")).
Proof.
  intros H0 H1 H2 r.
  assert (128 ≤ byte_val c1 ≤ 191) as H1'.
  { destruct (byte_val c0 =? 224), (byte_val c0 =? 237); lia. }
  destruct (cont_eq c1 H1') as [E1 R1]. destruct (cont_eq c2 H2) as [E2 R2].
  assert (r = (byte_val c0 - 224) * 4096 + (byte_val c1 - 128) * 64
              + (byte_val c2 - 128)) as Hr.
  { unfold r. rewrite (Z.shiftl_mul_pow2 (utf8.cont c1)) by done.
    rewrite lor_shiftl by (change (2 ^ 12) with 4096; change (2 ^ 6) with 64; lia).
    change (2 ^ 12) with (2 ^ 6 * 2 ^ 6).
    rewrite Z.mul_assoc, <- Z.mul_add_distr_r.
    rewrite lor_high by (change (2 ^ 6) with 64; lia).
    rewrite (land_low _ 4), E1, E2 by done. change (2 ^ 4) with 16. change (2 ^ 6) with 64.
    Z.div_mod_to_equations. lia. }
  clearbody r.
  assert (2048 ≤ r ≤ 55295 ∨ 57344 ≤ r ≤ 65535) as Hrange.
  { destruct (Z.eqb_spec (byte_val c0) 224), (Z.eqb_spec (byte_val c0) 237); lia. }
  split; [lia|].
  unfold utf8.EncodeRune. rewrite ValidRune_true by lia.
  destruct (Z.leb_spec r 127); [lia|]. destruct (Z.leb_spec r 2047); [lia|].
  destruct (Z.leb_spec r 65535); [|lia].
  rewrite <- (byte_chr_val c0), <- (byte_chr_val c1), <- (byte_chr_val c2) at 1.
  rewrite !(land_low _ 6), !Z.shiftr_div_pow2 by done.
  change (2 ^ 6) with 64. change (2 ^ 12) with 4096.
  change 224 with (14 * 2 ^ 4). change 128 with (2 * 2 ^ 6).
  rewrite !lor_high
    by (change (2 ^ 6) with 64; change (2 ^ 4) with 16; Z.div_mod_to_equations; lia).
  change (2 ^ 6) with 64. change (2 ^ 4) with 16.
  repeat f_equal; Z.div_mod_to_equations; lia.
Qed.

Lemma encode4 (c0 c1 c2 c3 : ascii) :
  240 ≤ byte_val c0 ≤ 244 →
  (if byte_val c0 =? 240 then 144 else 128) ≤ byte_val c1
    ≤ (if byte_val c0 =? 244 then 143 else 191) →
  128 ≤ byte_val c2 ≤ 191 →
  128 ≤ byte_val c3 ≤ 191 →
  let r := Z.lor (Z.lor (Z.lor (Z.shiftl (Z.land (byte_val c0) 7) 18)
                               (Z.shiftl (utf8.cont c1) 12))
                        (Z.shiftl (utf8.cont c2) 6)) (utf8.cont c3) in
  128 ≤ r ∧ utf8.EncodeRune r = String c0 (String c1 (String c2 (String c3 ""))).
Proof.
  intros H0 H1 H2 H3 r.
  assert (128 ≤ byte_val c1 ≤ 191) as H1'.
  { destruct (byte_val c0 =? 240), (byte_val c0 =? 244); lia. }
  destruct (cont_eq c1 H1') as [E1 R1]. destruct (cont_eq c2 H2) as [E2 R2].
  destruct (cont_eq c3 H3) as [E3 R3].
  assert (r = (byte_val c0 - 240) * 262144 + (byte_val c1 - 128) * 4096
              + (byte_val c2 - 128) * 64 + (byte_val c3 - 128)) as Hr.
  { unfold r. rewrite (Z.shiftl_mul_pow2 (utf8.cont c1)) by done.
    rewrite (Z.shiftl_mul_pow2 (utf8.cont c2)) by done.
    rewrite lor_shiftl by (change (2 ^ 18) with 262144; change (2 ^ 12) with 4096; lia).
    change (2 ^ 18) with (2 ^ 6 * 2 ^ 12).
    rewrite Z.mul_assoc, <- Z.mul_add_distr_r.
    rewrite lor_high by (change (2 ^ 12) with 4096; change (2 ^ 6) with 64; lia).
    change (2 ^ 12) with (2 ^ 6 * 2 ^ 6).
    rewrite Z.mul_assoc, <- Z.mul_add_distr_r.
    rewrite lor_high by (change (2 ^ 6) with 64; lia).
    rewrite (land_low _ 3), E1, E2, E3 by done. change (2 ^ 3) with 8.
    change (2 ^ 6) with 64.
    Z.div_mod_to_equations. lia. }
  clearbody r.
  assert (65536 ≤ r ≤ 1114111) as Hrange.
  { destruct (Z.eqb_spec (byte_val c0) 240), (Z.eqb_spec (byte_val c0) 244); lia. }
  split; [lia|].
  unfold utf8.EncodeRune. rewrite ValidRune_true by lia.
  destruct (Z.leb_spec r 127); [lia|]. destruct (Z.leb_spec r 2047); [lia|].
  destruct (Z.leb_spec r 65535); [lia|].
  rewrite <- (byte_chr_val c0), <- (byte_chr_val c1), <- (byte_chr_val c2),
    <- (byte_chr_val c3) at 1.
  rewrite !(land_low _ 6), !Z.shiftr_div_pow2 by done.
  change (2 ^ 6) with 64. change (2 ^ 12) with 4096. change (2 ^ 18) with 262144.
  change 240 with (15 * 2 ^ 4). change 128 with (2 * 2 ^ 6).
  rewrite !lor_high
    by (change (2 ^ 6) with 64; change (2 ^ 4) with 16; Z.div_mod_to_equations; lia).
  change (2 ^ 6) with 64. change (2 ^ 4) with 16.
  repeat f_equal; Z.div_mod_to_equations; lia.
Qed.

(** A multi-byte encoding that is decoded without error: its bytes
    [w] are what [EncodeRune] gives for the rune, and decoding reads
    no byte after them. *)
Lemma DecodeRuneInString_valid (c : ascii) (s : string) (r : Z) (n : nat) :
  128 ≤ byte_val c →
  utf8.DecodeRuneInString (String c s) = (r, n) →
  (r =? utf8.RuneError) && (n =? 1)%nat = false →
  ∃ w t, String c s = w ++ t ∧ String.length w = n ∧ high w = true
         ∧ 128 ≤ r ∧ utf8.EncodeRune r = w
         ∧ ∀ t', utf8.DecodeRuneInString (w ++ t') = (r, n).
Proof.
  intros Hc. unfold utf8.DecodeRuneInString.
  destruct (Z.ltb_spec (byte_val c) 128) as [|_]; [lia|].
  destruct (utf8.between 194 223 (byte_val c)) eqn:B2.
  { destruct s as [|c1 s]; [by intros [= <- <-]|].
    destruct (utf8.between 128 191 (byte_val c1)) eqn:B21; [|by intros [= <- <-]].
    intros [= <- <-] _. apply between_true in B2 as B2', B21 as B21'.
    destruct (encode2 c c1 B2' B21') as [Hr He].
    exists (String c (String c1 "")), s. split_and!; try done.
    - simpl. apply andb_true_iff. split; [apply Z.leb_le; lia|].
      apply andb_true_iff. split; [apply Z.leb_le; lia|done].
    - intros t'. simpl. destruct (Z.ltb_spec (byte_val c) 128); [lia|].
      by rewrite B2, B21. }
  destruct (utf8.between 224 239 (byte_val c)) eqn:B3.
  { destruct s as [|c1 [|c2 s]]; try (by intros [= <- <-]).
    destruct (utf8.between _ _ (byte_val c1)) eqn:B31; [|by intros [= <- <-]].
    destruct (utf8.between 128 191 (byte_val c2)) eqn:B32; [|by intros [= <- <-]].
    intros [= <- <-] _. apply between_true in B3 as B3', B31 as B31', B32 as B32'.
    destruct (encode3 c c1 c2 B3' B31' B32') as [Hr He].
    assert (128 ≤ byte_val c1).
    { destruct (byte_val c =? 224); lia. }
    exists (String c (String c1 (String c2 ""))), s. split_and!; try done.
    - simpl. repeat (apply andb_true_iff; split; [apply Z.leb_le; lia|]). done.
    - intros t'. simpl. destruct (Z.ltb_spec (byte_val c) 128); [lia|].
      by rewrite B2, B3, B31, B32. }
  destruct (utf8.between 240 244 (byte_val c)) eqn:B4; [|by intros [= <- <-]].
  destruct s as [|c1 [|c2 [|c3 s]]]; try (by intros [= <- <-]).
  destruct (utf8.between _ _ (byte_val c1)) eqn:B41; [|by intros [= <- <-]].
  destruct (utf8.between 128 191 (byte_val c2)) eqn:B42; [|by intros [= <- <-]].
  destruct (utf8.between 128 191 (byte_val c3)) eqn:B43; [|by intros [= <- <-]].
  intros [= <- <-] _. apply between_true in B4 as B4', B41 as B41', B42 as B42', B43 as B43'.
  destruct (encode4 c c1 c2 c3 B4' B41' B42' B43') as [Hr He].
  assert (128 ≤ byte_val c1).
  { destruct (byte_val c =? 240); lia. }
  exists (String c (String c1 (String c2 (String c3 "")))), s. split_and!; try done.
  - simpl. repeat (apply andb_true_iff; split; [apply Z.leb_le; lia|]). done.
  - intros t'. simpl. destruct (Z.ltb_spec (byte_val c) 128); [lia|].
    by rewrite B2, B3, B4, B41, B42, B43.
Qed.

Lemma high_not (w : string) (c : ascii) :
  byte_val c < 128 → high w = true → contains w c = false.
Proof.
  intros Hc. induction w as [|x w IH]; simpl; [done|].
  intros [Hx Hw]%andb_true_iff. apply Z.leb_le in Hx.
  destruct (Ascii.eqb_spec x c) as [->|]; [lia|]. by apply IH.
Qed.

Lemma escape_text_cons (c : ascii) (s : string) :
  Ascii.eqb c DQUOTE = false → Ascii.eqb c BSLASH = false → Ascii.eqb c LF = false →
  escape_text (String c s) = String c (escape_text s).
Proof. intros H1 H2 H3. simpl. by rewrite H1, H2, H3. Qed.

Lemma escape_high (w s : string) :
  high w = true → escape_text (w ++ s) = w ++ escape_text s.
Proof.
  induction w as [|x w IH]; [done|]. simpl.
  intros [Hx Hw]%andb_true_iff. apply Z.leb_le in Hx.
  destruct (Ascii.eqb_spec x DQUOTE) as [->|]; [vm_compute in Hx; done|].
  destruct (Ascii.eqb_spec x BSLASH) as [->|]; [vm_compute in Hx; done|].
  destruct (Ascii.eqb_spec x LF) as [->|]; [vm_compute in Hx; done|].
  simpl. by rewrite IH.
Qed.

Lemma ValidString_cons_low (c : ascii) (s : string) :
  byte_val c < 128 →
  utf8.ValidString (String c s) = utf8.ValidString s.
Proof.
  intros Hc. unfold utf8.ValidString. cbn [String.length utf8.valid_go].
  unfold utf8.DecodeRuneInString.
  destruct (Z.ltb_spec (byte_val c) 128); [|lia].
  pose proof (byte_val_range c).
  destruct (Z.eqb_spec (byte_val c) utf8.RuneError) as [E|_];
    [unfold utf8.RuneError in E; lia|].
  done.
Qed.

Lemma ValidString_cons_high (c : ascii) (s : string) :
  128 ≤ byte_val c →
  utf8.ValidString (String c s) = true →
  ∃ r w t, String c s = w ++ t ∧ w ≠ "" ∧ high w = true ∧ 128 ≤ r
           ∧ utf8.EncodeRune r = w
           ∧ (∀ t', utf8.DecodeRuneInString (w ++ t') = (r, String.length w))
           ∧ utf8.ValidString t = true.
Proof.
  intros Hc. unfold utf8.ValidString. cbn [String.length utf8.valid_go].
  destruct (utf8.DecodeRuneInString (String c s)) as [r n] eqn:Hd.
  destruct ((r =? utf8.RuneError) && (n =? 1)%nat) eqn:He; [done|].
  intros Hv.
  pose proof (DecodeRuneInString_size _ _ _ _ Hd) as Hn.
  destruct (DecodeRuneInString_valid c s r n Hc Hd He)
    as (w & t & Hw & Hl & Hh & Hr & Henc & Hdec).
  exists r, w, t. subst n. split_and!; try done.
  - intros ->. simpl in Hn. lia.
  - rewrite Hw, drop_str_app in Hv.
    rewrite (valid_go_fuel (String.length t) (String.length s)); [done|lia|].
    assert (String.length (String c s) = String.length (w ++ t)) as E by (by rewrite Hw).
    rewrite length_append in E. simpl in E. lia.
Qed.

(** The loop of [unquote] over the escaped text of a valid UTF-8 text
    without a double quote gives the text back and stops in front of
    the closing quote. *)
Lemma unquote_loop_escape (n : nat) :
  ∀ q t fuel,
    (String.length q ≤ n)%nat →
    utf8.ValidString q = true → contains q DQUOTE = false →
    (String.length (escape_text q) ≤ fuel)%nat →
    strconv.unquote_loop fuel DQUOTE (escape_text q ++ String DQUOTE t)
    = Some (q, String DQUOTE t).
Proof.
  induction n as [|n IH]; intros q t fuel Hn Hv Hq Hfuel.
  - destruct q; [|simpl in Hn; lia]. by destruct fuel.
  - destruct q as [|c q]; [by destruct fuel|].
    destruct (Z.lt_ge_cases (byte_val c) 128) as [Hc|Hc].
    + rewrite ValidString_cons_low in Hv by done.
      rewrite contains_cons in Hq. apply orb_false_iff in Hq as [Hq1 Hq].
      simpl in Hn.
      assert (∀ fuel', (String.length (escape_text q) ≤ fuel')%nat →
                strconv.unquote_loop fuel' DQUOTE (escape_text q ++ String DQUOTE t)
                = Some (q, String DQUOTE t)) as Hrec.
      { intros fuel' Hf. apply IH; try done. lia. }
      destruct (Ascii.eqb_spec c BSLASH) as [->|Hb].
      { simpl in Hfuel. destruct fuel as [|fuel]; [lia|].
        change (escape_text (String BSLASH q)) with ("\\" ++ escape_text q).
        cbn [String.append strconv.unquote_loop].
        change (Ascii.eqb "\" DQUOTE) with false. cbv iota.
        unfold strconv.UnquoteChar.
        change (Ascii.eqb "\" DQUOTE) with false.
        change (utf8.RuneSelf <=? byte_val "\") with false.
        change (Ascii.eqb "\" BSLASH) with true.
        change (Ascii.eqb "\" LF) with false.
        change (Ascii.eqb DQUOTE SQUOTE) with false.
        cbn [andb negb]. cbv iota.
        rewrite Hrec by lia. done. }
      destruct (Ascii.eqb_spec c LF) as [->|Hl].
      { simpl in Hfuel. destruct fuel as [|fuel]; [lia|].
        change (escape_text (String LF q)) with ("\n" ++ escape_text q).
        cbn [String.append strconv.unquote_loop].
        change (Ascii.eqb "\" DQUOTE) with false. cbv iota.
        unfold strconv.UnquoteChar.
        change (Ascii.eqb "\" DQUOTE) with false.
        change (utf8.RuneSelf <=? byte_val "\") with false.
        change (Ascii.eqb "\" BSLASH) with true.
        change (Ascii.eqb "\" LF) with false.
        change (Ascii.eqb DQUOTE SQUOTE) with false.
        cbn [andb negb]. cbv iota.
        rewrite Hrec by lia. done. }
      assert (Ascii.eqb c BSLASH = false) as Eb by (by apply Ascii.eqb_neq).
      assert (Ascii.eqb c LF = false) as El by (by apply Ascii.eqb_neq).
      rewrite escape_text_cons in * by done.
      simpl in Hfuel. destruct fuel as [|fuel]; [lia|].
      cbn [String.append strconv.unquote_loop]. rewrite Hq1.
      unfold strconv.UnquoteChar. rewrite Hq1, Eb, El.
      destruct (Z.leb_spec utf8.RuneSelf (byte_val c)); [unfold utf8.RuneSelf in *; lia|].
      change (Ascii.eqb DQUOTE SQUOTE) with false.
      cbn [andb negb]. 
      destruct (Z.ltb_spec (byte_val c) utf8.RuneSelf); [|unfold utf8.RuneSelf in *; lia].
      cbn [orb]. rewrite Hrec by lia. by rewrite byte_chr_val.
    + destruct (ValidString_cons_high c q Hc Hv)
        as (r & w & t0 & Hw & Hne & Hh & Hr & Henc & Hdec & Hv0).
      rewrite Hw in *. clear Hw.
      rewrite escape_high in * by done.
      rewrite contains_app in Hq. apply orb_false_iff in Hq as [_ Hq0].
      rewrite length_append in Hn, Hfuel.
      destruct w as [|c0 w]; [done|]. simpl in Hn, Hfuel.
      destruct fuel as [|fuel]; [lia|].
      rewrite append_assoc.
      pose proof (Hdec (escape_text t0 ++ String DQUOTE t)) as Hd.
      change (String c0 w ++ ?x) with (String c0 (w ++ x)) in *.
      cbn [strconv.unquote_loop].
      simpl in Hh. apply andb_true_iff in Hh as [Hc0 Hh]. apply Z.leb_le in Hc0.
      assert (Ascii.eqb c0 DQUOTE = false) as E1.
      { apply Ascii.eqb_neq. intros ->. vm_compute in Hc0. done. }
      assert (Ascii.eqb c0 LF = false) as E2.
      { apply Ascii.eqb_neq. intros ->. vm_compute in Hc0. done. }
      rewrite E1. unfold strconv.UnquoteChar. rewrite E1, E2.
      destruct (Z.leb_spec utf8.RuneSelf (byte_val c0)); [|unfold utf8.RuneSelf in *; lia].
      cbn [andb]. rewrite Hd.
      change (Ascii.eqb DQUOTE SQUOTE) with false.
      destruct (Z.ltb_spec r utf8.RuneSelf); [unfold utf8.RuneSelf in *; lia|].
      cbn [orb negb]. rewrite Henc.
      change (String c0 (w ++ ?x)) with (String c0 w ++ x).
      rewrite drop_str_app.
      rewrite IH; [done| lia | done | done | lia].
Qed.

(** ** The escaped text *)

Lemma escape_no_quote (q : string) :
  contains q DQUOTE = false → contains (escape_text q) DQUOTE = false.
Proof.
  induction q as [|c q IH]; [done|]. rewrite contains_cons.
  intros [Hc Hq]%orb_false_iff. simpl. rewrite Hc.
  destruct (Ascii.eqb c BSLASH); [by rewrite contains_app, IH|].
  destruct (Ascii.eqb c LF); [by rewrite contains_app, IH|].
  rewrite contains_app, IH by done. simpl. by rewrite Hc.
Qed.

Lemma escape_no_LF (q : string) : contains (escape_text q) LF = false.
Proof.
  induction q as [|c q IH]; [done|]. simpl.
  destruct (Ascii.eqb c DQUOTE); [by rewrite contains_app, IH|].
  destruct (Ascii.eqb c BSLASH); [by rewrite contains_app, IH|].
  destruct (Ascii.eqb c LF) eqn:E; [by rewrite contains_app, IH|].
  rewrite contains_app, IH. simpl. by rewrite E.
Qed.

Lemma escape_id (q : string) :
  contains (escape_text q) BSLASH = false → escape_text q = q.
Proof.
  induction q as [|c q IH]; [done|]. simpl.
  destruct (Ascii.eqb c DQUOTE); [done|].
  destruct (Ascii.eqb c BSLASH); [done|].
  destruct (Ascii.eqb c LF); [done|].
  rewrite contains_app. intros [_ H]%orb_false_iff. simpl. by rewrite IH.
Qed.

(** ** Where a pattern can start *)

Lemma has_prefix_before (p b : string) (c : ascii) (t : string) :
  contains p c = false → has_prefix p (b ++ String c t) = true →
  has_prefix p b = true.
Proof.
  revert b; induction p as [|a p IH]; intros b; [done|].
  rewrite contains_cons. intros [Ha Hp]%orb_false_iff.
  destruct b as [|x b]; simpl.
  - by rewrite Ha.
  - intros [-> H]%andb_true_iff. simpl. by apply IH.
Qed.

Lemma occurs_suffix (p a b : string) :
  occurs p (a ++ b) = false → has_prefix p b = false.
Proof.
  induction a as [|x a IH]; simpl.
  - destruct b; simpl; by intros [? _]%orb_false_iff.
  - intros [_ H]%orb_false_iff. by apply IH.
Qed.

Lemma has_prefix_escape (p s : string) :
  contains p DQUOTE = false → contains p BSLASH = false → contains p LF = false →
  has_prefix p (escape_text s) = has_prefix p s.
Proof.
  revert s; induction p as [|a p IH]; intros s; [done|].
  rewrite !contains_cons.
  intros [H1 H1']%orb_false_iff [H2 H2']%orb_false_iff [H3 H3']%orb_false_iff.
  destruct s as [|c s]; [done|]. simpl. unfold DQUOTE, BSLASH, LF in *.
  destruct (Ascii.eqb_spec c "034") as [->|]; [simpl; by rewrite H2, H1|].
  destruct (Ascii.eqb_spec c "\") as [->|]; [simpl; by rewrite H2|].
  destruct (Ascii.eqb_spec c "010") as [->|]; [simpl; by rewrite H2, H3|].
  simpl. by rewrite IH.
Qed.

Lemma occurs_escape (q : string) :
  occurs "vars:<" q = false → occurs "vars:<" (escape_text q) = false.
Proof.
  induction q as [|c q IH]; [done|].
  cbn [occurs]. intros [Hp Hq]%orb_false_iff. specialize (IH Hq).
  rewrite <- (has_prefix_escape "vars:<" (String c q)) in Hp by done.
  cbn [escape_text] in *.
  destruct (Ascii.eqb c DQUOTE); [cbn; by rewrite IH|].
  destruct (Ascii.eqb c BSLASH); [cbn; by rewrite IH|].
  destruct (Ascii.eqb c LF); [cbn; by rewrite IH|].
  cbn [String.append] in *. cbn [occurs]. by rewrite Hp, IH.
Qed.

(** No fragment starts inside the quoted text of a query in which
    [vars:<] does not occur. *)
Lemma no_fragment_inside (q a b t : string) :
  occurs "vars:<" q = false → escape_text q = a ++ b →
  has_prefix "vars:<" (b ++ String DQUOTE t) = false.
Proof.
  intros Hq Hab. apply occurs_escape in Hq. rewrite Hab in Hq.
  apply occurs_suffix in Hq.
  destruct (has_prefix "vars:<" (b ++ String DQUOTE t)) eqn:E; [|done].
  apply has_prefix_before in E; [congruence|done].
Qed.

Lemma has_suffix_app (p a : string) : has_suffix p (a ++ p) = true.
Proof.
  induction a as [|x a IH]; cbn [String.append has_suffix].
  - destruct p; cbn [has_suffix]; by rewrite String.eqb_refl.
  - rewrite IH. apply orb_true_r.
Qed.

Lemma prefix_closing (p b t : string) :
  contains p DQUOTE = false → contains b DQUOTE = false →
  has_prefix (p ++ String DQUOTE "") (b ++ String DQUOTE t) = true → b = p.
Proof.
  revert b; induction p as [|a p IH]; intros b.
  - intros _ Hb. destruct b as [|x b]; [done|]. simpl.
    rewrite contains_cons in Hb. apply orb_false_iff in Hb as [Hx _].
    rewrite Ascii.eqb_sym, Hx. done.
  - rewrite contains_cons. intros [Ha Hp]%orb_false_iff Hb.
    destruct b as [|x b]; simpl.
    + by rewrite Ha.
    + rewrite contains_cons in Hb. apply orb_false_iff in Hb as [Hx Hb].
      intros [->%Ascii.eqb_eq H]%andb_true_iff. f_equal. by apply IH.
Qed.

(** No value portion starts inside a key without a double quote that
    does not end in [value:]. *)
Lemma no_value_inside (k a b t : string) :
  contains k DQUOTE = false → has_suffix "value:" k = false → k = a ++ b →
  has_prefix "value:'"%q (b ++ String DQUOTE t) = false.
Proof.
  intros Hk Hs ->.
  destruct (has_prefix "value:'"%q (b ++ String DQUOTE t)) eqn:E; [|done].
  rewrite contains_app in Hk. apply orb_false_iff in Hk as [_ Hb].
  apply (prefix_closing "value:" b t) in E; [|done|done].
  subst b. by rewrite has_suffix_app in Hs.
Qed.

(** ** The fragment of a binding *)

Section round_trip.

Variables k v : string.
Hypothesis plain_k : plain_key k = true.
Hypothesis plain_v : plain_value v = true.

Lemma plain_key_facts :
  contains k DQUOTE = false ∧ contains k BSLASH = false ∧ contains k LF = false
  ∧ contains k ">" = false ∧ has_suffix "value:" k = false.
Proof.
  unfold plain_key in plain_k.
  pose proof plain_k as H.
  repeat (apply andb_true_iff in H as [H ?]).
  repeat match goal with H : negb _ = true |- _ => apply negb_true_iff in H end.
  done.
Qed.

Lemma plain_value_facts :
  contains v DQUOTE = false ∧ contains v BSLASH = false ∧ contains v LF = false
  ∧ contains v ">" = false.
Proof.
  unfold plain_value in plain_v.
  pose proof plain_v as H.
  repeat (apply andb_true_iff in H as [H ?]).
  repeat match goal with H : negb _ = true |- _ => apply negb_true_iff in H end.
  done.
Qed.

Lemma fragment_plain :
  fragment (k, v) = "vars:<key:'"%q ++ k ++ "' value:'"%q ++ v ++ "'>"%q.
Proof.
  destruct plain_key_facts as (? & ? & ? & _), plain_value_facts as (? & ? & ? & _).
  unfold fragment, quote. simpl. rewrite !escape_plain by done.
  repeat (rewrite ?append_assoc; cbn [String.append]). done.
Qed.

Lemma fragment_inner :
  contains ("key:'"%q ++ k ++ "' value:'"%q ++ v ++ "'"%q) ">" = false
  ∧ contains ("key:'"%q ++ k ++ "' value:'"%q ++ v ++ "'"%q) LF = false.
Proof.
  destruct plain_key_facts as (_ & _ & Hk1 & Hk2 & _).
  destruct plain_value_facts as (_ & _ & Hv1 & Hv2).
  rewrite !contains_app, Hk1, Hk2, Hv1, Hv2. done.
Qed.

Lemma fragment_key : FindStringSubmatch keyRe (fragment (k, v)) !! 1%nat = Some k.
Proof.
  destruct plain_key_facts as (Hq & _ & HLF & _).
  rewrite fragment_plain. unfold FindStringSubmatch, keyRe.
  cbn [String.append].
  do 6 (rewrite search_cons_skip by reflexivity).
  match goal with
  | |- context [search ?re ?s] =>
    assert (search re s = Some (Found ("key:'"%q ++ k ++ "'"%q) [k]
                                      (" value:'"%q ++ v ++ "'"%q ++ ">"))) as ->
      by exact (search_here "key:'"%q true DQUOTE k _ Hq HLF)
  end.
  done.
Qed.

Lemma fragment_value : FindStringSubmatch valRe (fragment (k, v)) !! 1%nat = Some v.
Proof.
  destruct plain_key_facts as (Hkq & _ & _ & _ & Hc).
  destruct plain_value_facts as (Hq & _ & HLF & _).
  rewrite fragment_plain. unfold FindStringSubmatch, valRe.
  cbn [String.append].
  do 11 (rewrite search_cons_skip by reflexivity).
  rewrite search_skip.
  - do 2 (rewrite search_cons_skip by reflexivity).
    match goal with
    | |- context [search ?re ?s] =>
      assert (search re s = Some (Found ("value:'"%q ++ v ++ "'"%q) [v] ">")) as ->
        by exact (search_here "value:'"%q true DQUOTE v _ Hq HLF)
    end.
    done.
  - intros a b Hab Hb. rewrite lazy_match_here.
    by rewrite (no_value_inside k a b _ Hkq Hc Hab).
Qed.

Lemma fragment_binding : binding_of [fragment (k, v)] = Some (k, v).
Proof. unfold binding_of. simpl. by rewrite fragment_key, fragment_value. Qed.

Lemma fragment_search (t : string) :
  search varRe (encode_binding (k, v) ++ t) = Some (Found (fragment (k, v)) [] t).
Proof.
  destruct fragment_inner as [H1 H2].
  unfold encode_binding. rewrite fragment_plain. unfold varRe.
  cbn [String.append].
  rewrite search_cons_skip by reflexivity.
  pose proof (search_here "vars:<" false ">" _ t H1 H2) as E.
  repeat (rewrite ?append_assoc in E; cbn [String.append] in E).
  repeat (rewrite ?append_assoc; cbn [String.append]).
  exact E.
Qed.

End round_trip.

Lemma fragment_cons (kv : string * string) :
  ∃ s, fragment kv = String "v" s.
Proof. unfold fragment. cbn [String.append]. eauto. Qed.

Lemma find_all_fragments (bs : list (string * string)) (fuel : nat) :
  Forall plain_binding bs → (List.length bs < fuel)%nat →
  find_all fuel varRe (encode_bindings bs ++ "}") = (λ kv, [fragment kv]) <$> bs.
Proof.
  revert fuel; induction bs as [|[k v] bs IH]; intros [|fuel] Hp Hf;
    try (simpl in Hf; lia).
  - reflexivity.
  - apply Forall_cons in Hp as [[Hk Hv] Hp]. simpl in Hk, Hv.
    cbn [encode_bindings find_all]. rewrite append_assoc.
    rewrite (fragment_search k v Hk Hv). cbn [whole rest groups].
    rewrite fmap_cons.
    destruct (fragment_cons (k, v)) as [s ->].
    rewrite IH; [done|done|]. simpl in Hf. lia.
Qed.

Lemma encode_bindings_length (bs : list (string * string)) :
  (List.length bs ≤ String.length (encode_bindings bs))%nat.
Proof.
  induction bs as [|kv bs IH]; simpl; [lia|].
  unfold encode_binding. cbn [String.append]. simpl. rewrite length_append. lia.
Qed.

Lemma encode_bindings_no_LF (bs : list (string * string)) :
  Forall plain_binding bs → contains (encode_bindings bs) LF = false.
Proof.
  induction 1 as [|[k v] bs [Hk Hv] _ IH]; [done|]. simpl in Hk, Hv.
  destruct (plain_key_facts k Hk) as (_ & _ & Hk1 & _).
  destruct (plain_value_facts v Hv) as (_ & _ & Hv1 & _).
  cbn [encode_bindings]. unfold encode_binding.
  rewrite (fragment_plain k v Hk Hv).
  rewrite !contains_app, IH, Hk1, Hv1. done.
Qed.

Lemma plain_query_facts (q : string) :
  plain_query q = true →
  contains q DQUOTE = false ∧ occurs "vars:<" q = false
  ∧ utf8.ValidString q = true.
Proof.
  unfold plain_query. intros H.
  repeat (apply andb_true_iff in H as [H ?]).
  repeat match goal with H : negb _ = true |- _ => apply negb_true_iff in H end.
  done.
Qed.

Lemma index_app (a b : string) (c : ascii) :
  contains a c = false → strconv.index (a ++ String c b) c = Some (String.length a).
Proof.
  induction a as [|x a IH]; simpl.
  - by rewrite Ascii.eqb_refl.
  - destruct (Ascii.eqb x c); [done|]. intros H. by rewrite IH.
Qed.

Lemma take_str_app (a b : string) : take_str (String.length a) (a ++ b) = a.
Proof. induction a as [|x a IH]; simpl; [by destruct b | by rewrite IH]. Qed.

Lemma drop_succ_app (a : string) (c : ascii) :
  drop_str (S (String.length a)) (a ++ String c "") = "".
Proof. induction a as [|x a IH]; done. Qed.

(** Unquoting the quoted text of a valid UTF-8 text without a double
    quote gives the text. *)
Lemma Unquote_quote (q : string) :
  contains q DQUOTE = false → utf8.ValidString q = true →
  strconv.Unquote (quote q) = Some q.
Proof.
  intros Hq Hv. unfold strconv.Unquote, strconv.unquote, quote.
  change ("'"%q ++ escape_text q ++ "'"%q)
    with (String DQUOTE (escape_text q ++ String DQUOTE "")).
  cbv beta iota. rewrite index_app by (by apply escape_no_quote).
  rewrite take_str_app, drop_succ_app.
  change (Ascii.eqb DQUOTE BQUOTE) with false.
  change (Ascii.eqb DQUOTE DQUOTE) with true.
  cbn [orb]. rewrite escape_no_LF. cbn [negb andb].
  destruct (contains (escape_text q) BSLASH) eqn:Hb; cbn [negb andb].
  - rewrite (unquote_loop_escape (String.length q)); try done.
    rewrite length_append. lia.
  - rewrite (escape_id q Hb), Hv. done.
Qed.

Lemma last_binding_NoDup (k x : string) (l : list (string * string)) :
  NoDup l.*1 → (last_binding k l = Some x ↔ (k, x) ∈ l).
Proof.
  revert x; induction l as [|[k' y] l IH]; simpl; intros x Hnd.
  - split; [done|]. by intros ?%elem_of_nil.
  - apply NoDup_cons in Hnd as [Hk' Hnd].
    destruct (last_binding k l) as [z|] eqn:Hl.
    + assert ((k, z) ∈ l) as Hz by (by apply IH).
      split.
      * intros [= ->]. by apply list_elem_of_further.
      * intros [[= -> ->]|Hin]%elem_of_cons.
        -- exfalso. apply Hk'. apply list_elem_of_fmap. by exists (k', z).
        -- by apply IH.
    + destruct (String.eqb_spec k k') as [->|Hne].
      * split.
        -- intros [= ->]. apply list_elem_of_here.
        -- intros [[= ->]|Hin]%elem_of_cons; [done|]. by apply IH in Hin.
      * split; [done|].
        intros [[= -> ->]|Hin]%elem_of_cons; [done|]. by apply IH in Hin.
Qed.

Lemma omap_fragments (bs : list (string * string)) :
  Forall plain_binding bs →
  omap binding_of ((λ kv, [fragment kv]) <$> bs) = bs
  ∧ Forall (λ v, is_Some (binding_of v)) ((λ kv, [fragment kv]) <$> bs).
Proof.
  induction 1 as [|[k v] bs [Hk Hv] _ [IH1 IH2]]; [by split|].
  rewrite fmap_cons. cbn [omap list_omap].
  rewrite (fragment_binding k v Hk Hv).
  split.
  - f_equal. exact IH1.
  - constructor; [|done]. by rewrite (fragment_binding k v Hk Hv).
Qed.

(** C1 (amended): a request whose query text is valid UTF-8, has no
    double quote and does not hold the text [vars:<], whose keys have
    no double quote, backslash, line feed or [>] and do not end with
    [value:], and whose values have no double quote, backslash, line
    feed or [>], written as a line of the assumed shape with its
    bindings in any order, is extracted back by [getReq]: the same
    query text and the same map of bindings.  The query text may hold
    backslashes, line feeds and [<], a key may hold [:]. *)
Theorem extraction_round_trip
    (query : string) (vars : gmap string string) (bindings : list (string * string)) :
  bindings ≡ₚ map_to_list vars →
  plain_query query = true →
  map_Forall (λ k v, plain_key k = true ∧ plain_value v = true) vars →
  getReq (encode_line query bindings) = Ok (mkRequest query vars).
Proof.
  intros Hperm Hq Hvars.
  assert (Forall plain_binding bindings) as Hplain.
  { rewrite Hperm. apply map_Forall_to_list in Hvars.
    eapply Forall_impl; [exact Hvars|]. by intros [k v]. }
  assert (NoDup bindings.*1) as Hnd.
  { rewrite Hperm. apply NoDup_fst_map_to_list. }
  pose proof (plain_query_facts _ Hq) as (Hq1 & Hq2 & Hq3).
  pose proof (escape_no_quote _ Hq1) as He1.
  pose proof (escape_no_LF query) as He2.
  set (body := "{query:'"%q ++ escape_text query
                 ++ String DQUOTE (encode_bindings bindings ++ "}")).
  assert (encode_line query bindings = marker ++ body) as ->.
  { unfold encode_line, quote, body.
    f_equal. repeat (rewrite ?append_assoc; cbn [String.append]). done. }
  assert (contains body LF = false) as HLF.
  { unfold body. cbn [String.append].
    rewrite !contains_cons, !contains_app, !contains_cons, !contains_app.
    rewrite He2, (encode_bindings_no_LF _ Hplain). done. }
  unfold getReq.
  (* the marker and the text after it *)
  assert (FindStringSubmatch isQuery (marker ++ body) !! 1%nat = Some body) as ->.
  { unfold FindStringSubmatch.
    rewrite search_unfold, isQuery_match_here, has_prefix_app, drop_str_app.
    cbn. by rewrite line_of_id. }
  (* the quoted query *)
  assert (FindStringSubmatch queryRe body !! 0%nat = Some (quote query)) as ->.
  { unfold FindStringSubmatch, body, queryRe. cbn [String.append].
    do 7 (rewrite search_cons_skip by reflexivity).
    match goal with
    | |- context [search ?re ?s] =>
      assert (search re s = Some (Found (quote query) []
                                        (encode_bindings bindings ++ "}"))) as ->
        by exact (search_here "'"%q false DQUOTE (escape_text query) _ He1 He2)
    end.
    done. }
  rewrite (Unquote_quote _ Hq1 Hq3).
  (* the fragments *)
  assert (FindAllStringSubmatch varRe body = (λ kv, [fragment kv]) <$> bindings) as ->.
  { unfold FindAllStringSubmatch.
    rewrite (find_all_ext _ _ body (encode_bindings bindings ++ "}")).
    - apply find_all_fragments; [done|].
      pose proof (encode_bindings_length bindings).
      unfold body. rewrite !length_append. simpl. rewrite !length_append. lia.
    - unfold body, varRe. cbn [String.append].
      do 8 (rewrite search_cons_skip by reflexivity).
      rewrite search_skip; [by rewrite search_cons_skip by reflexivity|].
      intros a b Hab Hb. rewrite lazy_match_here.
      by rewrite (no_fragment_inside query a b _ Hq2 Hab). }
  destruct (omap_fragments _ Hplain) as [Homap Hall].
  destruct (bind_vars_last _ ∅ Hall) as (mp & -> & Hmp).
  do 2 f_equal. apply map_eq. intros key. rewrite Hmp, Homap.
  destruct (vars !! key) as [x|] eqn:Hx.
  - apply elem_of_map_to_list in Hx. rewrite <- Hperm in Hx.
    apply (last_binding_NoDup _ _ _ Hnd) in Hx. by rewrite Hx.
  - destruct (last_binding key bindings) as [x|] eqn:Hl; [|done].
    apply (last_binding_NoDup _ _ _ Hnd) in Hl. rewrite Hperm in Hl.
    apply elem_of_map_to_list in Hl. congruence.
Qed.

Lemma extraction_round_trip_witness :
  getReq "Got a query: query:{query:'{q(func: regexp(name, /a\\.b/)) @filter(lt(age, 5)) {\n uid name: café }}' vars:<key:'$b' value:'2'> vars:<key:'key:$a' value:'1'>}"%q
  = Ok (mkRequest
          ("{q(func: regexp(name, /a\.b/)) @filter(lt(age, 5)) {"
             ++ String LF " uid name: café }}")
          {[ "key:$a" := "1"; "$b" := "2" ]}).
Proof.
  apply (extraction_round_trip
           ("{q(func: regexp(name, /a\.b/)) @filter(lt(age, 5)) {"
              ++ String LF " uid name: café }}")
           {[ "key:$a" := "1"; "$b" := "2" ]} [("$b", "2"); ("key:$a", "1")]).
  - vm_compute. first [ reflexivity | apply Permutation_swap ].
  - reflexivity.
  - intros k v H.
    apply lookup_insert_Some in H as [[<- <-]|[_ H]]; [split; reflexivity|].
    apply lookup_singleton_Some in H as [<- <-]. split; reflexivity.
Defined.

(** C1 fails as stated, and each condition of the amended property is
    needed.  A query text with a double quote is cut at the escaped
    quote and fails to unquote; a byte that is not UTF-8 comes back
    as the replacement character; a query text that holds a fragment
    opening makes [getReq] panic.  A value with [>] ends its fragment
    early, and the missing value portion makes [getReq] panic; a
    value with a double quote is cut in front of it; a backslash and
    a line feed in a value come back escaped.  The same holds for a
    key, and after a key that ends with [value:] the value is taken
    from the wrong place. *)
Lemma extraction_round_trip_counterexample :
  getReq (encode_line "{q(func: eq(name, 'Alice')){uid}}"%q (map_to_list ∅))
  ≠ Ok (mkRequest "{q(func: eq(name, 'Alice')){uid}}"%q ∅)
  ∧ getReq (encode_line "{q(func: eq(name, 'Alice')){uid}}"%q [])
    = Err "while unquoting: invalid syntax"
  ∧ getReq (encode_line (String "255" "") [])
    = Ok (mkRequest (String "239" (String "191" (String "189" ""))) ∅)
  ∧ getReq (encode_line "{q(func: has(vars:<name>)){uid}}" [])
    = Panic "index out of range [1] with length 0"
  ∧ getReq (encode_line "{q(func: has(name)){uid}}" [("$a", "x>y")])
    = Panic "index out of range [1] with length 0"
  ∧ getReq (encode_line "q" [("$a", "x'y"%q)]) = Ok (mkRequest "q" {[ "$a" := "x\" ]})
  ∧ getReq (encode_line "q" [("$a", "x\y")]) = Ok (mkRequest "q" {[ "$a" := "x\\y" ]})
  ∧ getReq (encode_line "q" [("$a", String "x" (String LF "y"))])
    = Ok (mkRequest "q" {[ "$a" := "x\ny" ]})
  ∧ getReq (encode_line "q" [("a>b", "1")])
    = Panic "index out of range [1] with length 0"
  ∧ getReq (encode_line "q" [("a'b"%q, "1")]) = Ok (mkRequest "q" {[ "a\" := "1" ]})
  ∧ getReq (encode_line "q" [("a\b", "1")]) = Ok (mkRequest "q" {[ "a\\b" := "1" ]})
  ∧ getReq (encode_line "q" [(String "a" (String LF "b"), "1")])
    = Ok (mkRequest "q" {[ "a\nb" := "1" ]})
  ∧ getReq (encode_line "q" [("value:", "1")])
    = Ok (mkRequest "q" {[ "value:" := " value:" ]}).
Proof. split; [done|]. repeat split; reflexivity. Qed.

(** * The properties on concrete runs *)



(** The end-to-end scenario: one query line and one unrelated line,
    one worker, two backends with the same answer. *)
Lemma counters_of_run_witness :
  total (mkSystem Closed [] [WDone] 0 1 1) = 1
  ∧ 0 ≤ failed (mkSystem Closed [] [WDone] 0 1 1)
        ≤ total (mkSystem Closed [] [WDone] 0 1 1).
Proof.
  refine (proj1
    (counters_of_run 1 (λ _, Resp "{'q':[{'count':5}]}"%q)
       (λ _, Resp "{'q':[{'count':5}]}"%q)
       ["Got a query: query:{query:'{q(func: has(name)){count(uid)}}'}"%q;
        "some unrelated text"]
       (mkSystem Closed [] [WDone] 0 1 1) _ _) _).
  - simpl. lia.
  - exists [Producer; Producer; Worker 0; Worker 0; Worker 0; Worker 0; Worker 0;
            Producer; Producer; Worker 0].
    reflexivity.
  - reflexivity.
Defined.

(** C5 fails as stated: a worker counts a mismatch in [failed] before
    it counts the query in [total]; after the first of the two
    additions [failed] is 1 and [total] is still 0. *)
Lemma failed_exceeds_total_counterexample :
  ∃ s, reachable 1 (λ _, Resp "{'q':[{'count':5}]}"%q)
                   (λ _, Resp "{'q':[{'count':6}]}"%q)
                   ["Got a query: query:{query:'{q(func: has(name)){count(uid)}}'}"%q] s
       ∧ failed s = 1 ∧ total s = 0 ∧ ¬ failed s ≤ total s.
Proof.
  eexists. split.
  - exists [Producer; Producer; Worker 0; Worker 0; Worker 0; Worker 0; Worker 0].
    reflexivity.
  - split; [reflexivity|]. split; [reflexivity|]. vm_compute. intros H. by apply H.
Qed.


(** * More on the extractor *)

(** ** The loop over the fragments *)

Lemma bind_vars_Ok (varStr : list (list string)) (mp mp' : gmap string string) :
  bind_vars varStr mp = Ok mp' → Forall (λ v, is_Some (binding_of v)) varStr.
Proof.
  revert mp; induction varStr as [|v l IH]; intros mp; simpl; [constructor|].
  destruct (v !! 0%nat) as [v0|] eqn:E0; [|done].
  destruct (FindStringSubmatch keyRe v0 !! 1%nat) as [k|] eqn:E1; [|done].
  destruct (FindStringSubmatch valRe v0 !! 1%nat) as [x|] eqn:E2; [|done].
  intros H. constructor; [|by eapply IH].
  unfold binding_of. rewrite E0, E1, E2. by eexists.
Qed.

Lemma bind_vars_Panic (varStr : list (list string)) (mp : gmap string string) :
  (∃ msg, bind_vars varStr mp = Panic msg) ↔
  Exists (λ v, binding_of v = None) varStr.
Proof.
  split.
  - intros [msg H].
    destruct (decide (Forall (λ v, is_Some (binding_of v)) varStr)) as [Hall|Hn].
    + destruct (bind_vars_last varStr mp Hall) as (mp' & E & _). congruence.
    + apply not_Forall_Exists in Hn; [|apply _].
      eapply Exists_impl; [exact Hn|]. intros v Hv. simpl in Hv.
      destruct (binding_of v); [|done]. exfalso. apply Hv. by eexists.
  - intros Hex. destruct (bind_vars varStr mp) as [mp'|msg|msg] eqn:E.
    + apply bind_vars_Ok in E. apply Exists_exists in Hex as (v & Hin & Hv).
      destruct (proj1 (Forall_forall _ _) E v Hin) as [x Hx]. congruence.
    + by apply bind_vars_not_Err in E.
    + by exists msg.
Qed.

Lemma find_all_elem (fuel : nat) (re : Regexp) (s : string) (v : list string) :
  v ∈ find_all fuel re s →
  ∃ s' f, search re s' = Some f ∧ v = whole f :: groups f.
Proof.
  revert s; induction fuel as [|fuel IH]; intros s; simpl.
  - by intros ?%elem_of_nil.
  - destruct (search re s) as [f|] eqn:Hs; [|by intros ?%elem_of_nil].
    intros [->|Hin]%elem_of_cons; [by exists s, f|].
    destruct (whole f), (rest f); try (by apply elem_of_nil in Hin);
      by apply IH in Hin.
Qed.

Lemma bind_vars_message (fuel : nat) (re : Regexp) (s : string)
    (mp : gmap string string) (msg : string) :
  bind_vars (find_all fuel re s) mp = Panic msg →
  msg = "index out of range [1] with length 0".
Proof.
  assert (∀ l : list (list string), Forall (λ v, is_Some (v !! 0%nat)) l →
            ∀ mp, bind_vars l mp = Panic msg →
                  msg = "index out of range [1] with length 0") as H.
  { induction 1 as [|v l [v0 Hv0] _ IH]; intros mp'; simpl; [done|].
    rewrite Hv0.
    destruct (FindStringSubmatch keyRe v0 !! 1%nat); [|by intros [= <-]].
    destruct (FindStringSubmatch valRe v0 !! 1%nat); [|by intros [= <-]].
    apply IH. }
  apply H. apply Forall_forall. intros v Hv.
  apply find_all_elem in Hv as (s' & f & _ & ->). by eexists.
Qed.

(** X1: [getReq] stops with a panic exactly on a line that has the marker
    phrase and a quoted substring that unquotes, and after the marker a
    fragment in which [keyRe] or [valRe] finds nothing; the panic is
    that of indexing an empty submatch at [1]. *)
Theorem getReq_panic_iff (line : string) :
  ((∃ msg, getReq line = Panic msg) ↔
   ∃ m1 q, FindStringSubmatch isQuery line !! 1%nat = Some m1
         ∧ FindStringSubmatch queryRe m1 !! 0%nat = Some q
         ∧ is_Some (strconv.Unquote q)
         ∧ Exists (λ v, binding_of v = None) (FindAllStringSubmatch varRe m1))
  ∧ (∀ msg, getReq line = Panic msg →
            msg = "index out of range [1] with length 0").
Proof.
  unfold getReq.
  destruct (FindStringSubmatch isQuery line !! 1%nat) as [m1|] eqn:Hm; cycle 1.
  { split; [|done]. split; [by intros [? ?] | by intros (? & ? & ? & _)]. }
  destruct (FindStringSubmatch queryRe m1 !! 0%nat) as [q|] eqn:Hq; cycle 1.
  { split; [|done]. split; [by intros [? ?]|].
    intros (? & ? & [= <-] & ? & _). congruence. }
  destruct (strconv.Unquote q) as [query|] eqn:Hu; cycle 1.
  { split; [|done]. split; [by intros [? ?]|].
    intros (? & ? & [= <-] & ? & [? ?] & _). congruence. }
  pose proof (bind_vars_Panic (FindAllStringSubmatch varRe m1) ∅) as Hp.
  split.
  - split.
    + intros [msg H]. exists m1, q. split_and!; try done.
      apply Hp. destruct (bind_vars _ ∅) as [?|?|msg']; try done. by exists msg'.
    + intros (? & ? & [= <-] & ? & _ & Hex).
      apply Hp in Hex as [msg Hmsg]. exists msg. by rewrite Hmsg.
  - intros msg H. destruct (bind_vars _ ∅) as [?|?|msg'] eqn:E; try done.
    injection H as <-. by eapply bind_vars_message.
Qed.

(** ** What a key and a value can hold *)

Lemma split_at_Some (c : ascii) (s a b : string) :
  split_at c s = Some (a, b) →
  s = a ++ String c b ∧ contains a c = false ∧ contains a LF = false.
Proof.
  revert a; induction s as [|x s IH]; intros a; simpl; [done|].
  destruct (Ascii.eqb_spec c x) as [->|Hne].
  - by intros [= <- <-].
  - destruct (Ascii.eqb x LF) eqn:ELF; [done|].
    destruct (split_at c s) as [[a' b']|]; [|done]. simpl. intros [= <- <-].
    destruct (IH a' eq_refl) as (-> & Hc & HLF). simpl. rewrite Hc, HLF, ELF.
    split; [done|]. split; [|done].
    destruct (Ascii.eqb_spec x c) as [->|]; done.
Qed.

(** What the three lazy patterns match: the literal prefix, a text
    without the closing byte and without a line feed, and the closing
    byte. *)
Lemma lazy_search_Some (p : string) (capture : bool) (c : ascii) (s : string)
    (f : found) :
  search (lits p ++ [Star false capture] ++ lits (String c ""))%list s = Some f →
  ∃ pre a,
    s = pre ++ p ++ a ++ String c (rest f)
    ∧ whole f = p ++ a ++ String c ""
    ∧ groups f = (if capture then [a] else [])
    ∧ contains a c = false ∧ contains a LF = false.
Proof.
  intros (pre & b & -> & Hb)%search_Some. rewrite lazy_match_here in Hb.
  destruct (has_prefix p b) eqn:Hp; [|done].
  apply has_prefix_split in Hp.
  destruct (split_at c _) as [[a t]|] eqn:Hsp; [|done].
  injection Hb as <-. apply split_at_Some in Hsp as (Ht & Hc & HLF).
  exists pre, a. simpl. rewrite Hp, Ht. done.
Qed.

Lemma string_snoc (s : string) :
  s = "" ∨ ∃ s' c, s = s' ++ String c "".
Proof.
  induction s as [|x s [->|(s' & c & ->)]]; [by left| |]; right.
  - by exists "", x.
  - by exists (String x s'), c.
Qed.

Lemma append_snoc_inj (a b : string) (c d : ascii) :
  a ++ String c "" = b ++ String d "" → a = b ∧ c = d.
Proof.
  revert b; induction a as [|x a IH]; intros [|y b]; simpl.
  - by intros [= ->].
  - destruct b; done.
  - destruct a; done.
  - intros [= -> H]. by destruct (IH b H) as [-> ->].
Qed.

(** A text in front of a double quote inside a fragment is free of
    [>]: the only [>] of a fragment is its last byte. *)
Lemma inside_fragment (u g t a : string) (c : ascii) :
  u ++ g ++ String DQUOTE t = "vars:<" ++ a ++ String c "" →
  c ≠ DQUOTE → contains a c = false → contains "vars:<" c = false →
  contains g c = false.
Proof.
  intros H Hc Ha Hv.
  destruct (string_snoc t) as [->|(t' & d & ->)].
  - exfalso. apply Hc.
    replace (u ++ g ++ String DQUOTE "") with ((u ++ g) ++ String DQUOTE "") in H
      by by rewrite append_assoc.
    replace ("vars:<" ++ a ++ String c "") with (("vars:<" ++ a) ++ String c "") in H
      by by rewrite append_assoc.
    by apply append_snoc_inj in H as [_ <-].
  - replace (u ++ g ++ String DQUOTE (t' ++ String d ""))
      with ((u ++ g ++ String DQUOTE t') ++ String d "") in H
      by (rewrite !append_assoc; simpl; done).
    replace ("vars:<" ++ a ++ String c "") with (("vars:<" ++ a) ++ String c "") in H
      by by rewrite append_assoc.
    apply append_snoc_inj in H as [H _].
    assert (contains (u ++ g ++ String DQUOTE t') c = false) as Hall.
    { rewrite H, contains_app, Hv, Ha. done. }
    rewrite !contains_app in Hall.
    destruct (contains g c); [|done]. by destruct (contains u c).
Qed.

Lemma last_binding_elem (k x : string) (l : list (string * string)) :
  last_binding k l = Some x → (k, x) ∈ l.
Proof.
  induction l as [|[k' y] l IH]; simpl; [done|].
  destruct (last_binding k l) as [z|].
  - intros [= ->]. apply list_elem_of_further. by apply IH.
  - destruct (String.eqb_spec k k') as [->|]; [|done].
    intros [= ->]. apply list_elem_of_here.
Qed.

(** The key and the value of a fragment that [varRe] finds. *)
Lemma binding_plain (s : string) (f : found) (k x : string) :
  search varRe s = Some f →
  binding_of (whole f :: groups f) = Some (k, x) →
  (contains k DQUOTE = false ∧ contains k ">" = false ∧ contains k LF = false)
  ∧ (contains x DQUOTE = false ∧ contains x ">" = false ∧ contains x LF = false).
Proof.
  intros Hs Hb.
  apply (lazy_search_Some "vars:<" false ">") in Hs as (pre & a & _ & Hw & _ & Ha & _).
  unfold binding_of in Hb. simpl in Hb. unfold FindStringSubmatch in Hb.
  destruct (search keyRe (whole f)) as [fk|] eqn:Hk; [|done].
  destruct (search valRe (whole f)) as [fv|] eqn:Hv; [|by destruct (groups fk)].
  apply (lazy_search_Some "key:'"%q true DQUOTE) in Hk as (uk & gk & Hfk & _ & Hgk & Hk1 & Hk2).
  apply (lazy_search_Some "value:'"%q true DQUOTE) in Hv as (uv & gv & Hfv & _ & Hgv & Hv1 & Hv2).
  rewrite Hgk, Hgv in Hb. simpl in Hb. injection Hb as <- <-.
  rewrite Hw in Hfk, Hfv.
  split; (split; [done|]; split; [|done]).
  - apply (inside_fragment (uk ++ "key:'"%q) gk (rest fk) a ">"); try done.
    by rewrite !append_assoc.
  - apply (inside_fragment (uv ++ "value:'"%q) gv (rest fv) a ">"); try done.
    by rewrite !append_assoc.
Qed.

(** X2: the keys and the values of an extracted request are taken from the
    line as they are, up to the first double quote: no key and no
    value holds a double quote, a [>] or a line feed. *)
Theorem getReq_vars_raw (line : string) (req : Request) (k x : string) :
  getReq line = Ok req →
  Vars req !! k = Some x →
  (contains k DQUOTE = false ∧ contains k ">" = false ∧ contains k LF = false)
  ∧ (contains x DQUOTE = false ∧ contains x ">" = false ∧ contains x LF = false).
Proof.
  unfold getReq.
  destruct (FindStringSubmatch isQuery line !! 1%nat) as [m1|]; [|done].
  destruct (FindStringSubmatch queryRe m1 !! 0%nat) as [q|]; [|done].
  destruct (strconv.Unquote q) as [query|]; [|done].
  destruct (bind_vars _ ∅) as [mp| |] eqn:Hb; try done.
  intros [= <-]. simpl.
  pose proof (bind_vars_Ok _ _ _ Hb) as Hall.
  destruct (bind_vars_last _ ∅ Hall) as (mp' & Hmp' & Hlook).
  rewrite Hb in Hmp'. injection Hmp' as <-.
  rewrite Hlook, lookup_empty.
  destruct (last_binding k _) as [y|] eqn:Hl; [|done]. intros [= ->].
  apply last_binding_elem, list_elem_of_omap in Hl as (v & Hin & Hv).
  apply find_all_elem in Hin as (s' & f & Hs & ->).
  by eapply binding_plain.
Qed.

(** ** The text in front of the marker phrase *)

Lemma has_prefix_shorter (p u v : string) :
  (String.length p ≤ String.length u)%nat →
  has_prefix p (u ++ v) = true → has_prefix p u = true.
Proof.
  revert u; induction p as [|x p IH]; intros [|y u]; simpl; try done; try lia.
  intros Hl. destruct (Ascii.eqb x y); [|done]. apply IH. lia.
Qed.

Lemma isQuery_at_marker (post : string) :
  search isQuery (marker ++ post) =
  Some (Found (marker ++ line_of post) [line_of post] (after_line post)).
Proof.
  rewrite search_unfold, isQuery_match_here, has_prefix_app, drop_str_app. done.
Qed.

Lemma isQuery_skip (pre post : string) :
  ¬ has_marker (pre ++ "Got a query: query") →
  search isQuery (pre ++ marker ++ post) = search isQuery (marker ++ post).
Proof.
  intros Hn. apply search_skip. intros a b -> Hb.
  rewrite isQuery_match_here.
  destruct (has_prefix marker (b ++ marker ++ post)) eqn:Hp; [|done].
  exfalso. apply Hn.
  change (marker ++ post) with ("Got a query: query" ++ String ":" post) in Hp.
  rewrite <- append_assoc in Hp.
  apply has_prefix_shorter in Hp.
  - apply has_prefix_split in Hp. exists a, (drop_str (String.length marker)
                                               (b ++ "Got a query: query")).
    by rewrite append_assoc, Hp at 1.
  - rewrite length_append. destruct b; [done|]. simpl. lia.
Qed.

Lemma line_of_idem (s : string) : line_of (line_of s) = line_of s.
Proof. apply line_of_id, line_of_no_LF. Qed.

(** X3: [getReq] reads a line from the first occurrence of the marker
    phrase to the end of the line: what stands in front of that
    occurrence, and what follows a line feed, has no influence on the
    result. *)
Theorem getReq_after_first_marker (pre post : string) :
  ¬ has_marker (pre ++ "Got a query: query") →
  getReq (pre ++ marker ++ post) = getReq (marker ++ line_of post).
Proof.
  intros Hn. unfold getReq, FindStringSubmatch at 1 3.
  rewrite (isQuery_skip pre post Hn), !isQuery_at_marker. simpl.
  by rewrite line_of_idem.
Qed.

(** ** A query text with an escaped double quote *)

Lemma line_of_app (a b : string) :
  contains a LF = false → line_of (a ++ b) = a ++ line_of b.
Proof.
  induction a as [|x a IH]; simpl; [done|].
  destruct (Ascii.eqb x LF); [done|]. intros H. by rewrite IH.
Qed.

Lemma contains_drop (n : nat) (s : string) (c : ascii) :
  contains s c = false → contains (drop_str n s) c = false.
Proof.
  revert s; induction n as [|n IH]; intros [|x s]; simpl; try done.
  destruct (Ascii.eqb x c); [done|]. apply IH.
Qed.

Lemma drop_str_app_le (n : nat) (a b : string) :
  (n ≤ String.length a)%nat → drop_str n (a ++ b) = drop_str n a ++ b.
Proof.
  revert a; induction n as [|n IH]; intros [|x a]; simpl; try done; try lia.
  intros H. apply IH. lia.
Qed.

(** Decoding a rune does not read past bytes of a multi-byte encoding:
    in front of an ASCII byte it stays within the text before it. *)
Lemma DecodeRuneInString_within (a t : string) (x : ascii) (r : Z) (n : nat) :
  a ≠ "" → byte_val x < 128 →
  utf8.DecodeRuneInString (a ++ String x t) = (r, n) →
  (1 ≤ n ≤ String.length a)%nat.
Proof.
  intros Ha Hx. unfold utf8.DecodeRuneInString.
  destruct a as [|c0 a]; [done|]. cbn [String.append].
  assert (∀ lo hi, 128 ≤ lo → utf8.between lo hi (byte_val x) = false) as Hbt.
  { intros lo hi Hlo. unfold utf8.between. apply andb_false_iff. left.
    apply Z.leb_gt. lia. }
  assert (∀ b : bool, 128 ≤ (if b then 160 else 128)) as H1 by (intros []; lia).
  assert (∀ b : bool, 128 ≤ (if b then 144 else 128)) as H2 by (intros []; lia).
  destruct a as [|c1 [|c2 [|c3 a]]]; cbn [String.append];
    repeat first
      [ progress (rewrite ?Hbt by (done || apply H1 || apply H2);
                  rewrite ?andb_false_r; cbn [andb])
      | match goal with
        | |- context [if ?b then _ else _] => destruct b
        | |- context [match ?s with "" => _ | String _ _ => _ end] => destruct s
        end ];
    intros [= <- <-]; simpl; lia.
Qed.

(** The loop of [unquote] over a text without quote and backslash
    that is followed by an escaped quote runs to the end of the text:
    it does not stop in front of a closing quote. *)
Lemma unquote_loop_escaped_quote (n : nat) :
  ∀ a, (String.length a < n)%nat →
       contains a DQUOTE = false → contains a BSLASH = false →
       match strconv.unquote_loop n DQUOTE (a ++ "\'"%q) with
       | Some (_, String _ _) => False
       | _ => True
       end.
Proof.
  induction n as [|n IH]; intros a Hn Hq Hb; [lia|].
  destruct a as [|c a].
  - destruct n; vm_compute; done.
  - cbn [String.append strconv.unquote_loop].
    simpl in Hq, Hb.
    destruct (Ascii.eqb c DQUOTE) eqn:E1; [done|].
    destruct (Ascii.eqb c BSLASH) eqn:E2; [done|].
    unfold strconv.UnquoteChar. rewrite E1, E2. cbn [andb negb].
    assert (∀ rem out,
              (∃ a', rem = a' ++ "\'"%q ∧ (String.length a' < n)%nat
                     ∧ contains a' DQUOTE = false ∧ contains a' BSLASH = false) →
              match
                (if Ascii.eqb c LF then None
                 else if Ascii.eqb DQUOTE SQUOTE then Some (out, rem)
                 else match strconv.unquote_loop n DQUOTE rem with
                      | Some (o, rem') => Some (out ++ o, rem')
                      | None => None
                      end)
              with
              | Some (_, String _ _) => False
              | _ => True
              end) as Hstep.
    { intros rem out (a' & -> & Hl & Hq' & Hb').
      destruct (Ascii.eqb c LF); [done|].
      change (Ascii.eqb DQUOTE SQUOTE) with false. cbv iota.
      specialize (IH a' Hl Hq' Hb').
      destruct (strconv.unquote_loop n DQUOTE _) as [[o [|? ?]]|]; done. }
    destruct (utf8.RuneSelf <=? byte_val c) eqn:E3.
    + destruct (utf8.DecodeRuneInString _) as [r size] eqn:Hd.
      change (String c (a ++ "\'"%q)) with (String c a ++ String BSLASH "'"%q) in Hd.
      pose proof Hd as Hd'.
      apply DecodeRuneInString_within in Hd'; [|done|by vm_compute].
      apply Hstep. exists (drop_str size (String c a)). split_and!.
      * change (String c (a ++ "\'"%q)) with (String c a ++ "\'"%q).
        by rewrite drop_str_app_le by lia.
      * rewrite drop_str_length. simpl in *. lia.
      * apply contains_drop. simpl. by rewrite E1.
      * apply contains_drop. simpl. by rewrite E2.
    + apply Hstep. exists a. split_and!; try done. simpl in Hn. lia.
Qed.

Lemma Unquote_escaped_quote (a : string) :
  contains a DQUOTE = false → contains a BSLASH = false →
  strconv.Unquote (String DQUOTE (a ++ "\'"%q)) = None.
Proof.
  intros Hq Hb. unfold strconv.Unquote, strconv.unquote.
  pose proof (unquote_loop_escaped_quote (String.length (a ++ "\'"%q)) a) as H.
  destruct (strconv.unquote_loop _ DQUOTE _) as [[o [|c rem]]|].
  2:{ exfalso. apply H; try done. rewrite length_append. simpl. lia. }
  all: clear H.
  all: replace (a ++ "\'"%q) with ((a ++ String BSLASH "") ++ String DQUOTE "")
         by (by rewrite append_assoc).
  all: rewrite index_app by (by rewrite contains_app, Hq).
  all: rewrite take_str_app.
  all: change (Ascii.eqb DQUOTE BQUOTE) with false.
  all: change (Ascii.eqb DQUOTE DQUOTE) with true; cbn [orb].
  all: rewrite (contains_app a), Hb; cbn [orb negb andb]; done.
Qed.

Lemma queryRe_skip (pre s : string) :
  contains pre DQUOTE = false →
  search queryRe (pre ++ s) = search queryRe s.
Proof.
  induction pre as [|x pre IH]; simpl; [done|].
  destruct (Ascii.eqb x DQUOTE) eqn:E; [done|]. intros H.
  change (String x (pre ++ s)) with (String x pre ++ s).
  rewrite <- (IH H). unfold queryRe.
  apply (search_cons_skip "'"%q false DQUOTE x (pre ++ s)).
  unfold DQUOTE in E. simpl. by rewrite Ascii.eqb_sym, E.
Qed.

(** X4: a line whose first quoted text holds an escaped double quote, the
    way a query with a string literal is logged, is not extracted:
    the quoted substring ends at the escaped quote, unquoting it
    fails, and [getReq] returns the error. *)
Theorem getReq_escaped_quote (pre a post : string) :
  contains pre DQUOTE = false → contains pre LF = false →
  contains a DQUOTE = false → contains a BSLASH = false → contains a LF = false →
  getReq (marker ++ pre ++ "'"%q ++ a ++ "\'"%q ++ post)
  = Err "while unquoting: invalid syntax".
Proof.
  intros Hp1 Hp2 Ha1 Ha2 Ha3.
  assert (line_of (pre ++ "'"%q ++ a ++ "\'"%q ++ post)
          = pre ++ String DQUOTE ((a ++ String BSLASH "") ++ String DQUOTE (line_of post)))
    as Hline.
  { rewrite line_of_app by done. f_equal.
    change ("'"%q ++ a ++ "\'"%q ++ post)
      with (String DQUOTE (a ++ String BSLASH "" ++ String DQUOTE post)).
    change (line_of (String DQUOTE ?x)) with (String DQUOTE (line_of x)). f_equal.
    rewrite <- append_assoc. rewrite line_of_app; [done|].
    by rewrite contains_app, Ha3. }
  unfold getReq, FindStringSubmatch at 1.
  rewrite isQuery_at_marker. cbn [whole groups lookup list_lookup].
  rewrite Hline. unfold FindStringSubmatch. rewrite queryRe_skip by done.
  assert (search queryRe (String DQUOTE ((a ++ String BSLASH "") ++ String DQUOTE (line_of post)))
          = Some (Found ("'"%q ++ (a ++ String BSLASH "") ++ "'"%q) []
                        (line_of post))) as ->.
  { apply (search_here "'"%q false DQUOTE (a ++ String BSLASH "") (line_of post)).
    - by rewrite contains_app, Ha1.
    - by rewrite contains_app, Ha3. }
  cbn [whole groups lookup list_lookup].
  replace ("'"%q ++ (a ++ String BSLASH "") ++ "'"%q)
    with (String DQUOTE (a ++ "\'"%q)) by (by rewrite append_assoc).
  by rewrite Unquote_escaped_quote.
Qed.

(** * Decoded values, again *)

Section closed.

Variable P : value → Prop.
Hypothesis P_nil : P VNil.
Hypothesis P_bool : ∀ b, P (VBool b).
Hypothesis P_string : ∀ s, P (VString s).
Hypothesis P_number : ∀ lit f, ParseFloat lit = Some f → P (VFloat64 f).
Hypothesis P_slice : ∀ l, Forall P l → P (VSlice l).
Hypothesis P_empty : P (VMap []).
Hypothesis P_set : ∀ m k v, P (VMap m) → P v → P (VMap (map_set k v m)).

Lemma complete_all (v : value) (stk : list frame) :
  P v → Forall (frame_all P) stk → state_all P (complete v stk).
Proof.
  intros Hv Hstk. destruct stk as [|[acc|m k] stk]; simpl; [done| |];
    apply Forall_cons in Hstk as [Hfr Hstk]; simpl in Hfr.
  - split; [|done]. apply Forall_app. split; [done|]. by constructor.
  - split; [|done]. by apply P_set.
Qed.

Lemma begin_value_all (t : token) (stk : list frame) (st : state) :
  Forall (frame_all P) stk → begin_value t stk = Some st → state_all P st.
Proof.
  intros Hstk. destruct t; simpl; try done;
    try (intros [= <-]; by apply complete_all).
  - destruct (_ <? _); [|done]. by intros [= <-].
  - destruct (_ <? _); [|done]. by intros [= <-].
  - destruct (ParseFloat lit) eqn:E; [|done]. simpl. intros [= <-].
    apply complete_all; [by eapply P_number | done].
Qed.

Lemma feed_all (st st' : state) (t : token) :
  state_all P st → feed st t = Some st' → state_all P st'.
Proof.
  destruct st as [stk|stk|acc stk|stk|m stk|m k stk|m stk|v]; simpl; intros Hst.
  - by apply begin_value_all.
  - destruct t; try (apply begin_value_all; constructor; [by constructor | done]).
    intros [= <-]. apply complete_all; [|done]. apply P_slice. constructor.
  - destruct Hst as [Hacc Hstk]. destruct t; try done; intros [= <-].
    + apply complete_all; [by apply P_slice | done].
    + simpl. by constructor.
  - destruct t; try done; intros [= <-].
    + by apply complete_all.
    + simpl. done.
  - destruct t; try done; by intros [= <-].
  - destruct Hst as [Hm Hstk]. destruct t; try done; intros [= <-].
    simpl. by constructor.
  - destruct Hst as [Hm Hstk]. destruct t; try done; intros [= <-]; [|done].
    by apply complete_all.
  - done.
Qed.

Lemma run_all (ts : list token) (st st' : state) :
  state_all P st → run st ts = Some st' → state_all P st'.
Proof.
  revert st; induction ts as [|t ts IH]; intros st Hst; simpl.
  - by intros [= <-].
  - destruct (feed st t) as [st1|] eqn:Hf; [|done].
    apply IH. by eapply feed_all.
Qed.

(** A property that the constructions of the decoder keep holds of
    every decoded value. *)
Lemma Unmarshal_closed (s : string) (v : value) : Unmarshal s = Some v → P v.
Proof.
  unfold Unmarshal. destruct (tokens 0 s) as [ts|]; [|done].
  destruct (run (PValue []) ts) as [st|] eqn:Hr; [|done].
  destruct st; try done. intros [= <-].
  apply (run_all ts (PValue []) (PEnd v0)); [constructor | done].
Qed.

End closed.

(** ** Equality of numbers *)

Lemma SFeqb_true (f g : spec_float) :
  SFeqb f g = true ↔
  match f, g with
  | S754_zero _, S754_zero _ => True
  | S754_infinity a, S754_infinity b => a = b
  | S754_finite s m e, S754_finite s' m' e' => s = s' ∧ m = m' ∧ e = e'
  | _, _ => False
  end.
Proof.
  unfold SFeqb, SFcompare.
  destruct f as [a| a | |a m e], g as [b|b| |b m' e']; try done;
    try (by destruct a); try (by destruct b).
  - destruct a, b; done.
  - change (Pos.compare_cont Eq) with Pos.compare.
    destruct a, b; try (split; [done|]; intros (? & ? & ?); done);
      destruct (Z.compare_spec e e') as [->|?|?];
      destruct (Pos.compare_spec m m') as [->|?|?]; simpl;
      (split; [try done; intros _; split_and!; done
              |try done; intros (? & ? & ?); lia]).
Qed.

Lemma SFeqb_sym (f g : spec_float) : SFeqb f g = true → SFeqb g f = true.
Proof.
  rewrite !SFeqb_true. destruct f, g; try done.
  intros (-> & -> & ->). done.
Qed.

Lemma SFeqb_trans (f g h : spec_float) :
  SFeqb f g = true → SFeqb g h = true → SFeqb f h = true.
Proof.
  rewrite !SFeqb_true. destruct f, g, h; try done; try congruence.
  intros (-> & -> & ->) (-> & -> & ->). done.
Qed.

Lemma decimal_to_float64_eq (neg : bool) (n k : Z) (f : spec_float) :
  decimal_to_float64 neg n k = Some f → SFeqb f f = true.
Proof.
  unfold decimal_to_float64.
  destruct (SFdiv_core_binary _ _ _ _ _ _) as [[q e] loc].
  destruct (binary_round_aux _ _ _ _ _ _) as [a|a| |a m e']; try done;
    intros [= <-]; by apply SFeqb_true.
Qed.

Lemma ParseFloat_eq (lit : string) (f : spec_float) :
  ParseFloat lit = Some f → SFeqb f f = true.
Proof.
  unfold ParseFloat.
  repeat match goal with
         | |- context [let '(_, _) := ?x in _] => destruct x
         end.
  repeat case_match; try done; apply decimal_to_float64_eq.
Qed.

(** ** [DeepEqual] is an equivalence on decoded values *)

Lemma map_get_member (m : list (string * value)) (p : string * value) :
  NoDup m.*1 → p ∈ m → map_get p.1 m = Some p.2.
Proof. destruct p as [k a]. apply map_get_elem. Qed.

Lemma sound_value_slice (l : list value) :
  Forall sound_value l → sound_value (VSlice l).
Proof.
  intros H. split.
  - constructor. eapply Forall_impl; [exact H|]. by intros v [? _].
  - apply DeepEqual_slice. induction H as [|v l [_ Hv] _ IH]; by constructor.
Qed.

Lemma sound_value_map (m : list (string * value)) :
  sound_value (VMap m) ↔ NoDup m.*1 ∧ Forall (λ p, sound_value p.2) m.
Proof.
  unfold sound_value. split.
  - intros [Hu He]. apply unique_keys_map in Hu as [Hnd Hu]. split; [done|].
    apply DeepEqual_map in He as [_ He].
    apply Forall_forall. intros p Hp. split.
    + by apply (proj1 (Forall_forall _ _) Hu p).
    + destruct (proj1 (Forall_forall _ _) He p Hp) as (b & Hb & Hpb).
      rewrite (map_get_member m p Hnd Hp) in Hb. by injection Hb as <-.
  - intros [Hnd Hall]. split.
    + constructor; [done|]. eapply Forall_impl; [exact Hall|]. by intros p [? _].
    + apply DeepEqual_map. split; [done|].
      apply Forall_forall. intros p Hp. exists p.2.
      split; [by apply map_get_member|].
      by destruct (proj1 (Forall_forall _ _) Hall p Hp).
Qed.

Lemma sound_value_set (m : list (string * value)) (k : string) (v : value) :
  sound_value (VMap m) → sound_value v → sound_value (VMap (map_set k v m)).
Proof.
  rewrite !sound_value_map. intros [Hnd Hall] Hv. split.
  - by apply map_set_NoDup.
  - by apply map_set_Forall.
Qed.

(** A decoded value has one member per key in every object and is
    deeply equal to itself. *)
Lemma Unmarshal_sound (s : string) (v : value) :
  Unmarshal s = Some v → sound_value v.
Proof.
  apply (Unmarshal_closed sound_value).
  - split; [constructor|done].
  - intros b. split; [constructor|]. simpl. apply Bool.eqb_reflx.
  - intros t. split; [constructor|]. simpl. apply String.eqb_refl.
  - intros lit f Hf. split; [constructor|]. simpl. by eapply ParseFloat_eq.
  - apply sound_value_slice.
  - apply sound_value_map. split; [apply NoDup_nil_2|constructor].
  - apply sound_value_set.
Qed.

Lemma DeepEqual_trans (v1 : value) :
  ∀ v2 v3, unique_keys v2 →
           DeepEqual v1 v2 = true → DeepEqual v2 v3 = true → DeepEqual v1 v3 = true.
Proof.
  induction v1 as [ | a | f | s | l1 IH | m1 IH ] using value_ind';
    intros v2 v3 Hu2.
  - destruct v2; try done.
  - destruct v2 as [ | b | | | | ]; try done.
    simpl. intros ->%Bool.eqb_prop. done.
  - destruct v2 as [ | | g | | | ]; try done. destruct v3 as [ | | h | | | ]; try done.
    simpl. apply SFeqb_trans.
  - destruct v2 as [ | | | t | | ]; try done.
    simpl. intros ->%String.eqb_eq. done.
  - destruct v2 as [ | | | | l2 | ]; try done. destruct v3 as [ | | | | l3 | ]; try done.
    rewrite !DeepEqual_slice. apply unique_keys_slice in Hu2.
    clear -IH Hu2. revert l2 l3 Hu2.
    induction l1 as [|a l1 IHl]; intros l2 l3 Hu2 H12 H23.
    + inversion H12; subst. inversion H23; subst. constructor.
    + inversion H12 as [|? b ? l2' Hab Hl]; subst.
      inversion H23 as [|? c ? l3' Hbc Hl']; subst.
      apply Forall_cons in IH as [Ha IH]. apply Forall_cons in Hu2 as [Hub Hu2].
      constructor; [by apply (Ha b c)|]. by apply (IHl IH l2' l3').
  - destruct v2 as [ | | | | | m2 ]; try done. destruct v3 as [ | | | | | m3 ]; try done.
    rewrite !DeepEqual_map. apply unique_keys_map in Hu2 as [Hnd2 Hu2].
    intros [Hlen12 H12] [Hlen23 H23]. split; [congruence|].
    apply Forall_forall. intros [k a] Hin.
    destruct (proj1 (Forall_forall _ _) H12 _ Hin) as (b & Hb & Hab). simpl in *.
    apply map_get_Some in Hb.
    destruct (proj1 (Forall_forall _ _) H23 _ Hb) as (c & Hc & Hbc). simpl in *.
    exists c. split; [done|].
    apply (proj1 (Forall_forall _ _) IH _ Hin b c); try done.
    by apply (proj1 (Forall_forall _ _) Hu2 (k, b)).
Qed.

(** The keys of two objects that [DeepEqual] accepts are the same. *)
Lemma DeepEqual_keys (m1 m2 : list (string * value)) :
  NoDup m1.*1 → NoDup m2.*1 →
  DeepEqual (VMap m1) (VMap m2) = true →
  ∀ k, k ∈ m2.*1 → k ∈ m1.*1.
Proof.
  intros Hnd1 Hnd2 [Hlen Hall]%DeepEqual_map k Hk.
  assert (m1.*1 ≡ₚ m2.*1) as Hperm; [|by rewrite Hperm].
  apply submseteq_length_Permutation.
  - apply NoDup_submseteq; [done|]. intros k' Hk'.
    apply list_elem_of_fmap in Hk' as ([k1 a] & -> & Hin).
    destruct (proj1 (Forall_forall _ _) Hall _ Hin) as (b & Hb & _).
    apply map_get_Some in Hb. apply list_elem_of_fmap. by exists (k1, b).
  - rewrite !length_fmap. lia.
Qed.

Lemma DeepEqual_sym (v1 : value) :
  ∀ v2, unique_keys v1 → unique_keys v2 →
        DeepEqual v1 v2 = true → DeepEqual v2 v1 = true.
Proof.
  induction v1 as [ | a | f | s | l1 IH | m1 IH ] using value_ind';
    intros v2 Hu1 Hu2.
  - destruct v2; done.
  - destruct v2 as [ | b | | | | ]; try done.
    simpl. intros ->%Bool.eqb_prop. apply Bool.eqb_reflx.
  - destruct v2 as [ | | g | | | ]; try done. simpl. apply SFeqb_sym.
  - destruct v2 as [ | | | t | | ]; try done.
    simpl. intros ->%String.eqb_eq. apply String.eqb_refl.
  - destruct v2 as [ | | | | l2 | ]; try done.
    rewrite !DeepEqual_slice. apply unique_keys_slice in Hu1, Hu2.
    clear -IH Hu1 Hu2. revert l2 Hu2.
    induction l1 as [|a l1 IHl]; intros l2 Hu2 H12.
    + inversion H12; subst. constructor.
    + inversion H12 as [|? b ? l2' Hab Hl]; subst.
      apply Forall_cons in IH as [Ha IH]. apply Forall_cons in Hu1 as [Hua Hu1].
      apply Forall_cons in Hu2 as [Hub Hu2].
      constructor; [by apply Ha|]. by apply IHl.
  - destruct v2 as [ | | | | | m2 ]; try done.
    intros H12.
    apply unique_keys_map in Hu1 as [Hnd1 Hu1], Hu2 as [Hnd2 Hu2].
    pose proof (DeepEqual_keys m1 m2 Hnd1 Hnd2 H12) as Hkeys.
    apply DeepEqual_map in H12 as [Hlen H12]. apply DeepEqual_map.
    split; [done|]. apply Forall_forall. intros [k b] Hin. simpl.
    assert (k ∈ m1.*1) as Hk.
    { apply Hkeys. apply list_elem_of_fmap. by exists (k, b). }
    apply list_elem_of_fmap in Hk as ([k1 a] & Hk1 & Hin1). simpl in Hk1. subst k1.
    exists a. split; [by apply map_get_elem|].
    destruct (proj1 (Forall_forall _ _) H12 _ Hin1) as (b' & Hb' & Hab). simpl in *.
    rewrite (map_get_elem k b m2 Hnd2 Hin) in Hb'. injection Hb' as <-.
    apply (proj1 (Forall_forall _ _) IH _ Hin1); try done.
    + by apply (proj1 (Forall_forall _ _) Hu1 (k, a)).
    + by apply (proj1 (Forall_forall _ _) Hu2 (k, b)).
Qed.

Lemma areEqualJSON_refl (s : string) :
  is_Some (Unmarshal s) → areEqualJSON s s = true.
Proof.
  intros [v Hv]. unfold areEqualJSON. rewrite Hv.
  by destruct (Unmarshal_sound s v Hv).
Qed.

(** * The comparator is an equivalence on the texts that decode *)

(** X5: the comparator does not depend on which response is the left one
    and which the right one. *)
Theorem areEqualJSON_sym (s1 s2 : string) :
  areEqualJSON s1 s2 = areEqualJSON s2 s1.
Proof.
  unfold areEqualJSON.
  destruct (Unmarshal s1) as [v1|] eqn:H1, (Unmarshal s2) as [v2|] eqn:H2; try done.
  apply Unmarshal_unique_keys in H1, H2.
  destruct (DeepEqual v1 v2) eqn:E12.
  - symmetry. by apply DeepEqual_sym.
  - destruct (DeepEqual v2 v1) eqn:E21; [|done].
    apply DeepEqual_sym in E21; try done. congruence.
Qed.

(** X6: a text is equal to itself for the comparator exactly when it
    decodes: two identical responses count as a mismatch only if they
    are not JSON that [json.Unmarshal] accepts. *)
Theorem areEqualJSON_refl_iff (s : string) :
  areEqualJSON s s = true ↔ is_Some (Unmarshal s).
Proof.
  split; [|apply areEqualJSON_refl].
  unfold areEqualJSON. destruct (Unmarshal s); [by eexists | done].
Qed.

(** X7: texts that the comparator finds equal to the same text are equal
    to each other. *)
Theorem areEqualJSON_trans (s1 s2 s3 : string) :
  areEqualJSON s1 s2 = true → areEqualJSON s2 s3 = true →
  areEqualJSON s1 s3 = true.
Proof.
  unfold areEqualJSON.
  destruct (Unmarshal s1) as [v1|]; [|done].
  destruct (Unmarshal s2) as [v2|] eqn:H2; [|done].
  destruct (Unmarshal s3) as [v3|]; [|done].
  apply DeepEqual_trans. by eapply Unmarshal_unique_keys.
Qed.

Lemma areEqualJSON_trans_witness :
  areEqualJSON "{'a':1,'b':[true,null]}"%q "{ 'b' : [true, null], 'a' : 1.0 }"%q = true.
Proof.
  apply (areEqualJSON_trans _ "{'b':[true,null],'a':1e0}"%q); reflexivity.
Defined.

Section equal_responses.

Variable numGo : nat.
Variables dcLeft dcRight : Dgraph.

(** X8: when both backends answer a request with the same payload and the
    payload decodes, the worker counts the request in [total] only:
    [failed] is as before, and the worker is back at the channel after
    four steps. *)
Theorem same_response_not_failed (s : system) (i : nat) (r : Request)
    (payload : string) :
  prod s ≠ Crashed →
  workers s !! i = Some (WLeft r) →
  dcLeft r = Resp payload → dcRight r = Resp payload →
  is_Some (Unmarshal payload) →
  exec numGo dcLeft dcRight (replicate 4 (Worker i)) s =
  Some (mkSystem (prod s) (reqCh s) (<[i := WIdle]> (workers s))
                 (failed s) (AddUint64 (total s) 1) (sent s)).
Proof.
  intros Hp Hw HL HR Hv.
  assert (i < List.length (workers s))%nat as Hi by (by eapply lookup_lt_Some).
  pose proof (areEqualJSON_refl payload Hv) as Heq.
  assert ((runQuery r dcLeft).1 = payload) as EL by (unfold runQuery; by rewrite HL).
  assert ((runQuery r dcRight).1 = payload) as ER by (unfold runQuery; by rewrite HR).
  simpl.
  rewrite step_worker by done. unfold worker_step at 1. rewrite Hw, EL.
  do 3 (rewrite step_worker by exact Hp; unfold worker_step at 1; simpl;
        rewrite ?list_insert_insert_eq;
        rewrite list_lookup_insert_eq by (rewrite ?length_insert; exact Hi);
        rewrite ?ER, ?Heq; simpl).
  by rewrite ?list_insert_insert_eq.
Qed.

End equal_responses.

(** * The steps of a run *)

Section pipeline.

Variable numGo : nat.
Variables dcLeft dcRight : Dgraph.

(** Every step of a thread is an instance of one of the rules. *)
Lemma step_transition (t : thread) (s s' : system) :
  step numGo dcLeft dcRight t s = Some s' → transition numGo dcLeft dcRight s s'.
Proof.
  unfold step. intros H.
  assert (prod s ≠ Crashed) as Hp by (by destruct (prod s)).
  assert (match t with
          | Producer => producer_step numGo s
          | Worker i => worker_step dcLeft dcRight i s
          end = Some s') as H' by (by destruct (prod s)).
  clear H. destruct t as [|i].
  - unfold producer_step in H'.
    destruct (prod s) as [[|line ls]|r ls| |] eqn:E; try done.
    + injection H' as <-. by constructor.
    + destruct (too_long line) eqn:Hlong.
      { injection H' as <-. by eapply t_too_long. }
      destruct (getReq (dropCR line)) as [r|msg|msg] eqn:Hg; injection H' as <-.
      * by eapply t_extract.
      * by eapply t_skip.
      * by eapply t_crash.
    + destruct (_ <? _)%nat eqn:Hlt; [|done]. injection H' as <-.
      apply t_send; [done|]. by apply Nat.ltb_lt.
  - unfold worker_step in H'.
    destruct (workers s !! i) as [w|] eqn:Hi; [|done].
    destruct w as [|r|r l|r l rr|r l rr|r l rr|]; try done.
    + destruct (reqCh s) as [|r q] eqn:Hq.
      * destruct (prod s) eqn:E; try done. injection H' as <-. by eapply t_return.
      * injection H' as <-. by eapply t_receive.
    + injection H' as <-. by eapply t_left.
    + injection H' as <-. by eapply t_right.
    + injection H' as <-. destruct (areEqualJSON l rr) eqn:Heq; simpl.
      * by eapply t_equal.
      * by eapply t_unequal.
    + injection H' as <-. by eapply t_add_failed.
    + injection H' as <-. by eapply t_add_total.
Qed.

(** A property of the initial state that every step keeps holds in
    every reachable state. *)
Lemma reachable_ind (P : system → Prop) (lines : list string) :
  P (init numGo lines) →
  (∀ s s', P s → transition numGo dcLeft dcRight s s' → P s') →
  ∀ s, reachable numGo dcLeft dcRight lines s → P s.
Proof.
  intros Hinit Hstep s [sched Hs].
  assert (∀ s0, P s0 → exec numGo dcLeft dcRight sched s0 = Some s → P s) as H.
  { clear Hs. induction sched as [|t sched IH]; intros s0 H0; simpl.
    - by intros [= <-].
    - destruct (step numGo dcLeft dcRight t s0) as [s1|] eqn:E; [|done].
      apply IH. eapply Hstep; [done|]. by eapply step_transition. }
  by eapply H.
Qed.

Lemma sum_replicate_idle (g : worker → nat) :
  sum_list_with g (replicate numGo WIdle) = (numGo * g WIdle)%nat.
Proof. induction numGo as [|n IH]; simpl; [done|]. rewrite IH. lia. Qed.

(** ** The shape of the threads *)

Lemma shape_inv_step (s s' : system) :
  shape_inv numGo s → transition numGo dcLeft dcRight s s' → shape_inv numGo s'.
Proof.
  intros (Hlen & Hcap & Hdone) Ht.
  assert (∀ i w', w' ≠ WDone → WDone ∈ <[i:=w']> (workers s) → WDone ∈ workers s)
    as Hmem.
  { intros i w' Hw' H. apply elem_of_insert_inv in H as [H|H]; [congruence|done]. }
  destruct Ht; unfold shape_inv; cbn [workers reqCh prod set_prod set_worker];
    rewrite ?length_insert, ?length_app; cbn [List.length];
    (split; [done|]); (split; [try lia|]);
    try (intros Hx; try (apply Hmem in Hx; [|done]);
         destruct (Hdone Hx) as [? ?]; first [done | congruence]).
  - rewrite H1 in Hcap. simpl in Hcap. lia.
  - done.
Qed.

Lemma shape_inv_init (lines : list string) : shape_inv numGo (init numGo lines).
Proof.
  unfold shape_inv, init; simpl. rewrite length_replicate.
  split_and!; [done|lia|]. intros Hx. apply elem_of_replicate in Hx as [? _]. done.
Qed.

Lemma reachable_shape (lines : list string) (s : system) :
  reachable numGo dcLeft dcRight lines s → shape_inv numGo s.
Proof.
  apply (reachable_ind (shape_inv numGo)); [apply shape_inv_init|].
  apply shape_inv_step.
Qed.


(** ** Every mismatch is counted once *)

Lemma requests_cons (line : string) (lines : list string) :
  requests (line :: lines) =
  match getReq line with
  | Ok r => r :: requests lines
  | _ => requests lines
  end.
Proof. unfold requests, request_of. simpl. by destruct (getReq line). Qed.

Lemma count_mismatch_le (rs : list Request) :
  (count_mismatch dcLeft dcRight rs ≤ List.length rs)%nat.
Proof.
  induction rs as [|r rs IH]; simpl; [lia|].
  destruct (mismatch dcLeft dcRight r); lia.
Qed.

Lemma requests_length (lines : list string) :
  (List.length (requests lines) ≤ List.length lines)%nat.
Proof.
  induction lines as [|line lines IH]; [done|]. rewrite requests_cons.
  destruct (getReq line); simpl; lia.
Qed.

Lemma count_mismatch_app (a b : list Request) :
  count_mismatch dcLeft dcRight (a ++ b) =
  (count_mismatch dcLeft dcRight a + count_mismatch dcLeft dcRight b)%nat.
Proof. induction a as [|r a IH]; simpl; [done|]. rewrite IH. lia. Qed.

Lemma scanned_length (lines : list string) :
  (List.length (scanned lines) ≤ List.length lines)%nat.
Proof.
  induction lines as [|line lines IH]; [done|]. rewrite scanned_cons.
  destruct (too_long line); simpl; lia.
Qed.

(** On a log without a line that is too long for the scanner, the
    requests of the lines read are the requests of the log. *)
Lemma requests_scanned (lines : list string) :
  Forall (λ line, too_long line = false) lines →
  requests (scanned lines) = requests lines.
Proof.
  induction 1 as [|line lines Hline _ IH]; [done|].
  rewrite scanned_cons, Hline, !requests_cons, getReq_dropCR, IH. done.
Qed.

Section failed_counter.

Variable lines : list string.
Hypothesis lines_bound : Z.of_nat (List.length lines) < 2 ^ 64.

Lemma failed_inv_init : failed_inv dcLeft dcRight lines (init numGo lines).
Proof.
  exists 0%nat. split; [done|]. intros _. unfold init; simpl.
  rewrite sum_replicate_idle. simpl. lia.
Qed.

Lemma failed_inv_step (s s' : system) :
  failed_inv dcLeft dcRight lines s →
  transition numGo dcLeft dcRight s s' →
  failed_inv dcLeft dcRight lines s'.
Proof.
  intros (f & Hf & Heq) Ht.
  pose proof (count_mismatch_le (requests (scanned lines))) as Hle1.
  pose proof (requests_length (scanned lines)) as Hle2.
  pose proof (scanned_length lines) as Hle3.
  destruct Ht as [s He|s line ls He Hlong|s line ls r He Hlong Hg
                  |s line ls msg He Hlong Hg|s line ls msg He Hlong Hg
                  |s r ls He Hlt|s i r q Hp Hi Hq|s i He Hi Hq|s i r Hp Hi
                  |s i r l Hp Hi|s i r l rr Hp Hi Hne|s i r l rr Hp Hi Heq'
                  |s i r l rr Hp Hi|s i r l rr Hp Hi];
    try (assert (prod s ≠ Crashed) as Hp' by congruence; specialize (Heq Hp'));
    try (rewrite He in Heq; cbn [to_send] in Heq;
         try rewrite scanned_cons, Hlong in Heq;
         try rewrite requests_cons, Hg in Heq);
    try rewrite Hq in Heq;
    try pose proof (λ w, sum_list_with_insert (owed dcLeft dcRight)
                           (workers s) i _ w Hi) as Hins;
    unfold set_worker, set_prod; cbn [workers reqCh prod failed];
    try match goal with
        | |- context [<[i := ?w]> (workers s)] => specialize (Hins w)
        end.
  all: try (exists f; split; [done|]; intros Hx;
            cbn [workers reqCh prod]; try rewrite He; try rewrite Hq; cbn [to_send];
            rewrite ?count_mismatch_app; simpl in *; unfold mismatch in *;
            try rewrite Hne in *; try rewrite Heq' in *; simpl in *;
            first [done | lia | destruct (areEqualJSON _ _); simpl in *; lia]).
  (* atomic.AddUint64(&failed, 1) *)
  exists (S f). split.
  - rewrite Hf. apply (AddUint64_small lines lines_bound). simpl in *. lia.
  - intros _. simpl in *. lia.
Qed.

Lemma reachable_failed_inv (s : system) :
  reachable numGo dcLeft dcRight lines s → failed_inv dcLeft dcRight lines s.
Proof.
  apply (reachable_ind (failed_inv dcLeft dcRight lines)); [apply failed_inv_init|].
  apply failed_inv_step.
Qed.

End failed_counter.

Lemma finished_sum (g : worker → nat) (ws : list worker) :
  g WDone = 0%nat → forallb is_done ws = true → sum_list_with g ws = 0%nat.
Proof.
  intros Hg. induction ws as [|w ws IH]; simpl; [done|].
  destruct w; try done. simpl. intros H. rewrite Hg, (IH H). done.
Qed.

Lemma finished_closed (s : system) :
  (0 < numGo)%nat → shape_inv numGo s → finished s = true →
  prod s = Closed ∧ reqCh s = [].
Proof.
  intros Hn (Hlen & _ & Hdone) Hfin. apply Hdone.
  unfold finished in Hfin. destruct (workers s) as [|w ws]; simpl in *; [lia|].
  destruct w; try done. apply list_elem_of_here.
Qed.

(** ** The steps that are left *)

Lemma transition_steps (s s' : system) :
  transition numGo dcLeft dcRight s s' → (steps_left s' < steps_left s)%nat.
Proof.
  intros Ht. unfold steps_left.
  destruct Ht as [s He|s line ls He Hlong|s line ls r He Hlong Hg
                  |s line ls msg He Hlong Hg|s line ls msg He Hlong Hg
                  |s r ls He Hlt|s i r q Hp Hi Hq|s i He Hi Hq|s i r Hp Hi
                  |s i r l Hp Hi|s i r l rr Hp Hi Hne|s i r l rr Hp Hi Heq
                  |s i r l rr Hp Hi|s i r l rr Hp Hi];
    try pose proof (λ w, sum_list_with_insert worker_steps (workers s) i _ w Hi) as Hins;
    unfold set_worker, set_prod; cbn [workers reqCh prod];
    try match goal with
        | |- context [<[i := ?w]> (workers s)] => specialize (Hins w)
        end;
    try rewrite He; try rewrite Hq; rewrite ?length_app; simpl in *; lia.
Qed.

Lemma exec_steps (sched : list thread) (s s' : system) :
  exec numGo dcLeft dcRight sched s = Some s' →
  (List.length sched + steps_left s' ≤ steps_left s)%nat.
Proof.
  revert s; induction sched as [|t sched IH]; intros s; simpl.
  - intros [= <-]. lia.
  - destruct (step numGo dcLeft dcRight t s) as [s1|] eqn:E; [|done].
    intros H. apply IH in H. apply step_transition, transition_steps in E. lia.
Qed.

(** ** A thread that can take a step *)

Lemma not_finished (ws : list worker) :
  forallb is_done ws = false → ∃ i w, ws !! i = Some w ∧ w ≠ WDone.
Proof.
  induction ws as [|w ws IH]; simpl; [done|].
  destruct (is_done w) eqn:E; simpl.
  - intros H. destruct (IH H) as (i & w' & Hi & Hw'). by exists (S i), w'.
  - intros _. exists 0%nat, w. split; [done|]. by intros ->.
Qed.

Lemma some_thread_steps (s : system) :
  (0 < numGo)%nat → shape_inv numGo s → prod s ≠ Crashed → finished s = false →
  ∃ t s', step numGo dcLeft dcRight t s = Some s'.
Proof.
  intros Hn (Hlen & Hcap & Hdone) Hp Hfin.
  apply not_finished in Hfin as (i & w & Hi & Hw).
  assert (∀ x, worker_step dcLeft dcRight i s = Some x →
               ∃ t s', step numGo dcLeft dcRight t s = Some s') as Hworker.
  { intros x Hx. exists (Worker i), x. unfold step. by destruct (prod s). }
  assert (∀ x, producer_step numGo s = Some x →
               ∃ t s', step numGo dcLeft dcRight t s = Some s') as Hprod.
  { intros x Hx. exists Producer, x. unfold step. by destruct (prod s). }
  destruct w as [|r|r l|r l rr|r l rr|r l rr|]; try done;
    try (eapply Hworker; unfold worker_step; rewrite Hi; reflexivity).
  destruct (reqCh s) as [|r q] eqn:Hq.
  - destruct (prod s) as [[|line ls]|r ls| |] eqn:E; try done.
    + eapply Hprod. unfold producer_step. rewrite E. reflexivity.
    + destruct (too_long line) eqn:Hlong;
        [eapply Hprod; unfold producer_step; rewrite E, Hlong; reflexivity|].
      destruct (getReq (dropCR line)) eqn:Hg;
        eapply Hprod; unfold producer_step; rewrite E, Hlong, Hg; reflexivity.
    + eapply Hprod. unfold producer_step. rewrite E, Hq.
      destruct (Nat.ltb_spec (List.length (@nil Request)) (capacity numGo))
        as [_|Hge]; [reflexivity|].
      unfold capacity in Hge. simpl in Hge. lia.
    + eapply Hworker. unfold worker_step. rewrite Hi, Hq, E. reflexivity.
  - eapply Hworker. unfold worker_step. rewrite Hi, Hq. reflexivity.
Qed.

(** ** The producer does not stop on a log without a panicking line *)

Lemma producer_safe_step (s s' : system) :
  producer_safe (prod s) → transition numGo dcLeft dcRight s s' →
  producer_safe (prod s').
Proof.
  intros Hs Ht.
  destruct Ht; unfold set_worker, set_prod; cbn [prod]; try done;
    match goal with H : prod _ = _ |- _ => rewrite H in Hs end;
    simpl in *; unfold no_panic in *;
    try done; try (by apply Forall_cons in Hs as [_ ?]).
  apply Forall_cons in Hs as [Hs _]. rewrite getReq_dropCR in *. by destruct (Hs msg).
Qed.

Lemma producer_safe_not_crashed (p : producer) : producer_safe p → p ≠ Crashed.
Proof. by destruct p. Qed.

(** From a state in which the producer is safe, some schedule runs
    the program to its end. *)
Lemma completion (n : nat) :
  (0 < numGo)%nat →
  ∀ s, (steps_left s ≤ n)%nat → shape_inv numGo s → producer_safe (prod s) →
       ∃ sched s', exec numGo dcLeft dcRight sched s = Some s'
                   ∧ finished s' = true.
Proof.
  intros Hn. induction n as [|n IH]; intros s Hle Hshape Hsafe.
  - destruct (finished s) eqn:Hfin; [by exists [], s|].
    destruct (some_thread_steps s Hn Hshape (producer_safe_not_crashed _ Hsafe) Hfin)
      as (t & s1 & Hs1).
    apply step_transition, transition_steps in Hs1. lia.
  - destruct (finished s) eqn:Hfin; [by exists [], s|].
    destruct (some_thread_steps s Hn Hshape (producer_safe_not_crashed _ Hsafe) Hfin)
      as (t & s1 & Hs1).
    pose proof (step_transition _ _ _ Hs1) as Ht.
    pose proof (transition_steps _ _ Ht) as Hlt.
    destruct (IH s1) as (sched & s' & Hex & Hfin').
    + lia.
    + by eapply shape_inv_step.
    + by eapply producer_safe_step.
    + exists (t :: sched), s'. simpl. rewrite Hs1. done.
Qed.

End pipeline.

(** * More on the replay pipeline *)

Section pipeline_properties.

Variable numGo : nat.
Variables dcLeft dcRight : Dgraph.

(** X9: when a run with at least one worker over a log of fewer than
    [2^64] lines has finished, [failed] is the number of requests,
    among those extracted from the lines the scanner has read, whose
    two responses the comparator finds unequal: every mismatch is
    counted, and counted once, under every interleaving.  The lines
    read are the lines in front of the first line of
    [MaxScanTokenSize] bytes or more; on a log without such a line
    they are all lines of the log. *)
Theorem failed_counts_mismatches (lines : list string) (s : system) :
  Z.of_nat (List.length lines) < 2 ^ 64 →
  (0 < numGo)%nat →
  reachable numGo dcLeft dcRight lines s →
  finished s = true →
  failed s = Z.of_nat (count_mismatch dcLeft dcRight (requests (scanned lines)))
  ∧ (Forall (λ line, too_long line = false) lines →
     failed s = Z.of_nat (count_mismatch dcLeft dcRight (requests lines))).
Proof.
  intros Hb Hn Hr Hfin.
  destruct (reachable_failed_inv numGo dcLeft dcRight lines Hb s Hr) as (f & Hf & Heq).
  pose proof (reachable_shape numGo dcLeft dcRight lines s Hr) as Hshape.
  destruct (finished_closed numGo s Hn Hshape Hfin) as [Hp Hq].
  rewrite Hp, Hq in Heq. specialize (Heq ltac:(done)).
  rewrite (finished_sum (owed dcLeft dcRight) (workers s) eq_refl Hfin) in Heq.
  simpl in Heq.
  assert (failed s = Z.of_nat (count_mismatch dcLeft dcRight (requests (scanned lines))))
    as E by (rewrite Hf; f_equal; lia).
  split; [done|]. intros Hshort. by rewrite <- (requests_scanned lines Hshort).
Qed.

(** X10: the producer runs at most six requests per worker ahead of the
    counter [total]: in every state of a run over a log of fewer than
    [2^64] lines, at most [5 * numGo] requests wait in the channel and
    at most [6 * numGo] requests that were sent are not yet counted. *)
Theorem producer_runs_ahead_bounded (lines : list string) (s : system) :
  Z.of_nat (List.length lines) < 2 ^ 64 →
  reachable numGo dcLeft dcRight lines s →
  (List.length (reqCh s) ≤ 5 * numGo)%nat
  ∧ total s ≤ Z.of_nat (sent s) ≤ total s + 6 * Z.of_nat numGo.
Proof.
  intros Hb Hr.
  destruct (reachable_inv numGo dcLeft dcRight lines s Hb Hr)
    as (c & f & Ht & _ & _ & Hsent & _ & _ & _ & _ & Hcap & Hlen).
  pose proof (busy_le_length (workers s)) as Hbusy.
  unfold capacity in Hcap. split; lia.
Qed.

(** X11: with no worker the coordinator does not wait: in every state of
    the run the wait group is done, nothing was put on the channel and
    both counters are zero, whatever the log holds. *)
Theorem no_worker_no_replay (lines : list string) (s : system) :
  numGo = 0%nat →
  reachable numGo dcLeft dcRight lines s →
  finished s = true ∧ sent s = 0%nat ∧ reqCh s = [] ∧ total s = 0 ∧ failed s = 0.
Proof.
  intros Hz Hr.
  assert (workers s = [] ∧ sent s = 0%nat ∧ reqCh s = [] ∧ total s = 0
          ∧ failed s = 0) as (Hw & ? & ? & ? & ?).
  { revert s Hr.
    apply (reachable_ind numGo dcLeft dcRight
             (λ s, workers s = [] ∧ sent s = 0%nat ∧ reqCh s = [] ∧ total s = 0
                   ∧ failed s = 0)).
    - subst numGo. done.
    - intros s0 s1 (Hw & Hs & Hq & Ht & Hf) Htr.
      destruct Htr; unfold set_prod, set_worker in *; simpl in *;
        try done;
        try (match goal with H : workers _ !! _ = Some _ |- _ =>
               rewrite Hw in H; done end).
      subst numGo. rewrite Hq in *. unfold capacity in *. simpl in *. lia. }
  unfold finished. rewrite Hw. done.
Qed.

(** X12: no deadlock: in a state of a run with at least one worker in
    which the producer has not panicked and some worker has not
    returned, some thread can take a step. *)
Theorem no_deadlock (lines : list string) (s : system) :
  (0 < numGo)%nat →
  reachable numGo dcLeft dcRight lines s →
  prod s ≠ Crashed →
  finished s = false →
  ∃ t s', step numGo dcLeft dcRight t s = Some s'.
Proof.
  intros Hn Hr Hp Hfin. apply some_thread_steps; try done.
  by eapply reachable_shape.
Qed.

(** X13: every run is finite: a schedule that the program follows from its
    initial state has at most [8 * n + numGo + 1] steps, [n] being the
    number of lines of the log. *)
Theorem schedule_length_bounded (lines : list string) (sched : list thread)
    (s : system) :
  exec numGo dcLeft dcRight sched (init numGo lines) = Some s →
  (List.length sched ≤ 8 * List.length lines + numGo + 1)%nat.
Proof.
  intros H. apply exec_steps in H. unfold steps_left, init in H; simpl in H.
  rewrite sum_replicate_idle in H. simpl in H. lia.
Qed.

(** X14: on a log without a line on which [getReq] panics, and with at
    least one worker, every state of a run can be continued to a state
    in which all workers have returned: [wg.Wait()] can return. *)
Theorem run_can_finish (lines : list string) (s : system) :
  (0 < numGo)%nat →
  no_panic lines →
  reachable numGo dcLeft dcRight lines s →
  ∃ sched s', exec numGo dcLeft dcRight sched s = Some s' ∧ finished s' = true.
Proof.
  intros Hn Hsafe Hr.
  apply (completion numGo dcLeft dcRight (steps_left s) Hn s); [done| |].
  - by eapply reachable_shape.
  - revert s Hr. apply (reachable_ind numGo dcLeft dcRight (λ s, producer_safe (prod s))).
    + done.
    + apply producer_safe_step.
Qed.

End pipeline_properties.

(** * The order in which the requests are replayed *)

Section received_order.

Variable numGo : nat.
Variables dcLeft dcRight : Dgraph.

(** A step moves requests from the producer to the channel and from
    the channel to a worker, and keeps their order. *)
Lemma step_received (t : thread) (s s' : system) :
  step numGo dcLeft dcRight t s = Some s' →
  prod s' ≠ Crashed →
  (received_at t s ++ reqCh s' ++ to_send (prod s'))%list
  = (reqCh s ++ to_send (prod s))%list.
Proof.
  unfold step. intros H Hp'.
  assert (prod s ≠ Crashed) as Hp by (by destruct (prod s)).
  assert (match t with
          | Producer => producer_step numGo s
          | Worker i => worker_step dcLeft dcRight i s
          end = Some s') as H' by (by destruct (prod s)).
  clear H. destruct t as [|i]; cbn [received_at app].
  - unfold producer_step in H'.
    destruct (prod s) as [[|line ls]|r ls| |] eqn:E; try done.
    + by injection H' as <-.
    + cbn [to_send]. rewrite scanned_cons.
      destruct (too_long line); [by injection H' as <-|].
      rewrite requests_cons.
      destruct (getReq (dropCR line)) as [r|msg|msg] eqn:Hg; injection H' as <-;
        try done.
    + destruct (_ <? _)%nat; [|done]. injection H' as <-. simpl.
      by rewrite <- app_assoc.
  - unfold worker_step in H'.
    destruct (workers s !! i) as [w|] eqn:Hi; [|done].
    destruct w as [|r|r l|r l rr|r l rr|r l rr|]; try done;
      try (by injection H' as <-).
    destruct (reqCh s) as [|r q] eqn:Hq.
    + destruct (prod s) eqn:E; try done. injection H' as <-. simpl.
      by rewrite Hq, E.
    + by injection H' as <-.
Qed.

Lemma exec_received (sched : list thread) (s s' : system) :
  exec numGo dcLeft dcRight sched s = Some s' →
  prod s' ≠ Crashed →
  (received numGo dcLeft dcRight sched s ++ reqCh s' ++ to_send (prod s'))%list
  = (reqCh s ++ to_send (prod s))%list.
Proof.
  revert s; induction sched as [|t sched IH]; intros s; simpl.
  - by intros [= <-].
  - destruct (step numGo dcLeft dcRight t s) as [s1|] eqn:Hs; [|done].
    intros Hex Hp'.
    assert (prod s1 ≠ Crashed) as Hp1.
    { intros Hc. destruct sched as [|t' sched]; simpl in Hex.
      - injection Hex as <-. done.
      - unfold step in Hex. by rewrite Hc in Hex. }
    rewrite <- (step_received t s s1 Hs Hp1), <- (IH s1 Hex Hp').
    by rewrite <- app_assoc.
Qed.

End received_order.

(** X20: the workers take the requests from the channel in the order
    of the log: in every state of a run in which [getReq] has not
    panicked, the requests received so far, the requests in the
    channel and the requests of the lines the scanner has still to
    read are, in this order, the requests of the lines the scanner
    reads of the log, those in front of the first line of
    [MaxScanTokenSize] bytes or more; when a run with at least one
    worker has finished, the requests received are exactly these
    requests, each once. *)
Theorem requests_received_in_order (numGo : nat) (dcLeft dcRight : Dgraph)
    (lines : list string) (sched : list thread) (s : system) :
  exec numGo dcLeft dcRight sched (init numGo lines) = Some s →
  prod s ≠ Crashed →
  (received numGo dcLeft dcRight sched (init numGo lines)
     ++ reqCh s ++ to_send (prod s))%list = requests (scanned lines)
  ∧ ((0 < numGo)%nat → finished s = true →
     received numGo dcLeft dcRight sched (init numGo lines)
     = requests (scanned lines)).
Proof.
  intros Hex Hp.
  pose proof (exec_received numGo dcLeft dcRight sched _ s Hex Hp) as H.
  simpl in H. split; [done|]. intros Hn Hfin.
  assert (shape_inv numGo s) as Hshape.
  { apply (reachable_shape numGo dcLeft dcRight lines). by exists sched. }
  destruct (finished_closed numGo s Hn Hshape Hfin) as [Hc Hq].
  rewrite Hc, Hq in H. simpl in H. by rewrite app_nil_r in H.
Qed.

(** * A line on which the extractor panics *)

Lemma count_ok_app (a b : list string) :
  count_ok (a ++ b) = (count_ok a + count_ok b)%nat.
Proof.
  induction a as [|line a IH]; [done|].
  change ((line :: a) ++ b)%list with (line :: (a ++ b))%list.
  rewrite !count_ok_cons, IH. lia.
Qed.

Lemma no_panic_snoc (passed : list string) (line : string) :
  no_panic passed → (∀ msg, getReq line ≠ Panic msg) →
  no_panic (passed ++ [line]).
Proof.
  intros H1 H2. apply Forall_app. split; [done|]. by constructor.
Qed.

(** The first line of a log on which [getReq] panics is determined. *)
Lemma first_panic (pre passed post rest : list string) (bad line : string) :
  (pre ++ bad :: post)%list = (passed ++ line :: rest)%list →
  no_panic pre → no_panic passed →
  (∃ msg, getReq bad = Panic msg) →
  (∃ more, pre = (passed ++ more)%list)
  ∧ ((∃ msg, getReq line = Panic msg) → passed = pre).
Proof.
  intros Heq Hpre Hpassed [msg Hbad].
  apply app_eq_app in Heq as [more [[-> Hr]|[-> Hr]]].
  - split; [by exists more|]. intros [msg' Hline].
    destruct more as [|x more]; [by rewrite app_nil_r|].
    exfalso. simpl in Hr. injection Hr as -> _.
    apply Forall_app in Hpre as [_ Hx]. apply Forall_cons in Hx as [Hx _].
    by apply (Hx msg').
  - destruct more as [|x more].
    + rewrite app_nil_r. split; [by exists []; rewrite app_nil_r|done].
    + exfalso. simpl in Hr. injection Hr as <- _.
      apply Forall_app in Hpassed as [_ Hx]. apply Forall_cons in Hx as [Hx _].
      by apply (Hx msg).
Qed.

(** The lines passed without a panic are lines in front of the first
    line on which [getReq] panics. *)
Lemma prefix_before_panic (pre passed post rest : list string) (bad msg : string) :
  (pre ++ bad :: post)%list = (passed ++ rest)%list →
  no_panic passed → getReq bad = Panic msg →
  ∃ more, pre = (passed ++ more)%list.
Proof.
  intros Heq Hpassed Hbad.
  apply app_eq_app in Heq as [more [[-> Hr]|[-> Hr]]]; [by exists more|].
  destruct more as [|x more]; [exists []; by rewrite !app_nil_r|].
  exfalso. simpl in Hr. injection Hr as <- _.
  apply Forall_app in Hpassed as [_ Hx]. apply Forall_cons in Hx as [Hx _].
  by apply (Hx msg).
Qed.

Section producer_position.

Variable numGo : nat.
Variables dcLeft dcRight : Dgraph.
Variable lines : list string.

Lemma producer_at_init : producer_at lines (init numGo lines).
Proof. exists []. split_and!; [done | constructor | reflexivity]. Qed.

Lemma producer_at_step (s s' : system) :
  producer_at lines s → transition numGo dcLeft dcRight s s' →
  producer_at lines s'.
Proof.
  intros Hat Ht. unfold producer_at in *.
  destruct Ht as [s He|s line ls He Hlong|s line ls r He Hlong Hg
                  |s line ls msg He Hlong Hg|s line ls msg He Hlong Hg
                  |s r ls He Hlt|s i r q Hp Hi Hq|s i He Hi Hq|s i r Hp Hi
                  |s i r l Hp Hi|s i r l rr Hp Hi Hne|s i r l rr Hp Hi Heq
                  |s i r l rr Hp Hi|s i r l rr Hp Hi];
    unfold set_worker, set_prod; cbn [prod sent]; try done;
    rewrite He in Hat; try rewrite getReq_dropCR in Hg.
  - destruct Hat as (passed & -> & Hn & Hs). by exists passed, [].
  - destruct Hat as (passed & -> & Hn & Hs). by exists passed, (line :: ls).
  - destruct Hat as (passed & -> & Hn & Hs). by exists passed, line.
  - destruct Hat as (passed & -> & Hn & Hs). exists (passed ++ [line])%list.
    split_and!.
    + by rewrite <- app_assoc.
    + apply no_panic_snoc; [done|]. intros m. by rewrite Hg.
    + rewrite count_ok_app, count_ok_cons, Hg. simpl.
      change (count_ok []) with 0%nat. lia.
  - destruct Hat as (passed & -> & Hn & Hs). by exists passed, line, ls, msg.
  - destruct Hat as (passed & line & -> & Hn & Hg & Hs).
    exists (passed ++ [line])%list. split_and!.
    + by rewrite <- app_assoc.
    + apply no_panic_snoc; [done|]. intros m. by rewrite Hg.
    + rewrite count_ok_app, count_ok_cons, Hg. simpl.
      change (count_ok []) with 0%nat. lia.
Qed.

Lemma reachable_producer_at (s : system) :
  reachable numGo dcLeft dcRight lines s → producer_at lines s.
Proof.
  apply (reachable_ind numGo dcLeft dcRight (producer_at lines));
    [apply producer_at_init | apply producer_at_step].
Qed.

End producer_position.

(** X21: a line on which [getReq] panics ends the replay: in a run over
    a log whose first such line comes after the lines [pre], no more
    requests are ever sent than [pre] holds, whatever the lines after
    it are; and once the producer has panicked, all these requests
    were sent and no thread takes a step any more. *)
Theorem panic_line_ends_replay (numGo : nat) (dcLeft dcRight : Dgraph)
    (pre post : list string) (bad msg : string) (s : system) :
  no_panic pre →
  getReq bad = Panic msg →
  reachable numGo dcLeft dcRight (pre ++ bad :: post) s →
  (sent s ≤ count_ok pre)%nat
  ∧ (prod s = Crashed →
     sent s = count_ok pre ∧ ∀ t, step numGo dcLeft dcRight t s = None).
Proof.
  intros Hpre Hbad Hr.
  apply reachable_producer_at in Hr. unfold producer_at in Hr.
  assert (∀ passed more, pre = (passed ++ more)%list →
                         (count_ok passed ≤ count_ok pre)%nat) as Hle.
  { intros passed more ->. rewrite count_ok_app. lia. }
  destruct (prod s) as [ls|r ls| |] eqn:Hp.
  - destruct Hr as (passed & Heq & Hn & ->). split; [|done].
    destruct ls as [|line ls].
    + exfalso. rewrite app_nil_r in Heq. subst passed.
      apply Forall_app in Hn as [_ Hn]. apply Forall_cons in Hn as [Hn _].
      by apply (Hn msg).
    + destruct (first_panic pre passed post ls bad line Heq Hpre Hn)
        as [[more Hmore] _]; [by exists msg|]. by eapply Hle.
  - destruct Hr as (passed & line & Heq & Hn & Hg & ->). split; [|done].
    destruct (first_panic pre passed post ls bad line Heq Hpre Hn)
      as [[more Hmore] _]; [by exists msg|]. by eapply Hle.
  - destruct Hr as (passed & rest & Heq & Hn & ->). split; [|done].
    destruct (prefix_before_panic pre passed post rest bad msg Heq Hn Hbad)
      as [more Hmore].
    by eapply Hle.
  - destruct Hr as (passed & line & rest & msg' & Heq & Hn & Hg & ->).
    destruct (first_panic pre passed post rest bad line Heq Hpre Hn)
      as [_ Hsame]; [by exists msg|].
    rewrite (Hsame ltac:(by exists msg')).
    split; [done|]. intros _. split; [done|]. intros t. unfold step. by rewrite Hp.
Qed.

(** * The predicate counts *)

Lemma count_of_inr (cnt : option (list (string * value))) (c : spec_float) :
  count_of cnt = inr c ↔
  ∃ m l m', cnt = Some m ∧ map_get "f" m = Some (VSlice (VMap m' :: l))
            ∧ map_get "count" m' = Some (VFloat64 c).
Proof.
  unfold count_of. split.
  - destruct cnt as [m|]; simpl; [|done].
    destruct (map_get "f" m) as [[| | | |[|[| | | | |m'] l]|]|] eqn:Hf; try done.
    destruct (map_get "count" m') as [[| |c'| | |]|] eqn:Hc; try done.
    intros [= <-]. by exists m, l, m'.
  - intros (m & l & m' & -> & Hf & Hc). simpl. by rewrite Hf, Hc.
Qed.

Lemma UnmarshalMap_Some (r : string) (cnt : option (list (string * value))) :
  UnmarshalMap r = Some cnt ↔
  Unmarshal r = Some (match cnt with Some m => VMap m | None => VNil end).
Proof.
  unfold UnmarshalMap. split.
  - destruct (Unmarshal r) as [[| | | | |m]|]; try done; by intros [= <-].
  - intros ->. by destruct cnt.
Qed.

Lemma count_entries_nil_iff (client : Dgraph) (entries : list (option SchemaEntry))
    (log : list log_line) :
  count_entries client entries = (log, Return None) ↔
  Forall2 (counted client) entries log.
Proof.
  revert log; induction entries as [|e entries IH]; intros log.
  - simpl. split.
    + intros [= <-]. constructor.
    + intros H. by inversion H.
  - split.
    + destruct e as [s|]; simpl; [|done]. unfold runQuery.
      destruct (client _) as [r|cause] eqn:Hc; [|done].
      destruct (UnmarshalMap r) as [cnt|] eqn:Hu; [|done].
      destruct (count_of cnt) as [msg|c] eqn:Hcnt; [done|].
      destruct (count_entries client entries) as [log' e] eqn:Hrec.
      intros [= <- ->]. constructor; [|by apply IH].
      apply count_of_inr in Hcnt as (m & l & m' & -> & Hf & Hcount).
      apply UnmarshalMap_Some in Hu.
      exists s, r, c. split_and!; try done. by exists m, l, m'.
    + intros (line & log' & (s & r & c & -> & -> & Hr & (m & l & m' & Hm & Hf & Hcount))
              & Hrest & ->)%Forall2_cons_inv_l.
      simpl. unfold runQuery. rewrite Hr.
      assert (UnmarshalMap r = Some (Some m)) as ->
        by (apply (UnmarshalMap_Some r (Some m)); exact Hm).
      assert (count_of (Some m) = inr c) as ->
        by (apply count_of_inr; by exists m, l, m').
      apply IH in Hrest. by rewrite Hrest.
Qed.

(** ** The fields of an entry *)

Lemma equalFold_length (name key : string) :
  plain_name name = true → equalFold name key = true →
  String.length key = String.length name.
Proof.
  revert key; induction name as [|sb name IH]; intros [|tb key]; try done.
  unfold plain_name. cbn [list_ascii_of_string forallb equalFold].
  intros [[H1 H2]%andb_true_iff Hn]%andb_true_iff.
  apply negb_true_iff in H1, H2.
  destruct (byte_val tb <? utf8.RuneSelf).
  - intros [_ H]%andb_true_iff. simpl. f_equal. by apply IH.
  - destruct (utf8.DecodeRuneInString (String tb key)) as [tr size].
    by rewrite H1, H2.
Qed.

Lemma find_schema (ks : string) :
  equalFold "Schema" ks = true → find_field ["Schema"] ks = Some 0%nat.
Proof.
  intros H. unfold find_field. cbn [exact_field folded_field].
  destruct (String.eqb "Schema" ks); [done|].
  cbn [fmap option_fmap option_map]. by rewrite H.
Qed.

Lemma find_predicate (kp : string) :
  equalFold "Predicate" kp = true →
  find_field ["Predicate"; "Type"] kp = Some 0%nat.
Proof.
  intros H. unfold find_field. cbn [exact_field folded_field].
  destruct (String.eqb "Predicate" kp); [done|].
  destruct (String.eqb_spec "Type" kp) as [<-|_]; [by vm_compute in H|].
  cbn [fmap option_fmap option_map]. by rewrite H.
Qed.

Lemma find_type (kt : string) :
  equalFold "Type" kt = true →
  find_field ["Predicate"; "Type"] kt = Some 1%nat.
Proof.
  intros H. unfold find_field. cbn [exact_field folded_field].
  destruct (String.eqb_spec "Predicate" kt) as [<-|_]; [by vm_compute in H|].
  destruct (String.eqb "Type" kt); [done|].
  cbn [fmap option_fmap option_map].
  destruct (equalFold "Predicate" kt) eqn:E; [|by rewrite H].
  apply equalFold_length in E, H; try done. rewrite H in E. done.
Qed.

Lemma decode_others (e : SchemaEntry) (others : list (string * raw)) :
  no_entry_field others → decode_entry_fields e others = Some e.
Proof.
  induction 1 as [|[k r] m Hk _ IH]; simpl; [done|].
  simpl in Hk. by rewrite Hk.
Qed.

Section entries.

Variables kp kt : string.
Hypothesis predicate_key : equalFold "Predicate" kp = true.
Hypothesis type_key : equalFold "Type" kt = true.

Lemma decode_entry_object (cur : option SchemaEntry) (e : SchemaEntry)
    (others : list (string * raw)) :
  no_entry_field others →
  decode_entry cur (entry_object kp kt e others) = Some (Some e).
Proof.
  intros H. unfold decode_entry, entry_object.
  cbn [decode_entry_fields]. rewrite find_predicate, find_type by done.
  cbn [decode_string Predicate Type_]. rewrite decode_others by done.
  by destruct e.
Qed.

Lemma decode_entry_objects (l : list (SchemaEntry * list (string * raw))) :
  Forall (λ x, no_entry_field x.2) l →
  decode_entries (map (λ x, entry_object kp kt x.1 x.2) l) [] =
  Some (map (λ x, Some x.1) l).
Proof.
  induction 1 as [|[e others] l He _ IH]; [done|].
  cbn [map decode_entries head tail mjoin fst snd].
  change (mjoin (head [])) with (@None SchemaEntry).
  rewrite decode_entry_object by done. cbn [tail]. by rewrite IH.
Qed.

Lemma decode_slice_objects (l : list (SchemaEntry * list (string * raw))) :
  Forall (λ x, no_entry_field x.2) l →
  decode_slice (mkSchema [] 0) (RArray (map (λ x, entry_object kp kt x.1 x.2) l)) =
  Some (mkSchema (map (λ x, Some x.1) l) (List.length l)).
Proof.
  intros H. destruct l as [|x l]; [done|].
  pose proof (decode_entry_objects (x :: l) H) as E.
  unfold decode_slice. cbn [map backing] in *. rewrite E.
  cbn [fmap option_fmap option_map List.length]. by rewrite length_map.
Qed.

End entries.

(** The entries that are counted are passed: the loop goes on with
    the entries after them. *)
Lemma count_entries_app (client : Dgraph) (es1 es2 : list (option SchemaEntry))
    (log : list log_line) :
  Forall2 (counted client) es1 log →
  count_entries client (es1 ++ es2)%list =
  ((log ++ (count_entries client es2).1)%list, (count_entries client es2).2).
Proof.
  induction 1 as [|e line es1 log (s & r & c & -> & -> & Hr & (m & l & m' & Hm & Hf & Hc)) _ IH].
  - simpl. by destruct (count_entries client es2).
  - cbn [app count_entries]. unfold runQuery. rewrite Hr.
    assert (UnmarshalMap r = Some (Some m)) as ->
      by (apply (UnmarshalMap_Some r (Some m)); exact Hm).
    assert (count_of (Some m) = inr c) as ->
      by (apply count_of_inr; by exists m, l, m').
    by rewrite IH.
Qed.

(** * The predicate counts: properties *)

(** X15: when the schema query fails, [getSchema] logs the error and
    gives the text of the empty object, and [getCounts] then logs no
    count and returns [nil], whatever the backend answers to other
    queries: the caller is not told that the schema was not read. *)
Theorem getCounts_without_schema (client : Dgraph) (cause : string) :
  client (mkRequest "schema{}" ∅) = RespErr cause →
  getSchema client = ([LogSchemaError cause], "{}")
  ∧ getCounts client = ([LogSchemaError cause], Return None).
Proof.
  intros H. unfold getCounts, getSchema. rewrite H. done.
Qed.

Lemma getCounts_without_schema_witness :
  getCounts (λ _, RespErr "unavailable")
  = ([LogSchemaError "unavailable"], Return None).
Proof.
  apply (proj2 (getCounts_without_schema (λ _, RespErr "unavailable") "unavailable"
                  eq_refl)).
Defined.

(** [getCounts] in terms of what [getSchema] gives. *)
Lemma getCounts_eq (client : Dgraph) :
  getCounts client =
  match UnmarshalSchema (getSchema client).2 with
  | None => ((getSchema client).1, Return (Some ErrUnmarshalSchema))
  | Some entries =>
    (((getSchema client).1 ++ (count_entries client entries).1)%list,
     (count_entries client entries).2)
  end.
Proof.
  unfold getCounts. destruct (getSchema client) as [log s]. simpl.
  destruct (UnmarshalSchema s) as [entries|]; [|done].
  by destruct (count_entries client entries).
Qed.

(** X16: [getCounts] returns [nil] exactly when the schema text decodes
    and, for every entry in order, the entry is not [nil] and the
    backend answers its count query with an object whose member [f] is
    an array that starts with an object with a number as [count]: it
    then has logged, after what [getSchema] logs, one line per entry,
    in the order of the schema. *)
Theorem getCounts_returns_nil_iff (client : Dgraph) (log : list log_line) :
  getCounts client = (log, Return None) ↔
  ∃ entries counts,
    UnmarshalSchema (getSchema client).2 = Some entries
    ∧ Forall2 (counted client) entries counts
    ∧ log = ((getSchema client).1 ++ counts)%list.
Proof.
  rewrite getCounts_eq.
  destruct (UnmarshalSchema (getSchema client).2) as [entries|].
  - split.
    + intros [= <- He]. exists entries, (count_entries client entries).1.
      split_and!; try done. apply count_entries_nil_iff.
      destruct (count_entries client entries); simpl in *. by subst.
    + intros (? & counts & [= <-] & H & ->).
      apply count_entries_nil_iff in H. by rewrite H.
  - split; [done|]. by intros (? & ? & ? & _).
Qed.

(** X17: the struct tags of [SchemaEntry] are not read, yet a schema
    response is decoded into its entries: the keys match the field
    names [Schema], [Predicate] and [Type] whatever the case of their
    letters, as in [schema], [predicate] and [type], and the other
    members of an entry are skipped. *)
Theorem UnmarshalSchema_entries (s ks kp kt : string)
    (l : list (SchemaEntry * list (string * raw))) :
  equalFold "Schema" ks = true →
  equalFold "Predicate" kp = true →
  equalFold "Type" kt = true →
  scan s = Some (RObject [(ks, RArray (map (λ x, entry_object kp kt x.1 x.2) l))]) →
  Forall (λ x, no_entry_field x.2) l →
  UnmarshalSchema s = Some (map (λ x, Some x.1) l).
Proof.
  intros Hks Hkp Hkt Hs Hl. unfold UnmarshalSchema. rewrite Hs.
  cbn [decode_schema_fields]. rewrite find_schema by done.
  rewrite (decode_slice_objects kp kt) by done.
  cbn [fmap option_fmap option_map decode_schema_fields len backing].
  f_equal. apply firstn_all2. by rewrite length_map.
Qed.

(** X18: the first count query that fails ends [getCounts]: it returns
    the error of that query after the lines of the entries before it,
    which follow what [getSchema] logs, and the entries after it are
    not counted. *)
Theorem getCounts_stops_at_failed_query (client : Dgraph)
    (es1 es2 : list (option SchemaEntry)) (s : SchemaEntry)
    (log : list log_line) (cause : string) :
  UnmarshalSchema (getSchema client).2 = Some (es1 ++ Some s :: es2)%list →
  Forall2 (counted client) es1 log →
  client (mkRequest (count_query (Predicate s)) ∅) = RespErr cause →
  getCounts client =
  (((getSchema client).1 ++ log)%list,
   Return (Some (ErrRunQuery
                   (mkQueryError (count_query (Predicate s)) ∅ cause)))).
Proof.
  intros Hs Hlog Hc. rewrite getCounts_eq, Hs.
  rewrite (count_entries_app client es1 (Some s :: es2) log Hlog).
  cbn [count_entries]. unfold runQuery. rewrite Hc. simpl.
  by rewrite app_nil_r.
Qed.

(** X19: a count response without a row is not reported as an error:
    when the response to the count query of an entry decodes to an
    object without the member [f], or with an empty array as [f],
    [getCounts] panics, on the type assertion or on the index, after
    the lines of the entries before it, which follow what [getSchema]
    logs. *)
Theorem getCounts_panics_without_row (client : Dgraph)
    (es1 es2 : list (option SchemaEntry)) (s : SchemaEntry)
    (log : list log_line) (r : string) (m : list (string * value)) :
  UnmarshalSchema (getSchema client).2 = Some (es1 ++ Some s :: es2)%list →
  Forall2 (counted client) es1 log →
  client (mkRequest (count_query (Predicate s)) ∅) = Resp r →
  Unmarshal r = Some (VMap m) →
  (map_get "f" m = None →
   getCounts client =
   (((getSchema client).1 ++ log)%list,
    Panics "interface conversion: interface {} is nil, not []interface {}"))
  ∧ (map_get "f" m = Some (VSlice []) →
     getCounts client =
     (((getSchema client).1 ++ log)%list,
      Panics "index out of range [0] with length 0")).
Proof.
  intros Hs Hlog Hc Hm. rewrite getCounts_eq, Hs.
  rewrite (count_entries_app client es1 (Some s :: es2) log Hlog).
  cbn [count_entries]. unfold runQuery. rewrite Hc.
  assert (UnmarshalMap r = Some (Some m)) as ->
    by (apply (UnmarshalMap_Some r (Some m)); exact Hm).
  unfold count_of. cbn [mbind option_bind].
  split; intros ->; simpl; by rewrite app_nil_r.
Qed.

(** * The further properties on concrete inputs *)

Lemma getReq_vars_raw_witness :
  contains "$a" DQUOTE = false ∧ contains "x y" ">" = false.
Proof.
  destruct (getReq_vars_raw
    "Got a query: query:{query:'q' vars:<key:'$a' value:'x y'>}"%q
    (mkRequest "q" {["$a" := "x y"]}) "$a" "x y") as [(Hk & _) (_ & Hv & _)].
  - reflexivity.
  - reflexivity.
  - split; [exact Hk | exact Hv].
Defined.

Lemma getReq_after_first_marker_witness :
  getReq "I0312 10:23:45.123456 1 server.go:120] Got a query: query:{query:'q'}"%q
  = getReq "Got a query: query:{query:'q'}"%q.
Proof.
  apply (getReq_after_first_marker "I0312 10:23:45.123456 1 server.go:120] "
           "{query:'q'}"%q).
  apply isQuery_None. reflexivity.
Defined.

Lemma getReq_escaped_quote_witness :
  getReq "Got a query: query:{query:'{q(func: eq(name, \'Alice\')){uid}}'}"%q
  = Err "while unquoting: invalid syntax".
Proof.
  apply (getReq_escaped_quote "{query:" "{q(func: eq(name, " "Alice\'){uid}}'}"%q);
    reflexivity.
Defined.

Lemma same_response_not_failed_witness :
  exec 1 (λ _, Resp "{'f':[{'count':3}]}"%q) (λ _, Resp "{'f':[{'count':3}]}"%q)
       (replicate 4 (Worker 0))
       (mkSystem Closed [] [WLeft (mkRequest "q" ∅)] 0 0 1)
  = Some (mkSystem Closed [] [WIdle] 0 1 1).
Proof.
  apply (same_response_not_failed 1
           (λ _, Resp "{'f':[{'count':3}]}"%q) (λ _, Resp "{'f':[{'count':3}]}"%q)
           (mkSystem Closed [] [WLeft (mkRequest "q" ∅)] 0 0 1) 0 (mkRequest "q" ∅)
           "{'f':[{'count':3}]}"%q).
  - simpl. discriminate.
  - reflexivity.
  - reflexivity.
  - reflexivity.
  - eexists. reflexivity.
Defined.

(** One query line and one unrelated line, one worker, two backends
    that answer with different counts. *)
Lemma failed_counts_mismatches_witness :
  failed (mkSystem Closed [] [WDone] 1 1 1) = 1.
Proof.
  destruct (failed_counts_mismatches 1 (λ _, Resp "{'q':[{'count':5}]}"%q)
              (λ _, Resp "{'q':[{'count':6}]}"%q)
              ["Got a query: query:{query:'{q(func: has(name)){count(uid)}}'}"%q;
               "some unrelated text"]
              (mkSystem Closed [] [WDone] 1 1 1)) as [H _].
  - simpl. lia.
  - lia.
  - exists [Producer; Producer; Worker 0; Worker 0; Worker 0; Worker 0; Worker 0;
            Worker 0; Producer; Producer; Worker 0].
    reflexivity.
  - reflexivity.
  - exact H.
Defined.

Lemma producer_runs_ahead_bounded_witness :
  (List.length (reqCh (mkSystem (Scanning []) [mkRequest "q" ∅] [WIdle] 0 0 1)) ≤ 5 * 1)%nat
  ∧ total (mkSystem (Scanning []) [mkRequest "q" ∅] [WIdle] 0 0 1)
    ≤ Z.of_nat (sent (mkSystem (Scanning []) [mkRequest "q" ∅] [WIdle] 0 0 1))
    ≤ total (mkSystem (Scanning []) [mkRequest "q" ∅] [WIdle] 0 0 1) + 6 * Z.of_nat 1.
Proof.
  apply (producer_runs_ahead_bounded 1 (λ _, Resp "{}") (λ _, Resp "{}")
           ["Got a query: query:{query:'q'}"%q]).
  - simpl. lia.
  - exists [Producer; Producer]. reflexivity.
Defined.

Lemma no_worker_no_replay_witness :
  finished (mkSystem (Sending (mkRequest "q" ∅) []) [] [] 0 0 0) = true
  ∧ sent (mkSystem (Sending (mkRequest "q" ∅) []) [] [] 0 0 0) = 0%nat
  ∧ reqCh (mkSystem (Sending (mkRequest "q" ∅) []) [] [] 0 0 0) = []
  ∧ total (mkSystem (Sending (mkRequest "q" ∅) []) [] [] 0 0 0) = 0
  ∧ failed (mkSystem (Sending (mkRequest "q" ∅) []) [] [] 0 0 0) = 0.
Proof.
  apply (no_worker_no_replay 0 (λ _, Resp "{}") (λ _, Resp "{}")
           ["Got a query: query:{query:'q'}"%q]).
  - reflexivity.
  - exists [Producer]. reflexivity.
Defined.

Lemma no_deadlock_witness :
  ∃ t s', step 1 (λ _, Resp "{}") (λ _, Resp "{}") t
               (mkSystem Closed [] [WIdle] 0 0 0) = Some s'.
Proof.
  apply (no_deadlock 1 (λ _, Resp "{}") (λ _, Resp "{}") []).
  - lia.
  - exists [Producer]. reflexivity.
  - simpl. discriminate.
  - reflexivity.
Defined.

Lemma schedule_length_bounded_witness :
  (List.length [Producer; Producer; Worker 0] ≤ 8 * 1 + 1 + 1)%nat.
Proof.
  apply (schedule_length_bounded 1 (λ _, Resp "{}") (λ _, Resp "{}")
           ["Got a query: query:{query:'q'}"%q] [Producer; Producer; Worker 0]
           (mkSystem (Scanning []) [] [WLeft (mkRequest "q" ∅)] 0 0 1)).
  reflexivity.
Defined.

Lemma run_can_finish_witness :
  ∃ sched s',
    exec 1 (λ _, Resp "{}") (λ _, Resp "{}") sched
         (mkSystem (Scanning []) [mkRequest "q" ∅] [WIdle] 0 0 1) = Some s'
    ∧ finished s' = true.
Proof.
  apply (run_can_finish 1 (λ _, Resp "{}") (λ _, Resp "{}")
           ["Got a query: query:{query:'q'}"%q]).
  - lia.
  - constructor; [|constructor]. intros msg. vm_compute. discriminate.
  - exists [Producer; Producer]. reflexivity.
Defined.

Lemma UnmarshalSchema_entries_witness :
  UnmarshalSchema
    "{'schema':[{'predicate':'name','type':'string','index':true},{'predicate':'age','type':'int'}]}"%q
  = Some [Some (mkSchemaEntry "name" "string"); Some (mkSchemaEntry "age" "int")].
Proof.
  apply (UnmarshalSchema_entries
           "{'schema':[{'predicate':'name','type':'string','index':true},{'predicate':'age','type':'int'}]}"%q
           "schema" "predicate" "type"
           [(mkSchemaEntry "name" "string", [("index", RBool true)]);
            (mkSchemaEntry "age" "int", [])]).
  - reflexivity.
  - reflexivity.
  - reflexivity.
  - reflexivity.
  - repeat constructor.
Defined.

Lemma getCounts_stops_at_failed_query_witness :
  getCounts (λ r, if String.eqb (Query r) "schema{}"
                  then Resp "{'schema':[{'predicate':'name'}]}"%q
                  else RespErr "timeout")
  = ([], Return (Some (ErrRunQuery
                         (mkQueryError "query { f(func: has(name)) { count(uid) } }"
                                       ∅ "timeout")))).
Proof.
  exact (getCounts_stops_at_failed_query
           (λ r, if String.eqb (Query r) "schema{}"
                 then Resp "{'schema':[{'predicate':'name'}]}"%q
                 else RespErr "timeout")
           [] [] (mkSchemaEntry "name" "") [] "timeout"
           eq_refl (List.Forall2_nil _) eq_refl).
Defined.

Lemma getCounts_panics_without_row_witness :
  getCounts (λ r, if String.eqb (Query r) "schema{}"
                  then Resp "{'schema':[{'predicate':'name'}]}"%q
                  else Resp "{'f':[]}"%q)
  = ([], Panics "index out of range [0] with length 0").
Proof.
  exact (proj2 (getCounts_panics_without_row
                  (λ r, if String.eqb (Query r) "schema{}"
                        then Resp "{'schema':[{'predicate':'name'}]}"%q
                        else Resp "{'f':[]}"%q)
                  [] [] (mkSchemaEntry "name" "") []
                  "{'f':[]}"%q [("f", VSlice [])]
                  eq_refl (List.Forall2_nil _) eq_refl eq_refl) eq_refl).
Defined.

(** Two query lines with a line of 65536 bytes between them: the
    reading ends at the long line, and only the first request is
    replayed. *)
Lemma requests_received_in_order_witness :
  received 1 (λ _, Resp "{}") (λ _, Resp "{}")
           [Producer; Producer; Producer; Worker 0; Worker 0; Worker 0; Worker 0;
            Worker 0; Worker 0]
           (init 1 ["Got a query: query:{query:'a'}"%q; long_line;
                    "Got a query: query:{query:'b'}"%q])
  = [mkRequest "a" ∅].
Proof.
  destruct (requests_received_in_order 1 (λ _, Resp "{}") (λ _, Resp "{}")
    ["Got a query: query:{query:'a'}"%q; long_line;
     "Got a query: query:{query:'b'}"%q]
    [Producer; Producer; Producer; Worker 0; Worker 0; Worker 0; Worker 0;
     Worker 0; Worker 0]
    (mkSystem Closed [] [WDone] 0 1 1)) as [_ H].
  - vm_compute. reflexivity.
  - discriminate.
  - rewrite H; [|lia|reflexivity]. vm_compute. reflexivity.
Defined.

Lemma panic_line_ends_replay_witness :
  (sent (mkSystem Crashed [mkRequest "a" ∅] [WIdle] 0 0 1) ≤ 1)%nat.
Proof.
  destruct (panic_line_ends_replay 1 (λ _, Resp "{}") (λ _, Resp "{}")
    ["Got a query: query:{query:'a'}"%q]
    ["Got a query: query:{query:'b'}"%q]
    "Got a query: query:{query:'q' vars:<key:'$a'>}"%q
    "index out of range [1] with length 0"
    (mkSystem Crashed [mkRequest "a" ∅] [WIdle] 0 0 1)) as [H _].
  - constructor; [|constructor]. intros m. vm_compute. discriminate.
  - reflexivity.
  - exists [Producer; Producer; Producer]. reflexivity.
  - exact H.
Defined.
